(** * tutone: type expansion and selection-set synthesis

    A shallow embedding of [internal/schema]: [ExpandType], [ExpandTypes],
    [hasType], [typeNameInTypes] (schema_util.go) and
    [GetQueryStringFields] (the method of [Type]), with the
    properties of the specification stated over them.

    Conventions.
    - A Go [*Type] that points into [s.Types] is its position in that
      slice ([ptr]); [None] is the nil pointer.  The slice itself holds the
      records, so writing through a pointer is an update of the schema
      value, which the synthesis functions thread explicitly.
    - Go's [(value, error)] results are [result]; a run that may hit a nil
      dereference, or need more nested calls than the fuel allows, is a
      [run].
    - Go's [int] is 64 bits wide; [depth++] is [int_incr]. *)

From Stdlib Require Import ZArith String Ascii List Bool Lia.
From Stdlib Require OrderedTypeEx.
From stdpp Require Import base list strings gmap.
Import ListNotations.

Set Warnings "-register-all".

Local Open Scope string_scope.
Local Open Scope list_scope.

(** ** Data model *)

(** Modelled from the spec: the [Kind] constants ([KindObject] and
    [KindInterface] are the two the sources name; the enumeration is §3's
    TypeKind). *)
Inductive Kind : Set :=
| KindScalar | KindObject | KindInterface | KindUnion
| KindEnum | KindInputObject | KindList | KindNonNull.

(** Modelled from the spec: [TypeRef], a kind, a name and an optional
    wrapped reference [OfType]. *)
Inductive TypeRef : Set :=
  mkTypeRef { tr_Name : string; tr_Kind : Kind; tr_OfType : option TypeRef }.

(** Modelled from the spec: an argument with its optional default value. *)
Record Argument : Set :=
  mkArgument { a_Name : string; a_Type : TypeRef; a_DefaultValue : option string }.

(** Modelled from the spec: [Field]. *)
Record Field : Set :=
  mkField { f_Name : string; f_Description : string;
            f_Type : TypeRef; f_Args : list Argument }.

(** An enumeration value; only carried by [SchemaType]. *)
Record EnumValue : Set :=
  mkEnumValue { ev_Name : string; ev_Description : string }.

(** [type Type struct] of the source ([Type] is reserved here). *)
Record SchemaType : Set :=
  mkType { t_Name : string;
           t_Description : string;
           t_Kind : Kind;
           t_EnumValues : list EnumValue;
           t_Fields : list Field;
           t_InputFields : list Field;
           t_Interfaces : list TypeRef;
           t_PossibleTypes : list TypeRef;
           t_SkipFields : list string }.

(** Modelled from the spec: the registry, an ordered collection of types.
    [s.Types] is a [[]*Type]: an entry may be nil. *)
Record Schema : Set := mkSchema { Types : list (option SchemaType) }.

(** Modelled from the spec: a root type descriptor, known by its name. *)
Record TypeInfo : Set := mkTypeInfo { ti_Name : string }.

Definition ptr : Set := nat.

Inductive error : Set :=
| NotFound (typeName : string)
| Errorf (msg : string).

Inductive result (A : Type) : Type :=
| Ok (a : A)
| Err (e : error).
Arguments Ok {A} a.
Arguments Err {A} e.

Inductive run (A : Type) : Type :=
| Done (a : A)
| Panic
| OutOfFuel.
Arguments Done {A} a.
Arguments Panic {A}.
Arguments OutOfFuel {A}.

(** ** Machine integers *)

Definition max_int : Z := 9223372036854775807.
Definition min_int : Z := -9223372036854775808.

(** [depth++] on a 64-bit [int]. *)
Definition int_incr (d : Z) : Z :=
  if (d =? max_int)%Z then min_int else (d + 1)%Z.

(** ** Strings *)

Definition tab : string := String (ascii_of_nat 9) EmptyString.
Definition nl : ascii := ascii_of_nat 10.
Definition newline : string := String nl EmptyString.

(** [strings.Join(lines, "\n")]. *)
Definition Join (lines : list string) : string := String.concat newline lines.

(** [strings.Split(s, "\n")]: the pieces between separators; never empty. *)
Fixpoint Split (s : string) : list string :=
  match s with
  | EmptyString => [EmptyString]
  | String c r =>
      if Ascii.eqb c nl then EmptyString :: Split r
      else match Split r with
           | [] => [String c EmptyString]
           | h :: tl => String c h :: tl
           end
  end.

(** [fmt.Sprintf("\t%s", b)]. *)
Definition tabbed (b : string) : string := tab +:+ b.

(** Modelled from the spec: [stringInStrings], membership of a name in a
    list of names. *)
Definition stringInStrings (s : string) (ss : list string) : bool :=
  existsb (String.eqb s) ss.

(** ** Type references, arguments and fields *)

(** Modelled from the spec: [GetKinds], the kinds along the wrapping chain,
    outermost first; its last entry is the leaf ("effective") kind. *)
Fixpoint GetKinds (r : TypeRef) : list Kind :=
  match r with
  | mkTypeRef _ k o =>
      k :: match o with
           | Some r' => GetKinds r'
           | None => []
           end
  end.

(** Modelled from the spec: [GetTypeName], the name carried by the leaf of
    the chain, which identifies the target type. *)
Fixpoint GetTypeName (r : TypeRef) : string :=
  match r with
  | mkTypeRef n _ o =>
      match o with
      | Some r' => GetTypeName r'
      | None => n
      end
  end.

(** Modelled from the spec: an argument is required when its type is
    NON_NULL at the top level and it has no default value. *)
Definition IsRequired (a : Argument) : bool :=
  match tr_Kind (a_Type a), a_DefaultValue a with
  | KindNonNull, None => true
  | _, _ => false
  end.

(** Modelled from the spec: [HasRequiredArg], some argument is required. *)
Definition HasRequiredArg (f : Field) : bool := existsb IsRequired (f_Args f).

(** ** The registry *)

Definition deref (s : Schema) (p : ptr) : option SchemaType :=
  match Types s !! p with
  | Some (Some t) => Some t
  | _ => None
  end.

Fixpoint findType (typeName : string) (l : list (option SchemaType)) (i : ptr)
  : option ptr :=
  match l with
  | [] => None
  | Some t :: rest =>
      if String.eqb (t_Name t) typeName then Some i
      else findType typeName rest (S i)
  | None :: rest => findType typeName rest (S i)
  end.

(** Modelled from the spec: [LookupTypeByName], exact-match lookup over the
    loaded types; total; the result is the shared reference, not a copy. *)
Definition LookupTypeByName (s : Schema) (typeName : string) : result ptr :=
  match findType typeName (Types s) 0 with
  | Some p => Ok p
  | None => Err (NotFound typeName)
  end.

(** The pointer half of a Go [(ptr, err)] pair: nil beside an error. *)
Definition ptr_of (r : result ptr) : option ptr :=
  match r with
  | Ok p => Some p
  | Err _ => None
  end.

(** ** [sort.SliceStable] by field name *)

(** The comparison of the source: [t.Fields[i].Name < t.Fields[j].Name],
    byte-wise. *)
Definition less (a b : Field) : bool := String.ltb (f_Name a) (f_Name b).

Fixpoint insertField (x : Field) (l : list Field) : list Field :=
  match l with
  | [] => [x]
  | y :: l' => if less y x then y :: insertField x l' else x :: y :: l'
  end.

(** A stable sort has one possible result; it is computed here by stable
    insertion from the right. *)
Fixpoint SliceStable (l : list Field) : list Field :=
  match l with
  | [] => []
  | x :: l' => insertField x (SliceStable l')
  end.

Definition withFields (t : SchemaType) (fs : list Field) : SchemaType :=
  mkType (t_Name t) (t_Description t) (t_Kind t) (t_EnumValues t) fs
         (t_InputFields t) (t_Interfaces t) (t_PossibleTypes t) (t_SkipFields t).

(** The write done through [t] by the in-place sort of [t.Fields]. *)
Definition storeFields (s : Schema) (p : ptr) (t : SchemaType) (fs : list Field)
  : Schema :=
  mkSchema (<[p := Some (withFields t fs)]> (Types s)).

(** ** Type expansion (schema_util.go)

    Nothing here writes through a [*Type], so a non-nil [*Type] is
    represented by the record it points to. *)

(** [typeNameInTypes]: is a name already present in a set of TypeInfo. *)
Fixpoint typeNameInTypes (s : string) (types : list TypeInfo) : bool :=
  match types with
  | [] => false
  | t :: rest => if String.eqb (ti_Name t) s then true else typeNameInTypes s rest
  end.

(** [hasType]: is a Type already present in a slice of Type objects. *)
Fixpoint hasType (t : SchemaType) (types : list SchemaType) : bool :=
  match types with
  | [] => false
  | tt_ :: rest => if String.eqb (t_Name t) (t_Name tt_) then true else hasType t rest
  end.

(** [result, err := s.LookupTypeByName(name)] read as the pointer [result]:
    the record found, or nil beside the error. *)
Definition lookupResult (s : Schema) (typeName : string) : option SchemaType :=
  match ptr_of (LookupTypeByName s typeName) with
  | Some p => deref s p
  | None => None
  end.

(** One of the two loops of [ExpandType]: the fields whose type has an
    [OfType] are looked up by the name under it; a miss is logged and
    skipped. *)
Fixpoint collectNested (s : Schema) (fields : list Field) (f : list SchemaType)
  : list SchemaType :=
  match fields with
  | [] => f
  | i :: rest =>
      match tr_OfType (f_Type i) with
      | Some ofType =>
          match lookupResult s (GetTypeName ofType) with
          | Some result => collectNested s rest (f ++ [result])
          | None => collectNested s rest f
          end
      | None => collectNested s rest f
      end
  end.

Definition ExpandType (s : option Schema) (t : option SchemaType)
  : result (list SchemaType) :=
  match s with
  | None => Err (Errorf "unable to expand type from nil schema")
  | Some s =>
      match t with
      | None => Err (Errorf "unable to expand nil type")
      | Some t =>
          let f := collectNested s (t_InputFields t) [] in
          let f := collectNested s (t_Fields t) f in
          Ok f
      end
  end.

(** The inner loop of [ExpandTypes]: append the types not yet present. *)
Fixpoint appendUnique (fieldTypes : list SchemaType) (expandedTypes : list SchemaType)
  : list SchemaType :=
  match fieldTypes with
  | [] => expandedTypes
  | f :: rest =>
      if negb (hasType f expandedTypes) then appendUnique rest (expandedTypes ++ [f])
      else appendUnique rest expandedTypes
  end.

Section Expansion.

(** [formatGoName] is not part of the sources at hand; the expansion is
    stated for any such formatting of names. *)
Variable formatGoName : string -> string.

(** [GetName]: the name of a Type, formatted for Go title casing. *)
Definition GetName (t : SchemaType) : string := formatGoName (t_Name t).

(** The scan of [s.Types] in [ExpandTypes].  [*fieldTypes] is a nil
    dereference when [ExpandType] fails. *)
Fixpoint expandLoop (s : Schema) (types : list TypeInfo)
         (schemaTypes : list (option SchemaType)) (expandedTypes : list SchemaType)
  : run (list SchemaType) :=
  match schemaTypes with
  | [] => Done expandedTypes
  | None :: rest => expandLoop s types rest expandedTypes
  | Some schemaType :: rest =>
      if typeNameInTypes (GetName schemaType) types then
        let expandedTypes := expandedTypes ++ [schemaType] in
        match ExpandType (Some s) (Some schemaType) with
        | Err _ => Panic
        | Ok fieldTypes =>
            expandLoop s types rest (appendUnique fieldTypes expandedTypes)
        end
      else expandLoop s types rest expandedTypes
  end.

Definition ExpandTypes (s : option Schema) (types : list TypeInfo)
  : run (result (list SchemaType)) :=
  match s with
  | None => Done (Err (Errorf "unable to expand types from nil schema"))
  | Some s =>
      match expandLoop s types (Types s) [] with
      | Done expandedTypes => Done (Ok expandedTypes)
      | Panic => Panic
      | OutOfFuel => OutOfFuel
      end
  end.

End Expansion.

(** ** Selection-set synthesis ([GetQueryStringFields])

    The method recurses through object fields and possible types; the loops
    below take the recursive call as [rec] and the method ties the knot on
    the fuel.  The loops run over the sorted fields read at their start: a
    nested call can only sort the same array again, which leaves a sorted
    array as it is. *)

Definition Rec : Type := Schema -> option ptr -> run (string * Schema).

(** The lines appended for an object or interface field. *)
Definition fieldBlock (name : string) (lastKind : Kind) (subTLines : list string)
  : list string :=
  [name +:+ " {"]
    ++ (match lastKind with KindInterface => [tab +:+ "__typename"] | _ => [] end)
    ++ map tabbed subTLines
    ++ ["}"].

(** The lines appended for a possible type: the fields already expressed on
    the parent are skipped. *)
Definition fragmentBlock (name : string) (parentFieldNames : list string)
           (possibleTLines : list string) : list string :=
  ["... on " +:+ name +:+ " {"; tab +:+ "__typename"]
    ++ map tabbed
         (List.filter (fun b => negb (stringInStrings b parentFieldNames))
                      possibleTLines)
    ++ ["}"].

Section Synthesis.

Variable rec : Rec.
(** [depth] is the incremented depth of the running call. *)
Variables (depth maxDepth : Z) (isMutation : bool) (excludeFields : list string).

(** [for _, field := range t.Fields]. *)
Fixpoint fieldsLoop (fields : list Field) (s : Schema)
         (lines parentFieldNames : list string)
  : run (Schema * list string * list string) :=
  match fields with
  | [] => Done (s, lines, parentFieldNames)
  | field :: rest =>
      if negb isMutation && HasRequiredArg field then
        fieldsLoop rest s lines parentFieldNames
      else if stringInStrings (f_Name field) excludeFields then
        fieldsLoop rest s lines parentFieldNames
      else
        let kinds := GetKinds (f_Type field) in
        match kinds !! (List.length kinds - 1) with
        | None => Panic
        | Some lastKind =>
            match lastKind with
            | KindObject | KindInterface =>
                if (depth >? maxDepth)%Z then
                  fieldsLoop rest s lines parentFieldNames
                else
                  let typeName := GetTypeName (f_Type field) in
                  match LookupTypeByName s typeName with
                  | Err _ => fieldsLoop rest s lines parentFieldNames
                  | Ok subT =>
                      match rec s (Some subT) with
                      | Done (subTContent, s') =>
                          let subTLines := Split subTContent in
                          if String.eqb subTContent "" || Nat.ltb (List.length subTLines) 1 then
                            fieldsLoop rest s' lines parentFieldNames
                          else
                            fieldsLoop rest s'
                              (lines ++ fieldBlock (f_Name field) lastKind subTLines)
                              parentFieldNames
                      | Panic => Panic
                      | OutOfFuel => OutOfFuel
                      end
                  end
            | _ =>
                fieldsLoop rest s (lines ++ [f_Name field])
                           (parentFieldNames ++ [f_Name field])
            end
        end
  end.

(** [for _, possibleType := range t.PossibleTypes]: a failed lookup is
    logged and the nil [possibleT] is used all the same. *)
Fixpoint possibleLoop (possibleTypes : list TypeRef) (s : Schema)
         (lines parentFieldNames : list string)
  : run (Schema * list string) :=
  match possibleTypes with
  | [] => Done (s, lines)
  | possibleType :: rest =>
      let possibleT := ptr_of (LookupTypeByName s (tr_Name possibleType)) in
      match rec s possibleT with
      | Done (possibleTContent, s') =>
          let possibleTLines := Split possibleTContent in
          possibleLoop rest s'
            (lines ++ fragmentBlock (tr_Name possibleType) parentFieldNames possibleTLines)
            parentFieldNames
      | Panic => Panic
      | OutOfFuel => OutOfFuel
      end
  end.

End Synthesis.

(** The body of the method; [rec] is the method itself, one call deeper.
    Reading [t.Fields] through a nil [t] panics. *)
Definition body (rec : Z -> Rec) (s : Schema) (t : option ptr)
           (depth maxDepth : Z) (isMutation : bool) (excludeFields : list string)
  : run (string * Schema) :=
  match t with
  | None => Panic
  | Some p =>
      match deref s p with
      | None => Panic
      | Some T =>
          let depth := int_incr depth in
          let fields := SliceStable (t_Fields T) in
          let s := storeFields s p T fields in
          match fieldsLoop (rec depth) depth maxDepth isMutation excludeFields
                           fields s [] [] with
          | Done (s, lines, parentFieldNames) =>
              match possibleLoop (rec depth) (t_PossibleTypes T) s
                                 lines parentFieldNames with
              | Done (s, lines) => Done (Join lines, s)
              | Panic => Panic
              | OutOfFuel => OutOfFuel
              end
          | Panic => Panic
          | OutOfFuel => OutOfFuel
          end
      end
  end.

Fixpoint GetQueryStringFields (fuel : nat) (s : Schema) (t : option ptr)
         (depth maxDepth : Z) (isMutation : bool) (excludeFields : list string)
  : run (string * Schema) :=
  match fuel with
  | O => OutOfFuel
  | S fuel' =>
      body (fun d s' t' =>
              GetQueryStringFields fuel' s' t' d maxDepth isMutation excludeFields)
           s t depth maxDepth isMutation excludeFields
  end.

(** ** [GetField]

    The loop returns [&f], the address of its own copy of the field: the
    caller gets a field of its own, here the value.  Reading [t.Fields]
    through a nil [t] panics. *)

Fixpoint findField (name : string) (fields : list Field) : option Field :=
  match fields with
  | [] => None
  | f :: rest => if String.eqb (f_Name f) name then Some f else findField name rest
  end.

Definition GetField (t : option SchemaType) (name : string) : run (result Field) :=
  match t with
  | None => Panic
  | Some t =>
      match findField name (t_Fields t) with
      | Some f => Done (Ok f)
      | None => Done (Err (Errorf ("field '" +:+ name +:+ "' not found")))
      end
  end.

(** ** The lookups of generate.go

    [config.GeneratorConfig] and [generator.Generator] are declared outside
    the sources at hand; the lookups are stated for any such types, a
    configuration being known by its [Name]. *)

Section Generators.

Variable GeneratorConfig : Type.
Variable gc_Name : GeneratorConfig -> string.
Variable Generator : Type.

(** [getGeneratorConfigByName]: the configuration from the given set, or an
    error. *)
Fixpoint getGeneratorConfigByName (name : string) (matchSet : list GeneratorConfig)
  : result GeneratorConfig :=
  match matchSet with
  | [] => Err (Errorf ("no generatorConfig with name " +:+ name +:+ " found"))
  | g :: rest =>
      if String.eqb (gc_Name g) name then Ok g
      else getGeneratorConfigByName name rest
  end.

(** The loop of [getGeneratorByName] over the entries of the map, in the
    order in which the runtime happens to hand them out. *)
Fixpoint generatorLoop (name : string) (entries : list (string * Generator))
  : result Generator :=
  match entries with
  | [] => Err (Errorf ("no generator named " +:+ name +:+ " found"))
  | (n, g) :: rest =>
      if String.eqb n name then Ok g else generatorLoop name rest
  end.

(** An order in which [for n, g := range matchSet] may visit the map. *)
Definition iteration (matchSet : gmap string Generator)
           (entries : list (string * Generator)) : Prop :=
  Permutation entries (map_to_list matchSet).

End Generators.


(** ** The animals of the specification's scenario *)

Definition named (k : Kind) (n : string) : TypeRef := mkTypeRef n k None.
Definition nonNull (r : TypeRef) : TypeRef := mkTypeRef "" KindNonNull (Some r).
Definition scalarField (n ty : string) : Field :=
  mkField n "" (named KindScalar ty) [].
Definition objectField (n ty : string) : Field :=
  mkField n "" (named KindObject ty) [].

Definition object (n : string) (fields : list Field) : SchemaType :=
  mkType n "" KindObject [] fields [] [] [] [].

Definition Animal : SchemaType :=
  mkType "Animal" "" KindInterface []
         [scalarField "name" "String"; scalarField "age" "Int"] [] []
         [named KindObject "Dog"; named KindObject "Cat"] [].
Definition Dog : SchemaType :=
  object "Dog" [scalarField "name" "String"; scalarField "age" "Int";
                scalarField "breed" "String"].
Definition Cat : SchemaType :=
  object "Cat" [scalarField "name" "String"; scalarField "age" "Int";
                scalarField "indoor" "Boolean"].
Definition animals : Schema := mkSchema [Some Animal; Some Dog; Some Cat].


(** ** Further registries used below *)

Definition union (n : string) (possibleTypes : list TypeRef) : SchemaType :=
  mkType n "" KindUnion [] [] [] [] possibleTypes [].

(** One type whose fields are declared out of order. *)
Definition Shelf : SchemaType :=
  object "Shelf" [scalarField "width" "Int"; scalarField "height" "Int"].
Definition shelves : Schema := mkSchema [Some Shelf].

(** A union with a possible type that the registry does not hold. *)
Definition Pet : SchemaType := union "Pet" [named KindObject "Ghost"].
Definition pets : Schema := mkSchema [Some Pet].

(** A union whose possible type resolves, but whose own possible type does
    not. *)
Definition Owner : SchemaType := union "Owner" [named KindUnion "Pet"].
Definition owners : Schema := mkSchema [Some Owner; Some Pet].

(** The widgets of the specification's scenario: [widget: Widget] and
    [part: Part] as bare named types, and as the non-null [Widget!] and
    [Part!]. *)
Definition requiredField (n ty : string) : Field :=
  mkField n "" (nonNull (named KindObject ty)) [].

Definition Part : SchemaType := object "Part" [].
Definition Widget : SchemaType := object "Widget" [objectField "part" "Part"].
Definition Query : SchemaType := object "Query" [objectField "widget" "Widget"].
Definition widgets : Schema := mkSchema [Some Query; Some Widget; Some Part].

Definition WidgetNN : SchemaType := object "Widget" [requiredField "part" "Part"].
Definition QueryNN : SchemaType := object "Query" [requiredField "widget" "Widget"].
Definition widgetsNN : Schema := mkSchema [Some QueryNN; Some WidgetNN; Some Part].

(** Two root types, the first with a field of the second's type. *)
Definition Artist : SchemaType := object "Artist" [].
Definition Album : SchemaType := object "Album" [requiredField "artist" "Artist"].
Definition albums : Schema := mkSchema [Some Album; Some Artist].

(** A room with a shelf: an object field over scalar fields. *)
Definition Room : SchemaType :=
  object "Room" [objectField "shelf" "Shelf"; scalarField "name" "String"].
Definition rooms : Schema := mkSchema [Some Room; Some Shelf].

(** A mutation whose only field takes a required argument. *)
Definition createField : Field :=
  mkField "create" "" (named KindScalar "String")
          [mkArgument "name" (nonNull (named KindScalar "String")) None].
Definition Mutation : SchemaType := object "Mutation" [createField].
Definition mutations : Schema := mkSchema [Some Mutation].

(** A rank for the animals: the interface above its possible types. *)
Definition animalRank (p : ptr) : nat :=
  match p with
  | O => 1
  | S _ => 0
  end.

(** A union that lists itself among its possible types. *)
Definition Knot : SchemaType := union "Knot" [named KindUnion "Knot"].
Definition knots : Schema := mkSchema [Some Knot].

(** ** Predicates of the specification *)

(** *** What a run may change in the registry *)

Definition sortedType (T : SchemaType) : SchemaType :=
  withFields T (SliceStable (t_Fields T)).

(** An entry of [s.Types] after a run: as it was, or with its fields left
    sorted. *)
Inductive entry_evolves : option SchemaType -> option SchemaType -> Prop :=
| entry_same (o : option SchemaType) : entry_evolves o o
| entry_sorted (T : SchemaType) : entry_evolves (Some T) (Some (sortedType T)).

Definition evolves (s s' : Schema) : Prop :=
  Forall2 entry_evolves (Types s) (Types s').

(** *** Roots and their one-hop neighbours *)

Section ExpansionPredicates.

Variable formatGoName : string -> string.

(** [T] is a type of the registry that the root descriptors name. *)
Definition is_root (s : Schema) (types : list TypeInfo) (T : SchemaType) : Prop :=
  In (Some T) (Types s) /\ typeNameInTypes (GetName formatGoName T) types = true.

End ExpansionPredicates.

(** [T] is what the registry resolves for a field or input field of [R]
    whose type reference wraps another. *)
Definition one_hop (s : Schema) (R T : SchemaType) : Prop :=
  exists i ofType,
    In i (t_InputFields R ++ t_Fields R) /\
    tr_OfType (f_Type i) = Some ofType /\
    lookupResult s (GetTypeName ofType) = Some T.


(** *** Names *)

Definition is_letter (c : ascii) : bool :=
  let n := nat_of_ascii c in
  (Nat.leb 65 n && Nat.leb n 90) || (Nat.leb 97 n && Nat.leb n 122) || Nat.eqb n 95.

Definition is_digit (c : ascii) : bool :=
  let n := nat_of_ascii c in Nat.leb 48 n && Nat.leb n 57.

Fixpoint name_tail (s : string) : bool :=
  match s with
  | EmptyString => true
  | String c r => (is_letter c || is_digit c) && name_tail r
  end.

(** A GraphQL name: a letter or underscore, then letters, digits and
    underscores. *)
Definition valid_name (s : string) : bool :=
  match s with
  | EmptyString => false
  | String c r => is_letter c && name_tail r
  end.

Definition type_names_ok (T : SchemaType) : bool :=
  forallb (fun f => valid_name (f_Name f)) (t_Fields T)
  && forallb (fun r => valid_name (tr_Name r)) (t_PossibleTypes T).

(** Every field and possible type of the registry bears a GraphQL name. *)
Definition names_ok (s : Schema) : bool :=
  forallb (fun o => match o with Some T => type_names_ok T | None => true end)
          (Types s).

(** *** The lines of a selection text *)

Fixpoint no_nl (l : string) : bool :=
  match l with
  | EmptyString => true
  | String c r => negb (Ascii.eqb c nl) && no_nl r
  end.

Definition indented (l : string) : bool :=
  match l with
  | String c _ => Ascii.eqb c (ascii_of_nat 9)
  | EmptyString => false
  end.

Fixpoint strip_tabs (l : string) : string :=
  match l with
  | String c r => if Ascii.eqb c (ascii_of_nat 9) then strip_tabs r else l
  | EmptyString => EmptyString
  end.

(** The line ends in an opening brace. *)
Fixpoint opens (l : string) : bool :=
  match l with
  | EmptyString => false
  | String c EmptyString => Ascii.eqb c "{"%char
  | String _ r => opens r
  end.

(** The line is a closing brace, at any indentation. *)
Definition closes (l : string) : bool := String.eqb (strip_tabs l) "}".

(** The line opens an inline fragment. *)
Definition is_fragment (l : string) : bool := String.prefix "... on " (strip_tabs l).

(** Every line that opens a block is followed by a line of that block: one
    that is indented and is not the closing brace. *)
Fixpoint openers_ok (ls : list string) : bool :=
  match ls with
  | [] => true
  | a :: rest =>
      (if opens a then
         match rest with
         | b :: _ => indented b && negb (closes b)
         | [] => false
         end
       else true)
      && openers_ok rest
  end.

Definition count_fields (open : list bool) : nat :=
  List.length (List.filter (fun b => b) open).

(** The deepest nesting of field blocks met while reading the lines;
    [open] records, innermost first, whether each open block is a field's
    (and not a fragment's). *)
Fixpoint fieldDepth (open : list bool) (ls : list string) : nat :=
  match ls with
  | [] => 0
  | l :: rest =>
      if closes l then fieldDepth (tl open) rest
      else if opens l then
        let open' := negb (is_fragment l) :: open in
        Nat.max (count_fields open') (fieldDepth open' rest)
      else fieldDepth open rest
  end.

Definition nesting (out : string) : nat := fieldDepth [] (Split out).

(** The opening lines of an inline fragment on [name]. *)
Definition fragmentHead (name : string) : list string :=
  ["... on " +:+ name +:+ " {"; tab +:+ "__typename"].

(** [blocks] are inline fragments, one per possible type and in their
    order, each starting with the type discriminator. *)
Definition fragments_for (possibleTypes : list TypeRef) (blocks : list (list string))
  : Prop :=
  Forall2 (fun pt blk => exists inner, blk = fragmentHead (tr_Name pt) ++ inner ++ ["}"])
          possibleTypes blocks.

(** The first line, if any, is not a closing brace. *)
Definition head_ok (ls : list string) : Prop :=
  match ls with
  | a :: _ => closes a = false
  | [] => True
  end.

(** Read in any context, the lines [ls] close the blocks they open and add
    at most [b] levels of field blocks to those already open. *)
Definition Bounded (b : nat) (ls : list string) : Prop :=
  forall open rest,
    fieldDepth open (ls ++ rest)
    <= Nat.max (count_fields open + b) (fieldDepth open rest).

(** Neighbours are in order: the second is never below the first. *)
Fixpoint ordered (l : list Field) : Prop :=
  match l with
  | a :: ((b :: _) as rest) => less b a = false /\ ordered rest
  | _ => True
  end.


(** A line as a call on a type writes them: one of a nested block, a
    closing brace, the opening of a fragment, or the selection of one of the
    type's own fields [names], bare or opening a block. *)
Definition own_line (names : list string) (l : string) : Prop :=
  indented l = true \/ l = "}" \/ (exists x, l = "... on " +:+ x +:+ " {") \/
  exists n, In n names /\ (l = n \/ l = n +:+ " {").

(** The names of the fields that a query may select: those without a
    required argument. *)
Definition selectable (T : SchemaType) : list string :=
  map f_Name (List.filter (fun g => negb (HasRequiredArg g)) (t_Fields T)).


(** *** Possible types that resolve, along a well-founded order *)

Definition possibles_ranked (rank : ptr -> nat) (s : Schema) : bool :=
  forallb
    (fun p =>
       match deref s p with
       | Some T =>
           forallb (fun pt =>
                      match LookupTypeByName s (tr_Name pt) with
                      | Ok q => Nat.ltb (rank q) (rank p)
                      | Err _ => false
                      end)
                   (t_PossibleTypes T)
       | None => true
       end)
    (seq 0 (List.length (Types s))).

Definition maxRank (rank : ptr -> nat) (s : Schema) : nat :=
  list_max (map rank (seq 0 (List.length (Types s)))).

(** Every possible type of every type resolves, to a type of lower rank. *)
Definition ranked (rank : ptr -> nat) (s : Schema) : Prop :=
  forall p T pt,
    deref s p = Some T -> In pt (t_PossibleTypes T) ->
    exists q, LookupTypeByName s (tr_Name pt) = Ok q /\ rank q < rank p.


(** Nested calls that suffice for a call entered at [depth] on [p]. *)
Definition fuelBound (rank : ptr -> nat) (s : Schema) (p : ptr) (depth maxDepth : Z)
  : nat :=
  Z.to_nat (maxDepth - depth) * S (maxRank rank s) + rank p + 1.

(** *** Further predicates on expansion *)

(** What [ExpandType] takes from one field: the type resolved under the
    wrapper of its reference, if there is a wrapper and the name resolves. *)
Definition resolveWrapped (s : Schema) (i : Field) : option SchemaType :=
  match tr_OfType (f_Type i) with
  | Some ofType => lookupResult s (GetTypeName ofType)
  | None => None
  end.

(** The records of the registry, nil entries left out. *)
Definition records (s : Schema) : list SchemaType := omap (fun o => o) (Types s).


(** *** Further predicates on synthesis *)

(** The field passes the two tests at the head of the loop: it is not left
    out for a required argument and it is not excluded. *)
Definition selected (isMutation : bool) (excludeFields : list string) (f : Field)
  : bool :=
  negb (negb isMutation && HasRequiredArg f)
  && negb (stringInStrings (f_Name f) excludeFields).

(** The leaf kind of the field's type is neither object nor interface. *)
Definition leafKind (f : Field) : bool :=
  match GetKinds (f_Type f) !! (List.length (GetKinds (f_Type f)) - 1) with
  | Some KindObject | Some KindInterface => false
  | _ => true
  end.

(** No line of [ls] selects the name [n], bare or opening a block, at any
    indentation. *)
Definition never_selects (n : string) (ls : list string) : Prop :=
  Forall (fun l => strip_tabs l <> n /\ strip_tabs l <> n +:+ " {") ls.


(** Two registries that differ at most in the stored order of the fields
    of their types, fields of one name keeping their order: sorting their
    types gives the same records. *)
Inductive entry_alike : option SchemaType -> option SchemaType -> Prop :=
| alike_nil : entry_alike None None
| alike_sorted (T1 T2 : SchemaType) :
    sortedType T1 = sortedType T2 -> entry_alike (Some T1) (Some T2).

Definition alike (s1 s2 : Schema) : Prop :=
  Forall2 entry_alike (Types s1) (Types s2).

(** Two runs end alike: both panic, both want fuel, or both return, with
    results that [R] relates. *)
Definition run_rel {A : Type} (R : A -> A -> Prop) (r1 r2 : run A) : Prop :=
  match r1, r2 with
  | Done a, Done b => R a b
  | Panic, Panic => True
  | OutOfFuel, OutOfFuel => True
  | _, _ => False
  end.

(** The same text, over registries that are alike. *)
Definition same_selection (a b : string * Schema) : Prop :=
  fst a = fst b /\ alike (snd a) (snd b).


(** The number of tabs at the head of a line. *)
Fixpoint tabs (l : string) : nat :=
  match l with
  | String c r => if Ascii.eqb c (ascii_of_nat 9) then S (tabs r) else 0
  | EmptyString => 0
  end.

(** Reading the lines with [d] blocks open: a closing brace closes the
    innermost block and stands at the indentation of its opening line; any
    other line is indented by one tab for each open block; a line ending in an
    opening brace opens a block.  The result is the number of blocks left
    open, or [None] when a line is out of place. *)
Fixpoint layout (d : nat) (ls : list string) : option nat :=
  match ls with
  | [] => Some d
  | l :: rest =>
      if closes l then
        match d with
        | S d' => if Nat.eqb (tabs l) d' then layout d' rest else None
        | O => None
        end
      else if Nat.eqb (tabs l) d then
        if opens l then layout (S d) rest else layout d rest
      else None
  end.

(** A fragment on [name] whose lines, inside the braces and one tab in, are
    [inner]. *)
Definition fragmentOf (name : string) (inner : list string) : list string :=
  fragmentHead name ++ map tabbed inner ++ ["}"].


(** Every possible type of every type of the registry resolves. *)
Definition possibles_resolve (s : Schema) : bool :=
  forallb
    (fun p =>
       match deref s p with
       | Some T =>
           forallb (fun pt =>
                      match LookupTypeByName s (tr_Name pt) with
                      | Ok _ => true
                      | Err _ => false
                      end)
                   (t_PossibleTypes T)
       | None => true
       end)
    (seq 0 (List.length (Types s))).

(** The same, as a statement. *)
Definition resolving (s : Schema) : Prop :=
  forall p T pt,
    deref s p = Some T -> In pt (t_PossibleTypes T) ->
    exists q, LookupTypeByName s (tr_Name pt) = Ok q.


(** *** Fields that a query may select, anywhere in the registry *)

(** A town with a house that can be searched: an object field over a type
    with a field that takes a required argument. *)
Definition findField_ : Field :=
  mkField "find" "" (named KindScalar "String")
          [mkArgument "id" (nonNull (named KindScalar "ID")) None].
Definition House : SchemaType :=
  object "House" [findField_; scalarField "name" "String"].
Definition Town : SchemaType := object "Town" [objectField "house" "House"].
Definition towns : Schema := mkSchema [Some Town; Some House].

(** Some type of the registry has a field named [n] without a required
    argument. *)
Definition selectableName (s : Schema) (n : string) : Prop :=
  exists p T f,
    deref s p = Some T /\ In f (t_Fields T) /\
    HasRequiredArg f = false /\ f_Name f = n.

(** A line as a query writes them at any depth: once its tabs are taken
    off it is empty, a closing brace, the type discriminator, the opening of a
    fragment, or the selection, bare or opening a block, of a name that some
    field without a required argument bears. *)
Definition query_line (s : Schema) (l : string) : Prop :=
  strip_tabs l = "" \/ strip_tabs l = "}" \/ strip_tabs l = "__typename" \/
  (exists x, strip_tabs l = "... on " +:+ x +:+ " {") \/
  exists n, selectableName s n /\ (strip_tabs l = n \/ strip_tabs l = n +:+ " {").


(** *** The registry as a query sees it *)

(** A type without its fields that take a required argument. *)
Definition withoutRequired (T : SchemaType) : SchemaType :=
  withFields T (List.filter (fun f => negb (HasRequiredArg f)) (t_Fields T)).

(** The registry with those fields taken out of every type. *)
Definition queryView (s : Schema) : Schema :=
  mkSchema (map (option_map withoutRequired) (Types s)).

(** The end of a run, the registry it leaves seen that way. *)
Definition viewed (r : run (string * Schema)) : run (string * Schema) :=
  match r with
  | Done (out, s') => Done (out, queryView s')
  | Panic => Panic
  | OutOfFuel => OutOfFuel
  end.


(** * Properties *)

(** ** The stable sort *)

Lemma less_asym (a b : Field) : less a b = true -> less b a = false.
Proof.
  unfold less, String.ltb. rewrite (String.compare_antisym (f_Name a) (f_Name b)).
  destruct (String.compare (f_Name b) (f_Name a)); simpl; congruence.
Qed.

Lemma insertField_head (x : Field) (l : list Field) :
  match insertField x l with
  | h :: _ => h = x \/ exists l', l = h :: l' /\ less h x = true
  | [] => False
  end.
Proof.
  destruct l as [|y l']; simpl; [now left|].
  destruct (less y x) eqn:E; [right; eauto | now left].
Qed.

Lemma insertField_ordered (x : Field) (l : list Field) :
  ordered l -> ordered (insertField x l).
Proof.
  induction l as [|y l IH]; simpl; intros Hl; [exact I|].
  destruct (less y x) eqn:E.
  - assert (Hrest : ordered l) by (destruct l; [exact I | apply Hl]).
    specialize (IH Hrest).
    pose proof (insertField_head x l) as Hh.
    destruct (insertField x l) as [|h t] eqn:Ei; [contradiction|].
    simpl. split; [|exact IH].
    destruct Hh as [-> | (l' & -> & _)]; [now apply less_asym | apply Hl].
  - simpl. split; [exact E | exact Hl].
Qed.

Lemma SliceStable_ordered (l : list Field) : ordered (SliceStable l).
Proof.
  induction l as [|x l IH]; simpl; [exact I | now apply insertField_ordered].
Qed.

Lemma SliceStable_fixes_ordered (l : list Field) : ordered l -> SliceStable l = l.
Proof.
  induction l as [|x l IH]; simpl; intros Hl; [reflexivity|].
  destruct l as [|y l']; [reflexivity|].
  destruct Hl as [Hxy Hrest]. rewrite (IH Hrest). simpl. now rewrite Hxy.
Qed.

Lemma SliceStable_idempotent (l : list Field) :
  SliceStable (SliceStable l) = SliceStable l.
Proof. apply SliceStable_fixes_ordered, SliceStable_ordered. Qed.

Lemma insertField_In (x y : Field) (l : list Field) :
  In y (insertField x l) <-> y = x \/ In y l.
Proof.
  induction l as [|z l IH]; simpl; [intuition congruence|].
  destruct (less z x); simpl; rewrite ?IH; intuition congruence.
Qed.

Lemma SliceStable_In (y : Field) (l : list Field) :
  In y (SliceStable l) <-> In y l.
Proof.
  induction l as [|x l IH]; simpl; [tauto|].
  rewrite insertField_In, IH. intuition congruence.
Qed.

Lemma forallb_SliceStable (f : Field -> bool) (l : list Field) :
  forallb f (SliceStable l) = forallb f l.
Proof.
  apply eq_true_iff_eq. rewrite !forallb_forall.
  split; intros H x Hx; apply H; now apply SliceStable_In.
Qed.

Lemma sortedType_idempotent (T : SchemaType) : sortedType (sortedType T) = sortedType T.
Proof. unfold sortedType, withFields; simpl. now rewrite SliceStable_idempotent. Qed.

(** ** The registry under the writes of a run *)

Lemma entry_evolves_trans (a b c : option SchemaType) :
  entry_evolves a b -> entry_evolves b c -> entry_evolves a c.
Proof.
  intros Hab Hbc. inversion Hab; subst; [exact Hbc|].
  inversion Hbc; subst; [exact Hab|].
  rewrite sortedType_idempotent. constructor.
Qed.

Lemma evolves_refl (s : Schema) : evolves s s.
Proof. unfold evolves. induction (Types s); constructor; [constructor | assumption]. Qed.

Lemma evolves_trans (s1 s2 s3 : Schema) :
  evolves s1 s2 -> evolves s2 s3 -> evolves s1 s3.
Proof.
  unfold evolves. generalize (Types s1) (Types s2) (Types s3).
  intros l1 l2 l3 H12. revert l3.
  induction H12; intros l3 H23; inversion H23; subst; constructor.
  - eapply entry_evolves_trans; eassumption.
  - now apply IHForall2.
Qed.

Lemma evolves_storeFields (s : Schema) (p : ptr) (T : SchemaType) :
  deref s p = Some T ->
  evolves s (storeFields s p T (SliceStable (t_Fields T))).
Proof.
  unfold evolves, deref, storeFields; simpl.
  generalize (Types s). intros l. revert p.
  induction l as [|o l IH]; intros p Hp; [constructor|].
  destruct p as [|p]; simpl in *.
  - destruct o as [T'|]; [|discriminate]. injection Hp as ->.
    constructor; [apply entry_sorted|].
    clear. induction l; constructor; [constructor | assumption].
  - constructor; [constructor | now apply IH].
Qed.

Lemma evolves_deref (s s' : Schema) (p : ptr) :
  evolves s s' ->
  match deref s p with
  | Some T => deref s' p = Some T \/ deref s' p = Some (sortedType T)
  | None => deref s' p = None
  end.
Proof.
  unfold evolves, deref. generalize (Types s) (Types s'). intros l l' H. revert p.
  induction H as [|o o' l l' Ho _ IH]; intros p; [now destruct p|].
  destruct p as [|p]; simpl; [|apply IH].
  inversion Ho; subst; [destruct o'; auto | auto].
Qed.

Lemma evolves_findType (name : string) (l l' : list (option SchemaType)) (i : ptr) :
  Forall2 entry_evolves l l' -> findType name l' i = findType name l i.
Proof.
  intros H. revert i. induction H as [|o o' l l' Ho _ IH]; intros i; [reflexivity|].
  inversion Ho; subst; simpl; [destruct o'|]; rewrite ?IH; reflexivity.
Qed.

Lemma evolves_Lookup (s s' : Schema) (name : string) :
  evolves s s' -> LookupTypeByName s' name = LookupTypeByName s name.
Proof. intros H. unfold LookupTypeByName. now rewrite (evolves_findType name _ _ 0 H). Qed.

Lemma evolves_length (s s' : Schema) :
  evolves s s' -> List.length (Types s') = List.length (Types s).
Proof. intros H. symmetry. exact (Forall2_length _ _ _ H). Qed.

Lemma type_names_ok_sorted (T : SchemaType) :
  type_names_ok (sortedType T) = type_names_ok T.
Proof. unfold type_names_ok; simpl. now rewrite forallb_SliceStable. Qed.

Lemma evolves_names_ok (s s' : Schema) :
  evolves s s' -> names_ok s = true -> names_ok s' = true.
Proof.
  unfold evolves, names_ok. generalize (Types s) (Types s'). intros l l' H.
  induction H as [|o o' l l' Ho _ IH]; simpl; [auto|].
  rewrite !andb_true_iff. intros [H1 H2]. split; [|auto].
  inversion Ho; subst; [assumption|]. now rewrite type_names_ok_sorted.
Qed.

Lemma names_ok_deref (s : Schema) (p : ptr) (T : SchemaType) :
  names_ok s = true -> deref s p = Some T -> type_names_ok T = true.
Proof.
  unfold names_ok, deref. rewrite forallb_forall. intros H Hp.
  destruct (Types s !! p) as [[T'|]|] eqn:E; try discriminate.
  injection Hp as ->. apply (H (Some T)).
  apply list_elem_of_In. eapply list_elem_of_lookup_2; eassumption.
Qed.

(** ** Reasoning along the two loops *)

Lemma Split_nonempty (s : string) : Split s <> [].
Proof.
  destruct s as [|c r]; simpl; [discriminate|].
  destruct (Ascii.eqb c nl); [discriminate|]. destruct (Split r); discriminate.
Qed.

Lemma Split_length (s : string) : Nat.ltb (List.length (Split s)) 1 = false.
Proof.
  pose proof (Split_nonempty s). destruct (Split s); [congruence | reflexivity].
Qed.

Lemma GetKinds_last (r : TypeRef) :
  exists k, GetKinds r !! (List.length (GetKinds r) - 1) = Some k.
Proof.
  destruct r as [n k o]. simpl. rewrite Nat.sub_0_r.
  apply lookup_lt_is_Some_2. simpl. lia.
Qed.

Section FieldsLoopInvariant.

Variables (rec : Rec) (depth maxDepth : Z) (isMutation : bool).
Variable excludeFields : list string.
Variable Inv : Schema -> list string -> list string -> Prop.
Variable fields0 : list Field.

Hypothesis Inv_leaf :
  forall s L pfn field,
    In field fields0 ->
    negb isMutation && HasRequiredArg field = false ->
    stringInStrings (f_Name field) excludeFields = false ->
    Inv s L pfn -> Inv s (L ++ [f_Name field]) (pfn ++ [f_Name field]).

Hypothesis Inv_sub :
  forall s L pfn field k q c s',
    In field fields0 ->
    negb isMutation && HasRequiredArg field = false ->
    stringInStrings (f_Name field) excludeFields = false ->
    (depth <= maxDepth)%Z ->
    LookupTypeByName s (GetTypeName (f_Type field)) = Ok q ->
    rec s (Some q) = Done (c, s') ->
    Inv s L pfn ->
    Inv s' (if String.eqb c "" then L else L ++ fieldBlock (f_Name field) k (Split c)) pfn.

Lemma fieldsLoop_invariant (fields : list Field) :
  incl fields fields0 ->
  forall s L pfn s' L' pfn',
    Inv s L pfn ->
    fieldsLoop rec depth maxDepth isMutation excludeFields fields s L pfn
    = Done (s', L', pfn') ->
    Inv s' L' pfn'.
Proof.
  induction fields as [|field rest IH]; intros Hin s L pfn s' L' pfn' HI Hrun.
  - simpl in Hrun. now inversion Hrun; subst.
  - assert (Hf : In field fields0) by (apply Hin; now left).
    assert (Hrest : incl rest fields0) by (intros x Hx; apply Hin; now right).
    specialize (IH Hrest). simpl in Hrun.
    destruct (negb isMutation && HasRequiredArg field) eqn:Ereq; [eauto|].
    destruct (stringInStrings (f_Name field) excludeFields) eqn:Eex; [eauto|].
    destruct (GetKinds (f_Type field) !! (List.length (GetKinds (f_Type field)) - 1))
      as [k|] eqn:Ek; [|discriminate].
    assert (Hleaf : forall r,
               fieldsLoop rec depth maxDepth isMutation excludeFields rest s
                          (L ++ [f_Name field]) (pfn ++ [f_Name field]) = r ->
               r = Done (s', L', pfn') -> Inv s' L' pfn').
    { intros r <- Hr. eapply IH; [|exact Hr]. now apply Inv_leaf. }
    assert (Hobj : forall r,
               (if (depth >? maxDepth)%Z then
                  fieldsLoop rec depth maxDepth isMutation excludeFields rest s L pfn
                else
                  match LookupTypeByName s (GetTypeName (f_Type field)) with
                  | Err _ =>
                      fieldsLoop rec depth maxDepth isMutation excludeFields rest s L pfn
                  | Ok subT =>
                      match rec s (Some subT) with
                      | Done (subTContent, s'0) =>
                          if String.eqb subTContent ""
                             || Nat.ltb (List.length (Split subTContent)) 1
                          then fieldsLoop rec depth maxDepth isMutation excludeFields
                                          rest s'0 L pfn
                          else fieldsLoop rec depth maxDepth isMutation excludeFields
                                          rest s'0
                                          (L ++ fieldBlock (f_Name field) k
                                             (Split subTContent)) pfn
                      | Panic => Panic
                      | OutOfFuel => OutOfFuel
                      end
                  end) = r ->
               r = Done (s', L', pfn') -> Inv s' L' pfn').
    { intros r <- Hr.
      remember (depth >? maxDepth)%Z as g eqn:Ed in Hr. destruct g; [eauto|].
      assert (Ed' : (depth <= maxDepth)%Z) by lia.
      destruct (LookupTypeByName s (GetTypeName (f_Type field))) as [q|e] eqn:El;
        [|eauto].
      destruct (rec s (Some q)) as [[c s1]| |] eqn:Er; try discriminate.
      pose proof (Inv_sub s L pfn field k q c s1 Hf Ereq Eex Ed' El Er HI) as HI'.
      rewrite Split_length, orb_false_r in Hr.
      destruct (String.eqb c ""); eauto. }
    destruct k; eauto.
Qed.

End FieldsLoopInvariant.

Section PossibleLoopInvariant.

Variable rec : Rec.
Variable Inv : Schema -> list string -> Prop.
Variable possibleTypes0 : list TypeRef.
Variable parentFieldNames : list string.

Hypothesis Inv_fragment :
  forall s L pt c s',
    In pt possibleTypes0 ->
    rec s (ptr_of (LookupTypeByName s (tr_Name pt))) = Done (c, s') ->
    Inv s L ->
    Inv s' (L ++ fragmentBlock (tr_Name pt) parentFieldNames (Split c)).

Lemma possibleLoop_invariant (possibleTypes : list TypeRef) :
  incl possibleTypes possibleTypes0 ->
  forall s L s' L',
    Inv s L ->
    possibleLoop rec possibleTypes s L parentFieldNames = Done (s', L') ->
    Inv s' L'.
Proof.
  induction possibleTypes as [|pt rest IH]; intros Hin s L s' L' HI Hrun.
  - simpl in Hrun. now inversion Hrun; subst.
  - simpl in Hrun.
    destruct (rec s (ptr_of (LookupTypeByName s (tr_Name pt)))) as [[c s1]| |] eqn:Er;
      try discriminate.
    eapply IH; [|eapply Inv_fragment; [|exact Er|exact HI]|exact Hrun].
    + intros x Hx. apply Hin. now right.
    + apply Hin. now left.
Qed.

End PossibleLoopInvariant.

(** What a returning call went through. *)
Lemma body_Done (rec : Z -> Rec) (s : Schema) (t : option ptr) (depth maxDepth : Z)
      (isMutation : bool) (excludeFields : list string) (out : string) (s' : Schema) :
  body rec s t depth maxDepth isMutation excludeFields = Done (out, s') ->
  exists p T s1 L1 pfn L2,
    t = Some p /\ deref s p = Some T /\
    fieldsLoop (rec (int_incr depth)) (int_incr depth) maxDepth isMutation excludeFields
               (SliceStable (t_Fields T))
               (storeFields s p T (SliceStable (t_Fields T))) [] []
    = Done (s1, L1, pfn) /\
    possibleLoop (rec (int_incr depth)) (t_PossibleTypes T) s1 L1 pfn = Done (s', L2) /\
    out = Join L2.
Proof.
  unfold body. destruct t as [p|]; [|discriminate].
  destruct (deref s p) as [T|] eqn:ET; [|discriminate].
  destruct (fieldsLoop _ _ _ _ _ _ _ _ _) as [[[s1 L1] pfn]| |] eqn:EF; try discriminate.
  destruct (possibleLoop _ _ _ _ _) as [[s2 L2]| |] eqn:EP; try discriminate.
  intros H. inversion H; subst. exists p, T, s1, L1, pfn, L2. auto.
Qed.

Lemma GetQueryStringFields_S (fuel : nat) (s : Schema) (t : option ptr)
      (depth maxDepth : Z) (isMutation : bool) (excludeFields : list string) :
  GetQueryStringFields (S fuel) s t depth maxDepth isMutation excludeFields
  = body (fun d s' t' =>
            GetQueryStringFields fuel s' t' d maxDepth isMutation excludeFields)
         s t depth maxDepth isMutation excludeFields.
Proof. reflexivity. Qed.

(** ** What a run leaves in the registry *)

Lemma GetQueryStringFields_evolves (fuel : nat) :
  forall s t depth maxDepth isMutation excludeFields out s',
    GetQueryStringFields fuel s t depth maxDepth isMutation excludeFields
    = Done (out, s') ->
    evolves s s'.
Proof.
  induction fuel as [|fuel IH]; intros s t depth maxDepth isMutation excludeFields out s' H;
    [discriminate|].
  rewrite GetQueryStringFields_S in H. apply body_Done in H.
  destruct H as (p & T & s1 & L1 & pfn & L2 & -> & HT & HF & HP & ->).
  eapply evolves_trans; [eapply evolves_storeFields; exact HT|].
  eapply evolves_trans.
  - eapply (fieldsLoop_invariant _ _ _ _ _
              (fun s2 _ _ => evolves (storeFields s p T (SliceStable (t_Fields T))) s2)
              (SliceStable (t_Fields T)));
      [| |apply incl_refl|apply evolves_refl|exact HF].
    + auto.
    + intros s2 L pfn2 field k q c s3 _ _ _ _ _ Hr Hs2.
      destruct (String.eqb c "");
        (eapply evolves_trans; [exact Hs2|]; eapply IH; exact Hr).
  - eapply (possibleLoop_invariant _ (fun s2 _ => evolves s1 s2) (t_PossibleTypes T));
      [|apply incl_refl|apply evolves_refl|exact HP].
    intros s2 L pt c s3 _ Hr Hs2.
    eapply evolves_trans; [exact Hs2|]. eapply IH; exact Hr.
Qed.

Lemma possibleLoop_Done_each (rec : Rec) (pfn : list string) :
  (forall s t c s', rec s t = Done (c, s') -> evolves s s') ->
  forall possibleTypes s L s' L',
    possibleLoop rec possibleTypes s L pfn = Done (s', L') ->
    forall pt, In pt possibleTypes ->
               exists s2 c s3,
                 evolves s s2 /\
                 rec s2 (ptr_of (LookupTypeByName s2 (tr_Name pt))) = Done (c, s3).
Proof.
  intros Hrec. induction possibleTypes as [|pt0 rest IH]; intros s L s' L' Hrun pt Hin;
    [contradiction|].
  simpl in Hrun.
  destruct (rec s (ptr_of (LookupTypeByName s (tr_Name pt0)))) as [[c s1]| |] eqn:Er;
    try discriminate.
  destruct Hin as [<- | Hin].
  - exists s, c, s1. split; [apply evolves_refl | exact Er].
  - destruct (IH _ _ _ _ Hrun pt Hin) as (s2 & c2 & s3 & Hev & Hr).
    exists s2, c2, s3. split; [|exact Hr].
    eapply evolves_trans; [eapply Hrec; exact Er | exact Hev].
Qed.

Lemma fieldsLoop_evolves (rec : Rec) (depth maxDepth : Z) (isMutation : bool)
      (excludeFields : list string) :
  (forall s t c s', rec s t = Done (c, s') -> evolves s s') ->
  forall fields s L pfn s' L' pfn',
    fieldsLoop rec depth maxDepth isMutation excludeFields fields s L pfn
    = Done (s', L', pfn') ->
    evolves s s'.
Proof.
  intros Hrec fields s L pfn s' L' pfn' Hrun.
  eapply (fieldsLoop_invariant _ _ _ _ _ (fun s2 _ _ => evolves s s2) fields);
    [| |apply incl_refl|apply evolves_refl|exact Hrun].
  - auto.
  - intros s2 L2 pfn2 field k q c s3 _ _ _ _ _ Hr Hs2.
    destruct (String.eqb c ""); (eapply evolves_trans; [exact Hs2|]; eapply Hrec; exact Hr).
Qed.

(** A call on a type with a possible type that does not resolve never
    returns. *)
Lemma unresolved_possible_type_no_return (fuel : nat) (s : Schema) (p : ptr)
      (T : SchemaType) (pt : TypeRef) (e : error) (depth maxDepth : Z)
      (isMutation : bool) (excludeFields : list string) (out : string) (s' : Schema) :
  deref s p = Some T ->
  In pt (t_PossibleTypes T) ->
  LookupTypeByName s (tr_Name pt) = Err e ->
  GetQueryStringFields fuel s (Some p) depth maxDepth isMutation excludeFields
  <> Done (out, s').
Proof.
  intros HT Hin Hlook Hrun. destruct fuel as [|fuel]; [discriminate|].
  rewrite GetQueryStringFields_S in Hrun. apply body_Done in Hrun.
  destruct Hrun as (p' & T' & s1 & L1 & pfn & L2 & [= <-] & HT' & HF & HP & ->).
  rewrite HT in HT'. injection HT' as <-.
  assert (Hrec : forall s0 t c s0',
             GetQueryStringFields fuel s0 t (int_incr depth) maxDepth isMutation
                                  excludeFields = Done (c, s0') -> evolves s0 s0')
    by (intros; eapply GetQueryStringFields_evolves; eassumption).
  destruct (possibleLoop_Done_each _ _ Hrec _ _ _ _ _ HP pt Hin)
    as (s2 & c & s3 & Hev & Hr).
  assert (Hs : evolves s s2).
  { eapply evolves_trans; [eapply evolves_storeFields; exact HT|].
    eapply evolves_trans; [|exact Hev].
    eapply fieldsLoop_evolves; [exact Hrec | exact HF]. }
  rewrite (evolves_Lookup _ _ _ Hs), Hlook in Hr. simpl in Hr.
  destruct fuel; discriminate.
Qed.

(** ** The claims on synthesis that are settled by running the code *)

(** C6 (the code departs from it): on a type with a possible type that the
    registry does not hold, the lookup error is logged and the nil pointer is
    used as the receiver of the nested call, which panics when it reads its
    fields: for the union [Pet] whose possible type [Ghost] is unknown, every
    call given room for the nested call panics. *)
Theorem unresolved_possible_type_panics :
  forall (fuel : nat) (depth maxDepth : Z) (isMutation : bool)
         (excludeFields : list string),
    GetQueryStringFields (S (S fuel)) pets (Some 0) depth maxDepth isMutation
                         excludeFields
    = Panic.
Proof. intros. reflexivity. Qed.

(** C7, as the code has it: a call that returns leaves every entry of the
    registry either as it was or with its fields stably sorted by name, all
    else in the record unchanged; the type the call was made on is left
    sorted.  The sort is done in place on the shared record and stays. *)
Theorem registry_after_synthesis :
  forall (fuel : nat) (s : Schema) (p : ptr) (depth maxDepth : Z) (isMutation : bool)
         (excludeFields : list string) (out : string) (s' : Schema),
    GetQueryStringFields fuel s (Some p) depth maxDepth isMutation excludeFields
    = Done (out, s') ->
    evolves s s' /\
    exists T, deref s p = Some T /\ deref s' p = Some (sortedType T).
Proof.
  intros fuel s p depth maxDepth isMutation excludeFields out s' Hrun.
  split; [eapply GetQueryStringFields_evolves; exact Hrun|].
  destruct fuel as [|fuel]; [discriminate|].
  rewrite GetQueryStringFields_S in Hrun. apply body_Done in Hrun.
  destruct Hrun as (p' & T & s1 & L1 & pfn & L2 & [= <-] & HT & HF & HP & ->).
  exists T. split; [exact HT|].
  assert (Hrec : forall s0 t c s0',
             GetQueryStringFields fuel s0 t (int_incr depth) maxDepth isMutation
                                  excludeFields = Done (c, s0') -> evolves s0 s0')
    by (intros; eapply GetQueryStringFields_evolves; eassumption).
  assert (Hev : evolves (storeFields s p T (SliceStable (t_Fields T))) s').
  { eapply evolves_trans; [eapply fieldsLoop_evolves; [exact Hrec | exact HF]|].
    eapply (possibleLoop_invariant _ (fun s2 _ => evolves s1 s2) (t_PossibleTypes T));
      [|apply incl_refl|apply evolves_refl|exact HP].
    intros s2 L pt c s3 _ Hr Hs2.
    eapply evolves_trans; [exact Hs2|]. eapply Hrec; exact Hr. }
  assert (Hp : deref (storeFields s p T (SliceStable (t_Fields T))) p
               = Some (sortedType T)).
  { unfold deref, storeFields; simpl. rewrite list_lookup_insert_eq; [reflexivity|].
    unfold deref in HT. destruct (Types s !! p) eqn:E; [|discriminate].
    eapply lookup_lt_Some; exact E. }
  pose proof (evolves_deref _ _ p Hev) as Hd. rewrite Hp in Hd.
  rewrite sortedType_idempotent in Hd. destruct Hd; assumption.
Qed.

Lemma registry_after_synthesis_on_shelves :
  GetQueryStringFields 1 shelves (Some 0) 0 1 false []
  = Done (Join ["height"; "width"], mkSchema [Some (sortedType Shelf)]) /\
  evolves shelves (mkSchema [Some (sortedType Shelf)]) /\
  exists T, deref shelves 0 = Some T /\
            deref (mkSchema [Some (sortedType Shelf)]) 0 = Some (sortedType T).
Proof.
  split; [reflexivity|].
  apply (registry_after_synthesis 1 shelves 0 0 1 false [] (Join ["height"; "width"])).
  reflexivity.
Defined.

(** C7, as stated, fails: after a call on [Shelf], whose fields are declared
    as width, height, the registry holds them as height, width. *)
Lemma synthesis_reorders_registry :
  match GetQueryStringFields 1 shelves (Some 0) 0 1 false [] with
  | Done (_, s') =>
      deref s' 0 <> deref shelves 0 /\
      option_map (fun T => map f_Name (t_Fields T)) (deref s' 0)
      = Some ["height"; "width"]
  | _ => False
  end.
Proof. simpl. split; [discriminate | reflexivity]. Qed.

(** C8, as the code has it: synthesizing [Animal] yields the lines age,
    name, then the fragment on Dog holding __typename and breed, then the
    fragment on Cat holding __typename and indoor: direct fields in
    ascending order, fragments in the declared order of the possible types,
    the parent's fields not repeated in them, and no __typename line at the
    top. *)
Theorem animal_selection :
  forall (fuel : nat) (maxDepth : Z) (isMutation : bool),
    GetQueryStringFields (S (S fuel)) animals (Some 0) 0 maxDepth isMutation []
    = Done (Join ["age"; "name";
                  "... on Dog {"; tab +:+ "__typename"; tab +:+ "breed"; "}";
                  "... on Cat {"; tab +:+ "__typename"; tab +:+ "indoor"; "}"],
            mkSchema [Some (sortedType Animal); Some (sortedType Dog);
                      Some (sortedType Cat)]).
Proof. intros fuel maxDepth [|]; reflexivity. Qed.

(** C8, as stated, fails: the text has no top-level __typename line and the
    fragment on Dog comes before the one on Cat. *)
Lemma animal_selection_differs :
  match GetQueryStringFields 2 animals (Some 0) 0 1 false [] with
  | Done (out, _) =>
      ~ In "__typename" (Split out) /\
      Split out !! 0 = Some "age" /\
      Split out !! 2 = Some "... on Dog {" /\
      Split out !! 6 = Some "... on Cat {"
  | _ => False
  end.
Proof.
  vm_compute. repeat split; try reflexivity.
  intros H. repeat (destruct H as [H|H]; [discriminate|]). exact H.
Qed.

(** ** Type expansion *)

Lemma hasType_names (f : SchemaType) (l : list SchemaType) :
  hasType f l = true <-> In (t_Name f) (map t_Name l).
Proof.
  induction l as [|x l IH]; simpl; [split; [discriminate | contradiction]|].
  destruct (String.eqb_spec (t_Name f) (t_Name x)) as [E|E].
  - split; auto.
  - rewrite IH. split; [auto | intros [H|H]; [congruence | exact H]].
Qed.

Lemma collectNested_In (s : Schema) (T : SchemaType) (fields : list Field) :
  forall f,
    In T (collectNested s fields f) <->
    In T f \/
    exists i ofType, In i fields /\ tr_OfType (f_Type i) = Some ofType /\
                     lookupResult s (GetTypeName ofType) = Some T.
Proof.
  induction fields as [|i rest IH]; intros f; simpl.
  - split; [auto | intros [H | (i & o & [] & _)]; exact H].
  - destruct (tr_OfType (f_Type i)) as [o|] eqn:Eo.
    + destruct (lookupResult s (GetTypeName o)) as [R|] eqn:El; rewrite IH.
      * rewrite in_app_iff. simpl. split.
        -- intros [[H|[->|[]]] | (j & o' & Hj & Ho & Hl)];
             [left; exact H | right; exists i, o; auto | right; exists j, o'; auto].
        -- intros [H | (j & o' & [<-|Hj] & Ho & Hl)];
             [left; left; exact H | | right; exists j, o'; auto].
           rewrite Eo in Ho. injection Ho as <-. rewrite El in Hl.
           injection Hl as <-. auto.
      * split.
        -- intros [H | (j & o' & Hj & Ho & Hl)];
             [left; exact H | right; exists j, o'; auto].
        -- intros [H | (j & o' & [<-|Hj] & Ho & Hl)];
             [left; exact H | | right; exists j, o'; auto].
           rewrite Eo in Ho. injection Ho as <-. congruence.
    + rewrite IH. split.
      * intros [H | (j & o' & Hj & Ho & Hl)];
          [left; exact H | right; exists j, o'; auto].
      * intros [H | (j & o' & [<-|Hj] & Ho & Hl)];
          [left; exact H | congruence | right; exists j, o'; auto].
Qed.

Lemma ExpandType_one_hop (s : Schema) (R : SchemaType) :
  exists fs, ExpandType (Some s) (Some R) = Ok fs /\
             forall T, In T fs <-> one_hop s R T.
Proof.
  eexists. split; [reflexivity|]. intros T. unfold one_hop.
  rewrite collectNested_In, collectNested_In. simpl. split.
  - intros [[[] | (i & o & Hi & H)] | (i & o & Hi & H)];
      exists i, o; rewrite in_app_iff; auto.
  - intros (i & o & Hi & H). rewrite in_app_iff in Hi.
    destruct Hi; [left; right | right]; eauto.
Qed.

Lemma appendUnique_In (fs : list SchemaType) :
  forall acc,
    (forall T, In T acc -> In T (appendUnique fs acc)) /\
    (forall T, In T fs -> In (t_Name T) (map t_Name (appendUnique fs acc))) /\
    (forall T, In T (appendUnique fs acc) -> In T acc \/ In T fs).
Proof.
  induction fs as [|f rest IH]; intros acc; simpl.
  - repeat split; auto. contradiction.
  - destruct (hasType f acc) eqn:Eh; simpl.
    + destruct (IH acc) as (H1 & H2 & H3). repeat split; auto.
      * intros T [<-|HT]; [|auto].
        apply hasType_names in Eh. rewrite in_map_iff in Eh |- *.
        destruct Eh as (x & Hx & Hin). exists x. auto.
      * intros T HT. destruct (H3 T HT); auto.
    + destruct (IH (acc ++ [f])) as (H1 & H2 & H3). repeat split.
      * intros T HT. apply H1. rewrite in_app_iff. auto.
      * intros T [<-|HT]; [|auto].
        apply in_map, H1. rewrite in_app_iff. simpl. auto.
      * intros T HT. destruct (H3 T HT) as [H|H]; [|auto].
        rewrite in_app_iff in H. simpl in H. intuition.
Qed.

Section ExpansionProofs.

Variable formatGoName : string -> string.

Lemma expandLoop_spec (s : Schema) (types : list TypeInfo)
      (l : list (option SchemaType)) :
  forall acc,
  exists out,
    expandLoop formatGoName s types l acc = Done out /\
    (forall T, In T acc -> In T out) /\
    (forall T, In (Some T) l ->
               typeNameInTypes (GetName formatGoName T) types = true -> In T out) /\
    (forall R T, In (Some R) l ->
                 typeNameInTypes (GetName formatGoName R) types = true ->
                 one_hop s R T -> In (t_Name T) (map t_Name out)) /\
    (forall T, In T out ->
               In T acc \/
               (In (Some T) l /\ typeNameInTypes (GetName formatGoName T) types = true) \/
               exists R, In (Some R) l /\
                         typeNameInTypes (GetName formatGoName R) types = true /\
                         one_hop s R T).
Proof.
  induction l as [|o l IH]; intros acc; cbn [expandLoop].
  - exists acc. repeat split; auto; try contradiction.
  - destruct o as [R|].
    + destruct (typeNameInTypes (GetName formatGoName R) types) eqn:Em.
      * destruct (ExpandType_one_hop s R) as (fs & -> & Hfs).
        destruct (appendUnique_In fs (acc ++ [R])) as (A1 & A2 & A3).
        destruct (IH (appendUnique fs (acc ++ [R]))) as (out & -> & H1 & H2 & H3 & H4).
        exists out. split; [reflexivity|]. repeat split.
        -- intros T HT. apply H1, A1. rewrite in_app_iff. auto.
        -- intros T [[= <-]|HT] Hm; [|auto].
           apply H1, A1. rewrite in_app_iff. simpl. auto.
        -- intros R' T [[= <-]|HR] Hm Hop; [|eauto].
           apply Hfs, (A2 T) in Hop. rewrite in_map_iff in Hop |- *.
           destruct Hop as (x & Hx & Hin). exists x. auto.
        -- intros T HT. destruct (H4 T HT) as [H|[[H Hm]|(R' & HR & Hm & Hop)]].
           ++ destruct (A3 T H) as [H'|H'].
              ** rewrite in_app_iff in H'. simpl in H'.
                 destruct H' as [H'|[<-|[]]]; [now left|].
                 right. left. split; [now left | exact Em].
              ** right. right. exists R. rewrite <- Hfs. repeat split; auto. now left.
           ++ right. left. split; [now right | exact Hm].
           ++ right. right. exists R'. repeat split; auto. now right.
      * destruct (IH acc) as (out & -> & H1 & H2 & H3 & H4).
        exists out. split; [reflexivity|]. repeat split; auto.
        -- intros T [[= <-]|HT] Hm; [congruence | auto].
        -- intros R' T [[= <-]|HR] Hm Hop; [congruence | eauto].
        -- intros T HT. destruct (H4 T HT) as [H|[[H Hm]|(R' & HR & Hm & Hop)]].
           ++ now left.
           ++ right. left. split; [now right | exact Hm].
           ++ right. right. exists R'. repeat split; auto. now right.
    + destruct (IH acc) as (out & -> & H1 & H2 & H3 & H4).
      exists out. split; [reflexivity|]. repeat split; auto.
      * intros T [[=]|HT] Hm; auto.
      * intros R' T [[=]|HR] Hm Hop; eauto.
      * intros T HT. destruct (H4 T HT) as [H|[[H Hm]|(R' & HR & Hm & Hop)]].
        -- now left.
        -- right. left. split; [now right | exact Hm].
        -- right. right. exists R'. repeat split; auto. now right.
Qed.

End ExpansionProofs.

Lemma ExpandTypes_returns (formatGoName : string -> string) (s : Schema)
      (types : list TypeInfo) :
  exists out, ExpandTypes formatGoName (Some s) types = Done (Ok out).
Proof.
  unfold ExpandTypes.
  destruct (expandLoop_spec formatGoName s types (Types s) []) as (out & -> & _).
  now exists out.
Qed.

Section ExpansionClaims.

Local Arguments String.eqb : simpl never.

(** C1, as the code has it: the output holds the roots found in the
    registry and, one hop from each root, the types resolved from those of
    its fields and input fields whose type reference wraps another one (a
    non-null or a list), and nothing else; a field whose type is a bare named
    type is not followed.  For the root Query with [widget: Widget!], where
    Widget has [part: Part!], the output is Query and Widget and not Part;
    with the bare [widget: Widget] it is Query alone. *)
Theorem expansion_follows_wrapped_fields_one_hop :
  forall formatGoName : string -> string,
    (forall (s : Schema) (types : list TypeInfo),
        exists out,
          ExpandTypes formatGoName (Some s) types = Done (Ok out) /\
          (forall T, is_root formatGoName s types T -> In T out) /\
          (forall R T, is_root formatGoName s types R -> one_hop s R T ->
                       In (t_Name T) (map t_Name out)) /\
          (forall T, In T out ->
                     is_root formatGoName s types T \/
                     exists R, is_root formatGoName s types R /\ one_hop s R T)) /\
    (formatGoName "Query" = "Query" ->
     formatGoName "Widget" <> "Query" ->
     formatGoName "Part" <> "Query" ->
     ExpandTypes formatGoName (Some widgetsNN) [mkTypeInfo "Query"]
     = Done (Ok [QueryNN; WidgetNN]) /\
     ExpandTypes formatGoName (Some widgets) [mkTypeInfo "Query"]
     = Done (Ok [Query])).
Proof.
  intros formatGoName. split.
  - intros s types. unfold ExpandTypes, is_root.
    destruct (expandLoop_spec formatGoName s types (Types s) [])
      as (out & -> & _ & H2 & H3 & H4).
    exists out. split; [reflexivity|]. repeat split.
    + intros T [HT Hm]. auto.
    + intros R T [HR Hm]. eauto.
    + intros T HT. destruct (H4 T HT) as [[]|[H|(R & HR & Hm & Hop)]]; [auto|].
      right. exists R. auto.
  - intros HQ HW HP.
    apply String.eqb_neq in HW, HP. rewrite String.eqb_sym in HW, HP.
    unfold ExpandTypes.
    split; simpl; unfold GetName; simpl; rewrite HQ, HW, HP; reflexivity.
Qed.

Lemma expansion_of_widgets :
  ExpandTypes (fun n => n) (Some widgetsNN) [mkTypeInfo "Query"]
  = Done (Ok [QueryNN; WidgetNN]) /\
  ExpandTypes (fun n => n) (Some widgets) [mkTypeInfo "Query"]
  = Done (Ok [Query]).
Proof.
  apply (proj2 (expansion_follows_wrapped_fields_one_hop (fun n => n)));
    [reflexivity | discriminate | discriminate].
Defined.

(** C1, as stated, fails: the leaf of the type of Query's field [widget:
    Widget] resolves to Widget, yet expanding Query finds nothing and the
    expansion from the root Query is Query alone. *)
Lemma bare_field_is_not_followed :
  lookupResult widgets (GetTypeName (f_Type (objectField "widget" "Widget")))
  = Some Widget /\
  ExpandType (Some widgets) (Some Query) = Ok [] /\
  ExpandTypes (fun n => n) (Some widgets) [mkTypeInfo "Query"] = Done (Ok [Query]) /\
  forall formatGoName : string -> string,
    formatGoName "Query" = "Query" ->
    formatGoName "Widget" <> "Query" ->
    formatGoName "Part" <> "Query" ->
    ExpandTypes formatGoName (Some widgets) [mkTypeInfo "Query"] = Done (Ok [Query]).
Proof.
  repeat split; try reflexivity.
  intros formatGoName HQ HW HP.
  apply String.eqb_neq in HW, HP. rewrite String.eqb_sym in HW, HP.
  unfold ExpandTypes.
  simpl; unfold GetName; simpl; rewrite HQ, HW, HP; reflexivity.
Qed.

(** C5 (the code departs from it): a root is appended without the
    [hasType] test that guards the one-hop types.  With the roots Album and
    Artist, where Album has a field [artist: Artist!], Artist enters the
    output as a neighbour of Album and again as a root. *)
Theorem expansion_repeats_a_root :
  forall formatGoName : string -> string,
  exists out,
    ExpandTypes formatGoName (Some albums)
                [mkTypeInfo (formatGoName "Album"); mkTypeInfo (formatGoName "Artist")]
    = Done (Ok out) /\
    out = [Album; Artist; Artist] /\
    ~ List.NoDup (map t_Name out).
Proof.
  intros formatGoName. exists [Album; Artist; Artist]. repeat split.
  - unfold ExpandTypes. simpl. unfold GetName. simpl.
    rewrite !String.eqb_refl.
    destruct (String.eqb (formatGoName "Album") (formatGoName "Artist")); reflexivity.
  - simpl. intros H. inversion H as [|x l Hnot Hrest]; subst.
    inversion Hrest as [|x l Hnot' _]; subst. apply Hnot'. now left.
Qed.

(** C9: [ExpandType] fails exactly when the schema or the type is nil and
    [ExpandTypes] exactly when the schema is nil; they always return; and a
    field whose type does not resolve is passed over without an error. *)
Theorem expansion_fails_only_on_nil :
  forall formatGoName : string -> string,
    (forall s t, (exists e, ExpandType s t = Err e) <-> (s = None \/ t = None)) /\
    (forall s types,
        (exists e, ExpandTypes formatGoName s types = Done (Err e)) <-> s = None) /\
    (forall s types, exists r, ExpandTypes formatGoName s types = Done r) /\
    (forall s i rest f,
        (forall ofType, tr_OfType (f_Type i) = Some ofType ->
                        lookupResult s (GetTypeName ofType) = None) ->
        collectNested s (i :: rest) f = collectNested s rest f).
Proof.
  intros formatGoName. repeat split.
  - intros [e He]. destruct s; [|now left]. destruct t; [discriminate | now right].
  - intros [-> | ->]; [|destruct s]; simpl; eauto.
  - intros [e He]. destruct s as [s|]; [|reflexivity].
    destruct (ExpandTypes_returns formatGoName s types) as (out & Hout). congruence.
  - intros ->. simpl. eauto.
  - intros s types. destruct s as [s|]; [|simpl; eauto].
    destruct (ExpandTypes_returns formatGoName s types) as (out & ->). eauto.
  - intros s i rest f H. simpl.
    destruct (tr_OfType (f_Type i)) as [o|]; [|reflexivity].
    now rewrite (H o eq_refl).
Qed.

End ExpansionClaims.

(** ** Lines and text *)

Lemma Split_no_nl_app (a r : string) :
  no_nl a = true -> Split (a +:+ String nl r) = a :: Split r.
Proof.
  induction a as [|c a IH]; simpl; intros H; [reflexivity|].
  apply andb_true_iff in H. destruct H as [Hc Ha].
  apply negb_true_iff in Hc. rewrite Hc, (IH Ha). reflexivity.
Qed.

Lemma Split_no_nl (a : string) : no_nl a = true -> Split a = [a].
Proof.
  induction a as [|c a IH]; simpl; intros H; [reflexivity|].
  apply andb_true_iff in H. destruct H as [Hc Ha].
  apply negb_true_iff in Hc. rewrite Hc, (IH Ha). reflexivity.
Qed.

Lemma Split_pieces (s : string) : Forall (fun l => no_nl l = true) (Split s).
Proof.
  induction s as [|c r IH]; simpl; [repeat constructor|].
  destruct (Ascii.eqb c nl) eqn:Ec; [constructor; [reflexivity | exact IH]|].
  destruct (Split r) as [|h tl]; [repeat constructor; simpl; now rewrite Ec|].
  inversion IH; subst. constructor; [simpl; now rewrite Ec | assumption].
Qed.

Lemma Join_cons (a b : string) (rest : list string) :
  Join (a :: b :: rest) = a +:+ String nl (Join (b :: rest)).
Proof. reflexivity. Qed.

Lemma Split_Join (L : list string) :
  Forall (fun l => no_nl l = true) L -> L <> [] -> Split (Join L) = L.
Proof.
  induction L as [|a L IH]; intros HL Hne; [congruence|].
  inversion HL as [|x l Ha HL']; subst.
  destruct L as [|b rest]; [now apply Split_no_nl|].
  rewrite Join_cons, (Split_no_nl_app _ _ Ha), IH; [reflexivity | assumption | discriminate].
Qed.

Lemma Join_empty (L : list string) : Join L = "" -> L = [] \/ L = [""].
Proof.
  destruct L as [|a [|b rest]]; [now left | |].
  - change (Join [a]) with a. intros ->. now right.
  - rewrite Join_cons. destruct a; discriminate.
Qed.

Lemma Join_nonempty (L : list string) (l : string) :
  In l L -> l <> "" -> Join L <> "".
Proof.
  intros Hin Hl HJ. destruct (Join_empty L HJ) as [-> | ->]; [contradiction|].
  destruct Hin as [<-|[]]. congruence.
Qed.

(** *** Characters of names *)

Lemma name_char_plain (c : ascii) :
  is_letter c || is_digit c = true ->
  Ascii.eqb c nl = false /\ Ascii.eqb c (ascii_of_nat 9) = false /\
  Ascii.eqb c "{"%char = false /\ Ascii.eqb c "}"%char = false /\
  Ascii.eqb c "."%char = false.
Proof.
  destruct c as [[|] [|] [|] [|] [|] [|] [|] [|]]; vm_compute;
    intros H; try discriminate H; repeat split.
Qed.

Lemma name_tail_no_nl (r : string) : name_tail r = true -> no_nl r = true.
Proof.
  induction r as [|c r IH]; simpl; [reflexivity|]. intros H.
  apply andb_true_iff in H. destruct H as [Hc Hr].
  destruct (name_char_plain c Hc) as (-> & _). simpl. auto.
Qed.

Lemma name_tail_opens (r : string) : name_tail r = true -> opens r = false.
Proof.
  induction r as [|c r IH]; simpl; [reflexivity|]. intros H.
  apply andb_true_iff in H. destruct H as [Hc Hr].
  destruct r as [|c' r']; [apply (name_char_plain c Hc) | exact (IH Hr)].
Qed.

Lemma valid_name_tail (n : string) : valid_name n = true -> name_tail n = true.
Proof.
  destruct n as [|c r]; simpl; [discriminate|]. intros H.
  apply andb_true_iff in H. destruct H as [Hc Hr]. now rewrite Hc, Hr.
Qed.

Lemma valid_name_head (n : string) :
  valid_name n = true ->
  exists c r, n = String c r /\ is_letter c || is_digit c = true.
Proof.
  destruct n as [|c r]; simpl; [discriminate|]. intros H.
  apply andb_true_iff in H. destruct H as [Hc Hr].
  exists c, r. now rewrite Hc.
Qed.

Lemma valid_no_nl (n : string) : valid_name n = true -> no_nl n = true.
Proof. intros H. now apply name_tail_no_nl, valid_name_tail. Qed.

Lemma valid_opens (n : string) : valid_name n = true -> opens n = false.
Proof. intros H. now apply name_tail_opens, valid_name_tail. Qed.

Lemma valid_indented (n : string) : valid_name n = true -> indented n = false.
Proof.
  intros H. destruct (valid_name_head n H) as (c & r & -> & Hc). simpl.
  apply (name_char_plain c Hc).
Qed.

Lemma valid_strip (n : string) : valid_name n = true -> strip_tabs n = n.
Proof.
  intros H. destruct (valid_name_head n H) as (c & r & -> & Hc). simpl.
  destruct (name_char_plain c Hc) as (_ & -> & _). reflexivity.
Qed.

Lemma valid_closes (n : string) : valid_name n = true -> closes n = false.
Proof.
  intros H. unfold closes. rewrite (valid_strip n H).
  destruct (valid_name_head n H) as (c & r & -> & Hc). simpl.
  destruct (name_char_plain c Hc) as (_ & _ & _ & -> & _). reflexivity.
Qed.

Lemma valid_fragment (n : string) (suffix : string) :
  valid_name n = true -> is_fragment (n +:+ suffix) = false.
Proof.
  intros H. unfold is_fragment.
  destruct (valid_name_head n H) as (c & r & -> & Hc).
  destruct (name_char_plain c Hc) as (_ & Ht & _ & _ & Hdot).
  change (String c r +:+ suffix) with (String c (r +:+ suffix)).
  cbn [strip_tabs]. rewrite Ht. cbn [String.prefix].
  destruct (Ascii.ascii_dec "."%char c) as [<-|Hne]; [discriminate Hdot | reflexivity].
Qed.

(** *** The lines that the method writes *)

Lemma no_nl_app (a b : string) : no_nl (a +:+ b) = no_nl a && no_nl b.
Proof.
  induction a as [|c a IH]; simpl; [reflexivity|]. now rewrite IH, andb_assoc.
Qed.

Lemma opens_app_brace (a : string) : opens (a +:+ " {") = true.
Proof.
  induction a as [|c a IH]; [reflexivity|].
  change (String c a +:+ " {") with (String c (a +:+ " {")).
  destruct (a +:+ " {") eqn:E; [destruct a; discriminate | exact IH].
Qed.

Lemma opens_tabbed (b : string) : opens (tabbed b) = opens b.
Proof. destruct b; reflexivity. Qed.

Lemma closes_tabbed (b : string) : closes (tabbed b) = closes b.
Proof. reflexivity. Qed.

Lemma is_fragment_tabbed (b : string) : is_fragment (tabbed b) = is_fragment b.
Proof. reflexivity. Qed.

Lemma no_nl_tabbed (b : string) : no_nl (tabbed b) = no_nl b.
Proof. reflexivity. Qed.

Lemma opener_no_nl (n : string) : valid_name n = true -> no_nl (n +:+ " {") = true.
Proof. intros H. now rewrite no_nl_app, (valid_no_nl n H). Qed.

Lemma opener_closes (n : string) : valid_name n = true -> closes (n +:+ " {") = false.
Proof.
  intros H. unfold closes.
  destruct (valid_name_head n H) as (c & r & -> & Hc). simpl.
  destruct (name_char_plain c Hc) as (_ & -> & _ & Hb & _). simpl. now rewrite Hb.
Qed.

Lemma fragmentHead_no_nl (n : string) :
  valid_name n = true -> no_nl ("... on " +:+ n +:+ " {") = true.
Proof. intros H. now rewrite !no_nl_app, (valid_no_nl n H). Qed.

Lemma fragmentHead_opens (n : string) : opens ("... on " +:+ n +:+ " {") = true.
Proof.
  pose proof (opens_app_brace n) as H. simpl.
  destruct (n +:+ " {") eqn:E; [discriminate H | exact H].
Qed.

Lemma tabbed_no_nl (L : list string) :
  Forall (fun l => no_nl l = true) L ->
  Forall (fun l => no_nl l = true) (map tabbed L).
Proof. induction 1; simpl; constructor; auto. Qed.

Lemma filter_no_nl (f : string -> bool) (L : list string) :
  Forall (fun l => no_nl l = true) L ->
  Forall (fun l => no_nl l = true) (List.filter f L).
Proof. induction 1; simpl; [constructor|]. destruct (f x); [constructor|]; auto. Qed.

Lemma fieldBlock_no_nl (n : string) (k : Kind) (c : string) :
  valid_name n = true ->
  Forall (fun l => no_nl l = true) (fieldBlock n k (Split c)).
Proof.
  intros H. unfold fieldBlock. repeat (apply Forall_app; split).
  - repeat constructor. now apply opener_no_nl.
  - destruct k; repeat constructor.
  - apply tabbed_no_nl, Split_pieces.
  - repeat constructor.
Qed.

Lemma fragmentBlock_no_nl (n : string) (pfn : list string) (c : string) :
  valid_name n = true ->
  Forall (fun l => no_nl l = true) (fragmentBlock n pfn (Split c)).
Proof.
  intros H. unfold fragmentBlock. repeat (apply Forall_app; split).
  - repeat constructor. now apply fragmentHead_no_nl.
  - apply tabbed_no_nl, filter_no_nl, Split_pieces.
  - repeat constructor.
Qed.

Lemma type_names_ok_fields (T : SchemaType) (f : Field) :
  type_names_ok T = true -> In f (SliceStable (t_Fields T)) ->
  valid_name (f_Name f) = true.
Proof.
  unfold type_names_ok. rewrite andb_true_iff, forallb_forall.
  intros [H _] Hin. apply H. now apply SliceStable_In.
Qed.

Lemma type_names_ok_possible (T : SchemaType) (pt : TypeRef) :
  type_names_ok T = true -> In pt (t_PossibleTypes T) ->
  valid_name (tr_Name pt) = true.
Proof.
  unfold type_names_ok. rewrite andb_true_iff, !forallb_forall.
  intros [_ H] Hin. now apply H.
Qed.

(** ** Induction on the lines of a selection

    A property of line lists that holds of the empty selection, and is kept
    by each of the three ways the method appends lines, holds of the lines
    of every text the method returns.  The property may depend on the fuel
    and on the depth (after increment) of the call that writes the lines. *)

Section LinesInduction.

Variables (maxDepth : Z) (isMutation : bool) (excludeFields : list string).
Variable P : nat -> Z -> list string -> Prop.

Hypothesis P_nil : forall n d, P n d [].
Hypothesis P_blank : forall n d, P n d [""].
Hypothesis P_leaf :
  forall n d L name,
    valid_name name = true -> P n d L -> P n d (L ++ [name]).
Hypothesis P_field :
  forall n d L name k c,
    valid_name name = true -> (d <= maxDepth)%Z -> c <> "" ->
    P (S n) d L -> P n (int_incr d) (Split c) ->
    P (S n) d (L ++ fieldBlock name k (Split c)).
Hypothesis P_fragment :
  forall n d L name pfn c,
    valid_name name = true -> Forall (fun x => valid_name x = true) pfn ->
    P (S n) d L -> P n (int_incr d) (Split c) ->
    P (S n) d (L ++ fragmentBlock name pfn (Split c)).

Lemma selection_lines_ind (fuel : nat) :
  forall s t depth out s',
    names_ok s = true ->
    GetQueryStringFields fuel s t depth maxDepth isMutation excludeFields
    = Done (out, s') ->
    P fuel (int_incr depth) (Split out).
Proof.
  induction fuel as [|n IH]; intros s t depth out s' Hok Hrun; [discriminate|].
  rewrite GetQueryStringFields_S in Hrun. apply body_Done in Hrun.
  destruct Hrun as (p & T & s1 & L1 & pfn & L2 & -> & HT & HF & HP & ->).
  set (d := int_incr depth) in *.
  pose proof (names_ok_deref s p T Hok HT) as HTok.
  assert (Hok0 : names_ok (storeFields s p T (SliceStable (t_Fields T))) = true).
  { eapply evolves_names_ok; [eapply evolves_storeFields; exact HT | exact Hok]. }
  assert (Hrec : forall s0 t0 c s0',
             names_ok s0 = true ->
             GetQueryStringFields n s0 t0 d maxDepth isMutation excludeFields
             = Done (c, s0') ->
             names_ok s0' = true /\ P n (int_incr d) (Split c)).
  { intros s0 t0 c s0' Hs0 Hr. split; [|eapply IH; eassumption].
    eapply evolves_names_ok; [eapply GetQueryStringFields_evolves; exact Hr | exact Hs0]. }
  assert (H1 : names_ok s1 = true /\ P (S n) d L1 /\
               Forall (fun l => no_nl l = true) L1 /\
               Forall (fun x => valid_name x = true) pfn).
  { eapply (fieldsLoop_invariant _ _ _ _ _
              (fun s2 L pfn2 => names_ok s2 = true /\ P (S n) d L /\
                                Forall (fun l => no_nl l = true) L /\
                                Forall (fun x => valid_name x = true) pfn2)
              (SliceStable (t_Fields T)));
      [| |apply incl_refl| |exact HF].
    - intros s2 L pfn2 field Hin _ _ (Hs2 & HPL & HnL & Hpfn).
      pose proof (type_names_ok_fields T field HTok Hin) as Hv.
      repeat split; auto.
      + apply Forall_app. split; [exact HnL|]. repeat constructor. now apply valid_no_nl.
      + apply Forall_app. split; [exact Hpfn|]. now repeat constructor.
    - intros s2 L pfn2 field k q c s3 Hin _ _ Hd _ Hr (Hs2 & HPL & HnL & Hpfn).
      pose proof (type_names_ok_fields T field HTok Hin) as Hv.
      destruct (Hrec _ _ _ _ Hs2 Hr) as [Hs3 HPc].
      destruct (String.eqb_spec c "") as [->|Hc]; [auto|].
      repeat split; auto.
      apply Forall_app. split; [exact HnL | now apply fieldBlock_no_nl].
    - repeat split; auto. }
  destruct H1 as (Hs1 & HP1 & Hn1 & Hpfn).
  assert (H2 : names_ok s' = true /\ P (S n) d L2 /\
               Forall (fun l => no_nl l = true) L2).
  { eapply (possibleLoop_invariant _
              (fun s2 L => names_ok s2 = true /\ P (S n) d L /\
                           Forall (fun l => no_nl l = true) L)
              (t_PossibleTypes T));
      [|apply incl_refl| |exact HP]; [|auto].
    intros s2 L pt c s3 Hin Hr (Hs2 & HPL & HnL).
    pose proof (type_names_ok_possible T pt HTok Hin) as Hv.
    destruct (Hrec _ _ _ _ Hs2 Hr) as [Hs3 HPc].
    repeat split; auto.
    apply Forall_app. split; [exact HnL | now apply fragmentBlock_no_nl]. }
  destruct H2 as (_ & HP2 & Hn2).
  destruct L2 as [|a L2]; [apply P_blank|].
  rewrite Split_Join; [exact HP2 | exact Hn2 | discriminate].
Qed.

End LinesInduction.

(** ** No empty blocks *)

Lemma openers_ok_app (L1 L2 : list string) :
  openers_ok L1 = true -> openers_ok L2 = true -> openers_ok (L1 ++ L2) = true.
Proof.
  induction L1 as [|a L1 IH]; simpl; intros H1 H2; [exact H2|].
  apply andb_true_iff in H1. destruct H1 as [Ha H1].
  rewrite (IH H1 H2), andb_true_r.
  destruct (opens a); [|reflexivity]. destruct L1; [discriminate | exact Ha].
Qed.

Lemma openers_ok_tabbed (L : list string) :
  openers_ok L = true -> openers_ok (map tabbed L) = true.
Proof.
  induction L as [|a L IH]; cbn [map openers_ok]; intros H; [reflexivity|].
  apply andb_true_iff in H. destruct H as [Ha H].
  rewrite (IH H), andb_true_r, opens_tabbed.
  destruct (opens a); [|reflexivity]. destruct L as [|b L]; [discriminate|].
  cbn [map]. change (indented (tabbed b)) with true. rewrite closes_tabbed.
  apply andb_true_iff in Ha. now destruct Ha as [_ ->].
Qed.

Lemma openers_ok_filter (f : string -> bool) (L : list string) :
  (forall b, f b = false -> indented b = false) ->
  openers_ok L = true -> openers_ok (List.filter f L) = true.
Proof.
  intros Hf. induction L as [|a L IH]; simpl; intros H; [reflexivity|].
  apply andb_true_iff in H. destruct H as [Ha H].
  destruct (f a) eqn:Efa; [|now apply IH].
  simpl. rewrite (IH H), andb_true_r.
  destruct (opens a); [|reflexivity]. destruct L as [|b L]; [discriminate|].
  simpl. destruct (f b) eqn:Efb; [exact Ha|].
  rewrite (Hf b Efb) in Ha. discriminate.
Qed.

(** A block: an opening line, then lines that start indented and are
    themselves in order, then the closing brace. *)
Lemma openers_ok_block (o : string) (X : list string) :
  opens o = true -> openers_ok X = true ->
  match X with b :: _ => indented b = true /\ closes b = false | [] => False end ->
  openers_ok (o :: X ++ ["}"]) = true.
Proof.
  intros Ho HX Hhead. simpl. rewrite Ho.
  rewrite (openers_ok_app X ["}"] HX eq_refl), andb_true_r.
  destruct X as [|b X]; [contradiction|]. simpl.
  destruct Hhead as [-> ->]. reflexivity.
Qed.

Lemma stringInStrings_In (b : string) (names : list string) :
  stringInStrings b names = true -> In b names.
Proof.
  unfold stringInStrings. rewrite existsb_exists.
  intros (x & Hx & E). apply String.eqb_eq in E. now subst.
Qed.

Lemma parent_names_plain (pfn : list string) (b : string) :
  Forall (fun x => valid_name x = true) pfn ->
  negb (stringInStrings b pfn) = false -> valid_name b = true.
Proof.
  intros Hpfn Hb. apply negb_false_iff, stringInStrings_In in Hb.
  rewrite List.Forall_forall in Hpfn. now apply Hpfn.
Qed.

Lemma no_empty_block_lines (maxDepth : Z) (isMutation : bool)
      (excludeFields : list string) (fuel : nat) :
  forall s t depth out s',
    names_ok s = true ->
    GetQueryStringFields fuel s t depth maxDepth isMutation excludeFields
    = Done (out, s') ->
    openers_ok (Split out) = true /\ head_ok (Split out).
Proof.
  apply (selection_lines_ind maxDepth isMutation excludeFields
           (fun _ _ L => openers_ok L = true /\ head_ok L)).
  - intros; split; [reflexivity | exact I].
  - intros; split; reflexivity.
  - intros _ _ L name Hv [HL Hh]. split.
    + apply openers_ok_app; [exact HL|]. simpl. now rewrite (valid_opens name Hv).
    + destruct L; simpl; [now apply valid_closes | exact Hh].
  - intros _ _ L name k c Hv _ _ [HL Hh] [Hc Hch]. split.
    + apply openers_ok_app; [exact HL|].
      pose proof (Split_nonempty c) as Hne.
      destruct (Split c) as [|b sub] eqn:Es; [congruence|].
      assert (Hsub : openers_ok (map tabbed (b :: sub)) = true)
        by now apply openers_ok_tabbed.
      unfold fieldBlock.
      destruct k;
        try (apply (openers_ok_block _ (map tabbed (b :: sub)));
             [apply opens_app_brace | exact Hsub | split; [reflexivity | exact Hch]]).
      apply (openers_ok_block _ ((tab +:+ "__typename") :: map tabbed (b :: sub)));
        [apply opens_app_brace | | split; reflexivity].
      change (openers_ok (map tabbed (b :: sub)) = true). exact Hsub.
    + destruct L; simpl; [now apply opener_closes | exact Hh].
  - intros _ _ L name pfn c Hv Hpfn [HL Hh] [Hc Hch]. split.
    + apply openers_ok_app; [exact HL|]. unfold fragmentBlock.
      apply (openers_ok_block _ ((tab +:+ "__typename") :: map tabbed _));
        [apply fragmentHead_opens | | split; reflexivity].
      change (openers_ok
                (map tabbed
                     (List.filter (fun b => negb (stringInStrings b pfn)) (Split c)))
              = true).
      apply openers_ok_tabbed, openers_ok_filter; [|exact Hc].
      intros b Hb. apply valid_indented. now apply (parent_names_plain pfn).
    + destruct L; simpl; [reflexivity | exact Hh].
Qed.

(** C3: in the text of a returning call, over a registry whose fields and
    possible types bear GraphQL names, every line that opens a block is
    followed by a line of that block's content, indented and not the closing
    brace; and a field whose sub-selection is the empty string adds nothing to
    the lines of its parent. *)
Theorem no_empty_blocks :
  (forall (fuel : nat) (s : Schema) (t : option ptr) (depth maxDepth : Z)
          (isMutation : bool) (excludeFields : list string) (out : string)
          (s' : Schema),
      names_ok s = true ->
      GetQueryStringFields fuel s t depth maxDepth isMutation excludeFields
      = Done (out, s') ->
      openers_ok (Split out) = true) /\
  (forall (rec : Rec) (depth maxDepth : Z) (isMutation : bool)
          (excludeFields : list string) (field : Field) (rest : list Field)
          (s s2 : Schema) (lines parentFieldNames : list string) (k : Kind) (q : ptr),
      negb isMutation && HasRequiredArg field = false ->
      stringInStrings (f_Name field) excludeFields = false ->
      GetKinds (f_Type field) !! (List.length (GetKinds (f_Type field)) - 1) = Some k ->
      k = KindObject \/ k = KindInterface ->
      (depth <= maxDepth)%Z ->
      LookupTypeByName s (GetTypeName (f_Type field)) = Ok q ->
      rec s (Some q) = Done ("", s2) ->
      fieldsLoop rec depth maxDepth isMutation excludeFields (field :: rest) s
                 lines parentFieldNames
      = fieldsLoop rec depth maxDepth isMutation excludeFields rest s2
                   lines parentFieldNames).
Proof.
  split.
  - intros fuel s t depth maxDepth isMutation excludeFields out s' Hok Hrun.
    eapply no_empty_block_lines; eassumption.
  - intros rec depth maxDepth isMutation excludeFields field rest s s2 lines pfn k q
           Hreq Hex Hk Hkind Hd Hl Hr.
    cbn [fieldsLoop]. rewrite Hreq, Hex, Hk.
    assert (Hg : (depth >? maxDepth)%Z = false) by lia.
    destruct Hkind as [-> | ->]; rewrite Hg, Hl, Hr; reflexivity.
Qed.

Lemma no_empty_blocks_in_rooms :
  names_ok rooms = true /\
  GetQueryStringFields 2 rooms (Some 0) 0 1 false []
  = Done (Join ["name"; "shelf {"; tab +:+ "height"; tab +:+ "width"; "}"],
          mkSchema [Some (sortedType Room); Some (sortedType Shelf)]) /\
  openers_ok (Split (Join ["name"; "shelf {"; tab +:+ "height"; tab +:+ "width"; "}"]))
  = true.
Proof.
  split; [reflexivity|]. split; [reflexivity|].
  apply (proj1 no_empty_blocks 2 rooms (Some 0) 0%Z 1%Z false []
               (Join ["name"; "shelf {"; tab +:+ "height"; tab +:+ "width"; "}"])
               (mkSchema [Some (sortedType Room); Some (sortedType Shelf)]));
    reflexivity.
Defined.

(** ** The depth bound *)

Lemma fieldDepth_tabbed (L : list string) :
  forall open rest,
    fieldDepth open (map tabbed L ++ rest) = fieldDepth open (L ++ rest).
Proof.
  induction L as [|a L IH]; intros open rest; [reflexivity|].
  cbn [map app fieldDepth].
  rewrite closes_tabbed, opens_tabbed, is_fragment_tabbed, !IH. reflexivity.
Qed.

Lemma fieldDepth_plain (l : string) (open : list bool) (rest : list string) :
  closes l = false -> opens l = false ->
  fieldDepth open (l :: rest) = fieldDepth open rest.
Proof. intros Hc Ho. cbn [fieldDepth]. now rewrite Hc, Ho. Qed.

Lemma fieldDepth_filter (f : string -> bool) (L : list string) :
  (forall b, f b = false -> closes b = false /\ opens b = false) ->
  forall open rest,
    fieldDepth open (List.filter f L ++ rest) = fieldDepth open (L ++ rest).
Proof.
  intros Hf. induction L as [|a L IH]; intros open rest; [reflexivity|].
  cbn [List.filter]. destruct (f a) eqn:Efa.
  - cbn [app fieldDepth]. rewrite !IH. reflexivity.
  - destruct (Hf a Efa) as [Hc Ho].
    change ((a :: L) ++ rest) with (a :: (L ++ rest)).
    rewrite (fieldDepth_plain a _ _ Hc Ho). apply IH.
Qed.

Lemma Bounded_nil (b : nat) : Bounded b [].
Proof. intros open rest. simpl. lia. Qed.

Lemma Bounded_plain (b : nat) (l : string) :
  closes l = false -> opens l = false -> Bounded b [l].
Proof.
  intros Hc Ho open rest. change ([l] ++ rest) with (l :: rest).
  rewrite (fieldDepth_plain l _ _ Hc Ho). lia.
Qed.

Lemma Bounded_app (b : nat) (L1 L2 : list string) :
  Bounded b L1 -> Bounded b L2 -> Bounded b (L1 ++ L2).
Proof.
  intros H1 H2 open rest. rewrite <- app_assoc.
  specialize (H1 open (L2 ++ rest)). specialize (H2 open rest). lia.
Qed.

Lemma Bounded_mono (b b' : nat) (L : list string) :
  b <= b' -> Bounded b L -> Bounded b' L.
Proof. intros Hb H open rest. specialize (H open rest). lia. Qed.

Lemma Bounded_tabbed (b : nat) (L : list string) :
  Bounded b L -> Bounded b (map tabbed L).
Proof. intros H open rest. rewrite fieldDepth_tabbed. apply H. Qed.

Lemma Bounded_filter (b : nat) (f : string -> bool) (L : list string) :
  (forall x, f x = false -> closes x = false /\ opens x = false) ->
  Bounded b L -> Bounded b (List.filter f L).
Proof. intros Hf H open rest. rewrite (fieldDepth_filter f L Hf). apply H. Qed.

(** A field's block adds one level to what it holds. *)
Lemma Bounded_field_block (b : nat) (o : string) (X : list string) :
  closes o = false -> opens o = true -> is_fragment o = false ->
  Bounded b X -> Bounded (S b) (o :: X ++ ["}"]).
Proof.
  intros Hc Ho Hf HX open rest.
  change ((o :: X ++ ["}"]) ++ rest) with (o :: ((X ++ ["}"]) ++ rest)).
  rewrite <- app_assoc. cbn [fieldDepth]. rewrite Hc, Ho, Hf. cbn [negb].
  specialize (HX (true :: open) (["}"] ++ rest)).
  change (fieldDepth (true :: open) (["}"] ++ rest)) with (fieldDepth open rest) in HX.
  change (count_fields (true :: open)) with (S (count_fields open)) in *.
  lia.
Qed.

(** A fragment's block adds none. *)
Lemma Bounded_fragment_block (b : nat) (o : string) (X : list string) :
  closes o = false -> opens o = true -> is_fragment o = true ->
  Bounded b X -> Bounded b (o :: X ++ ["}"]).
Proof.
  intros Hc Ho Hf HX open rest.
  change ((o :: X ++ ["}"]) ++ rest) with (o :: ((X ++ ["}"]) ++ rest)).
  rewrite <- app_assoc. cbn [fieldDepth]. rewrite Hc, Ho, Hf. cbn [negb].
  specialize (HX (false :: open) (["}"] ++ rest)).
  change (fieldDepth (false :: open) (["}"] ++ rest)) with (fieldDepth open rest) in HX.
  change (count_fields (false :: open)) with (count_fields open) in *.
  lia.
Qed.

Lemma fragmentHead_closes (n : string) : closes ("... on " +:+ n +:+ " {") = false.
Proof. reflexivity. Qed.

Lemma fragmentHead_is_fragment (n : string) :
  is_fragment ("... on " +:+ n +:+ " {") = true.
Proof. unfold is_fragment. simpl. now destruct ("" +:+ n +:+ " {"). Qed.

Lemma int_incr_plain (d : Z) : (d < max_int)%Z -> int_incr d = (d + 1)%Z.
Proof. intros H. unfold int_incr. destruct (Z.eqb_spec d max_int); [lia | reflexivity]. Qed.

Lemma nesting_bounded_lines (maxDepth : Z) (isMutation : bool)
      (excludeFields : list string) (fuel : nat) :
  forall s t depth out s',
    names_ok s = true ->
    GetQueryStringFields fuel s t depth maxDepth isMutation excludeFields
    = Done (out, s') ->
    (int_incr depth + Z.of_nat fuel <= max_int)%Z ->
    Bounded (Z.to_nat (maxDepth - int_incr depth + 1)) (Split out).
Proof.
  apply (selection_lines_ind maxDepth isMutation excludeFields
           (fun n d L => (d + Z.of_nat n <= max_int)%Z ->
                         Bounded (Z.to_nat (maxDepth - d + 1)) L)).
  - intros; apply Bounded_nil.
  - intros; now apply Bounded_plain.
  - intros n d L name Hv HL Hd. apply Bounded_app; [now apply HL|].
    apply Bounded_plain; [now apply valid_closes | now apply valid_opens].
  - intros n d L name k c Hv Hle _ HL Hc Hd.
    assert (Hi : int_incr d = (d + 1)%Z) by (apply int_incr_plain; lia).
    rewrite Hi in Hc.
    assert (Hsub : Bounded (Z.to_nat (maxDepth - d)) (map tabbed (Split c))).
    { apply Bounded_tabbed.
      replace (maxDepth - d)%Z with (maxDepth - (d + 1) + 1)%Z by lia.
      apply Hc. lia. }
    apply Bounded_app; [now apply HL|].
    replace (Z.to_nat (maxDepth - d + 1)) with (S (Z.to_nat (maxDepth - d))) by lia.
    unfold fieldBlock.
    assert (Ho : forall X, Bounded (Z.to_nat (maxDepth - d)) X ->
                           Bounded (S (Z.to_nat (maxDepth - d)))
                                   ((name +:+ " {") :: X ++ ["}"])).
    { intros X HX. apply Bounded_field_block;
        [now apply opener_closes | apply opens_app_brace | now apply valid_fragment
        | exact HX]. }
    destruct k;
      first [ exact (Ho _ Hsub)
            | apply (Ho ((tab +:+ "__typename") :: map tabbed (Split c)));
              apply (Bounded_app _ [tab +:+ "__typename"]);
              [now apply Bounded_plain | exact Hsub] ].
  - intros n d L name pfn c Hv Hpfn HL Hc Hd.
    assert (Hi : int_incr d = (d + 1)%Z) by (apply int_incr_plain; lia).
    rewrite Hi in Hc.
    apply Bounded_app; [now apply HL|]. unfold fragmentBlock.
    apply (Bounded_fragment_block _ _ ((tab +:+ "__typename") :: map tabbed _));
      [apply fragmentHead_closes | apply fragmentHead_opens
      | apply fragmentHead_is_fragment |].
    apply (Bounded_app _ [tab +:+ "__typename"]); [now apply Bounded_plain|].
    apply Bounded_tabbed, Bounded_filter.
    + intros x Hx. pose proof (parent_names_plain pfn x Hpfn Hx) as Hvx.
      split; [now apply valid_closes | now apply valid_opens].
    + eapply Bounded_mono; [|apply Hc; lia]. lia.
Qed.

(** C2: in the text of a returning call, over a registry whose fields and
    possible types bear GraphQL names and short of overflowing the depth
    counter, field blocks are nested at most [maxDepth - depth] deep, so at
    most [maxDepth] deep from a depth that is not negative; and an object or
    interface field met when the incremented depth exceeds [maxDepth] adds
    nothing to the lines. *)
Theorem nesting_within_max_depth :
  (forall (fuel : nat) (s : Schema) (t : option ptr) (depth maxDepth : Z)
          (isMutation : bool) (excludeFields : list string) (out : string)
          (s' : Schema),
      names_ok s = true ->
      (depth + Z.of_nat fuel < max_int)%Z ->
      GetQueryStringFields fuel s t depth maxDepth isMutation excludeFields
      = Done (out, s') ->
      nesting out <= Z.to_nat (maxDepth - depth) /\
      ((0 <= depth)%Z -> nesting out <= Z.to_nat maxDepth)) /\
  (forall (rec : Rec) (depth maxDepth : Z) (isMutation : bool)
          (excludeFields : list string) (field : Field) (rest : list Field)
          (s : Schema) (lines parentFieldNames : list string) (k : Kind),
      GetKinds (f_Type field) !! (List.length (GetKinds (f_Type field)) - 1) = Some k ->
      k = KindObject \/ k = KindInterface ->
      (depth > maxDepth)%Z ->
      fieldsLoop rec depth maxDepth isMutation excludeFields (field :: rest) s
                 lines parentFieldNames
      = fieldsLoop rec depth maxDepth isMutation excludeFields rest s
                   lines parentFieldNames).
Proof.
  split.
  - intros fuel s t depth maxDepth isMutation excludeFields out s' Hok Hd Hrun.
    assert (Hi : int_incr depth = (depth + 1)%Z) by (apply int_incr_plain; lia).
    pose proof (nesting_bounded_lines maxDepth isMutation excludeFields fuel
                  s t depth out s' Hok Hrun) as HB.
    rewrite Hi in HB. specialize (HB ltac:(lia)).
    specialize (HB [] []). rewrite app_nil_r in HB. simpl in HB.
    unfold nesting. lia.
  - intros rec depth maxDepth isMutation excludeFields field rest s lines pfn k
           Hk Hkind Hd.
    cbn [fieldsLoop]. rewrite Hk.
    assert (Hg : (depth >? maxDepth)%Z = true) by lia.
    destruct (negb isMutation && HasRequiredArg field); [reflexivity|].
    destruct (stringInStrings (f_Name field) excludeFields); [reflexivity|].
    destruct Hkind as [-> | ->]; rewrite Hg; reflexivity.
Qed.

Lemma nesting_in_rooms :
  names_ok rooms = true /\
  (0 + Z.of_nat 2 < max_int)%Z /\
  GetQueryStringFields 2 rooms (Some 0) 0 1 false []
  = Done (Join ["name"; "shelf {"; tab +:+ "height"; tab +:+ "width"; "}"],
          mkSchema [Some (sortedType Room); Some (sortedType Shelf)]) /\
  nesting (Join ["name"; "shelf {"; tab +:+ "height"; tab +:+ "width"; "}"])
  <= Z.to_nat (1 - 0) /\
  ((0 <= 0)%Z ->
   nesting (Join ["name"; "shelf {"; tab +:+ "height"; tab +:+ "width"; "}"])
   <= Z.to_nat 1).
Proof.
  split; [reflexivity|]. split; [reflexivity|]. split; [reflexivity|].
  apply (proj1 nesting_within_max_depth 2 rooms (Some 0) 0%Z 1%Z false []
               (Join ["name"; "shelf {"; tab +:+ "height"; tab +:+ "width"; "}"])
               (mkSchema [Some (sortedType Room); Some (sortedType Shelf)]));
    reflexivity.
Defined.

(** ** Fields with a required argument *)

Lemma length_append (a b : string) :
  String.length (a +:+ b) = String.length a + String.length b.
Proof. induction a as [|c a IH]; simpl; [reflexivity | now rewrite IH]. Qed.

Lemma append_inj_suffix (a b c : string) : a +:+ c = b +:+ c -> a = b.
Proof.
  revert b. induction a as [|x a IH]; intros [|y b] H.
  - reflexivity.
  - apply (f_equal String.length) in H. rewrite !length_append in H. simpl in H. lia.
  - apply (f_equal String.length) in H. rewrite !length_append in H. simpl in H. lia.
  - change (String x (a +:+ c) = String y (b +:+ c)) in H.
    injection H as -> H. now rewrite (IH b H).
Qed.

Lemma NoDup_names (l : list Field) (f g : Field) :
  List.NoDup (map f_Name l) -> In f l -> In g l -> f_Name g = f_Name f -> g = f.
Proof.
  induction l as [|x l IH]; simpl; intros Hnd Hf Hg E; [contradiction|].
  inversion Hnd as [|n ns Hnot Hnd']; subst.
  destruct Hf as [<-|Hf], Hg as [<-|Hg]; auto.
  - exfalso. apply Hnot. rewrite <- E. now apply in_map.
  - exfalso. apply Hnot. rewrite E. now apply in_map.
Qed.

Lemma Forall_one {A : Type} (P : A -> Prop) (x : A) : P x -> Forall P [x].
Proof. intros H. constructor; [exact H | constructor]. Qed.

Lemma tabbed_own (names : list string) (sub : list string) :
  Forall (own_line names) (map tabbed sub).
Proof. induction sub; simpl; constructor; [now left | assumption]. Qed.

Lemma fieldBlock_own (names : list string) (n : string) (k : Kind) (sub : list string) :
  In n names -> Forall (own_line names) (fieldBlock n k sub).
Proof.
  intros Hn. unfold fieldBlock. repeat (apply Forall_app; split).
  - apply Forall_one. right. right. right. exists n. auto.
  - destruct k; try solve [constructor]. apply Forall_one. now left.
  - apply tabbed_own.
  - apply Forall_one. right. now left.
Qed.

Lemma fragmentBlock_own (names : list string) (n : string) (pfn sub : list string) :
  Forall (own_line names) (fragmentBlock n pfn sub).
Proof.
  unfold fragmentBlock. repeat (apply Forall_app; split).
  - constructor; [right; right; left; now exists n|]. apply Forall_one. now left.
  - apply tabbed_own.
  - apply Forall_one. right. now left.
Qed.

(** The lines of a query on [T] are lines of the selectable fields of [T]. *)
Lemma query_lines_own (fuel : nat) (s : Schema) (p : ptr) (T : SchemaType)
      (depth maxDepth : Z) (excludeFields : list string) (out : string) (s' : Schema) :
  deref s p = Some T ->
  type_names_ok T = true ->
  GetQueryStringFields fuel s (Some p) depth maxDepth false excludeFields
  = Done (out, s') ->
  Split out = [""] \/ Forall (own_line (selectable T)) (Split out).
Proof.
  intros HT HTok Hrun. destruct fuel as [|n]; [discriminate|].
  rewrite GetQueryStringFields_S in Hrun. apply body_Done in Hrun.
  destruct Hrun as (p' & T' & s1 & L1 & pfn & L2 & [= <-] & HT' & HF & HP & ->).
  rewrite HT in HT'. injection HT' as <-.
  assert (H1 : Forall (own_line (selectable T)) L1 /\
               Forall (fun l => no_nl l = true) L1).
  { eapply (fieldsLoop_invariant _ _ _ _ _
              (fun _ L _ => Forall (own_line (selectable T)) L /\
                            Forall (fun l => no_nl l = true) L)
              (SliceStable (t_Fields T)));
      [| |apply incl_refl| |exact HF]; [| |split; constructor].
    - intros s2 L pfn2 field Hin Hreq _ [HL HnL].
      pose proof (type_names_ok_fields T field HTok Hin) as Hv.
      assert (Hsel : In (f_Name field) (selectable T)).
      { unfold selectable. apply in_map, filter_In. split.
        - now apply SliceStable_In.
        - simpl in Hreq. now rewrite Hreq. }
      split; apply Forall_app; split; auto; apply Forall_one.
      + right. right. right. exists (f_Name field). auto.
      + now apply valid_no_nl.
    - intros s2 L pfn2 field k q c s3 Hin Hreq _ _ _ _ [HL HnL].
      pose proof (type_names_ok_fields T field HTok Hin) as Hv.
      assert (Hsel : In (f_Name field) (selectable T)).
      { unfold selectable. apply in_map, filter_In. split.
        - now apply SliceStable_In.
        - simpl in Hreq. now rewrite Hreq. }
      destruct (String.eqb c ""); [auto|].
      split; apply Forall_app; split; auto.
      + now apply fieldBlock_own.
      + now apply fieldBlock_no_nl. }
  destruct H1 as [HL1 Hn1].
  assert (H2 : Forall (own_line (selectable T)) L2 /\
               Forall (fun l => no_nl l = true) L2).
  { eapply (possibleLoop_invariant _
              (fun _ L => Forall (own_line (selectable T)) L /\
                          Forall (fun l => no_nl l = true) L)
              (t_PossibleTypes T));
      [|apply incl_refl| |exact HP]; [|auto].
    intros s2 L pt c s3 Hin _ [HL HnL].
    pose proof (type_names_ok_possible T pt HTok Hin) as Hv.
    split; apply Forall_app; split; auto.
    - apply fragmentBlock_own.
    - now apply fragmentBlock_no_nl. }
  destruct H2 as [HL2 Hn2].
  destruct L2 as [|a L2]; [now left|].
  right. rewrite Split_Join; [exact HL2 | exact Hn2 | discriminate].
Qed.

Lemma selectable_valid (T : SchemaType) (n : string) :
  type_names_ok T = true -> In n (selectable T) -> valid_name n = true.
Proof.
  unfold selectable, type_names_ok. rewrite andb_true_iff, forallb_forall.
  intros [H _] Hn. apply in_map_iff in Hn. destruct Hn as (g & <- & Hg).
  apply filter_In in Hg. now apply H.
Qed.


(** ** Possible types *)

Lemma possibleLoop_fragments (rec : Rec) (pfn : list string) :
  forall possibleTypes s L s' L',
    possibleLoop rec possibleTypes s L pfn = Done (s', L') ->
    exists blocks, L' = L ++ concat blocks /\ fragments_for possibleTypes blocks.
Proof.
  induction possibleTypes as [|pt rest IH]; intros s L s' L' Hrun; simpl in Hrun.
  - inversion Hrun; subst. exists []. split; [now rewrite app_nil_r | constructor].
  - destruct (rec s (ptr_of (LookupTypeByName s (tr_Name pt)))) as [[c s1]| |];
      try discriminate.
    destruct (IH _ _ _ _ Hrun) as (blocks & -> & Hb).
    exists (fragmentBlock (tr_Name pt) pfn (Split c) :: blocks). split.
    + simpl. now rewrite <- app_assoc.
    + constructor; [|exact Hb]. eexists. reflexivity.
Qed.

(** Whenever a call on a type with possible types returns, its text is not
    empty and ends with their fragments. *)
Lemma possible_types_selected (fuel : nat) (s : Schema) (p : ptr) (T : SchemaType)
      (depth maxDepth : Z) (isMutation : bool) (excludeFields : list string)
      (out : string) (s' : Schema) :
  deref s p = Some T ->
  t_PossibleTypes T <> [] ->
  GetQueryStringFields fuel s (Some p) depth maxDepth isMutation excludeFields
  = Done (out, s') ->
  out <> "" /\
  exists pre blocks,
    out = Join (pre ++ concat blocks) /\ fragments_for (t_PossibleTypes T) blocks.
Proof.
  intros HT Hne Hrun. destruct fuel as [|n]; [discriminate|].
  rewrite GetQueryStringFields_S in Hrun. apply body_Done in Hrun.
  destruct Hrun as (p' & T' & s1 & L1 & pfn & L2 & [= <-] & HT' & HF & HP & ->).
  rewrite HT in HT'. injection HT' as <-.
  destruct (possibleLoop_fragments _ _ _ _ _ _ _ HP) as (blocks & -> & Hb).
  split; [|now exists L1, blocks].
  destruct Hb as [|pt blk pts blocks (inner & ->) Hb]; [congruence|].
  apply (Join_nonempty _ ("... on " +:+ tr_Name pt +:+ " {")); [|discriminate].
  apply in_or_app. right. simpl. now left.
Qed.

Lemma fieldsLoop_app (rec : Rec) (depth maxDepth : Z) (isMutation : bool)
      (excludeFields : list string) (pre rest : list Field) :
  forall s L pfn,
    fieldsLoop rec depth maxDepth isMutation excludeFields (pre ++ rest) s L pfn
    = match fieldsLoop rec depth maxDepth isMutation excludeFields pre s L pfn with
      | Done (s1, L1, pfn1) =>
          fieldsLoop rec depth maxDepth isMutation excludeFields rest s1 L1 pfn1
      | Panic => Panic
      | OutOfFuel => OutOfFuel
      end.
Proof.
  induction pre as [|field pre IH]; intros s L pfn; [reflexivity|].
  cbn [app fieldsLoop].
  destruct (negb isMutation && HasRequiredArg field); [apply IH|].
  destruct (stringInStrings (f_Name field) excludeFields); [apply IH|].
  destruct (GetKinds (f_Type field) !! (List.length (GetKinds (f_Type field)) - 1))
    as [k|]; [|reflexivity].
  destruct k; try apply IH;
    (destruct (depth >? maxDepth)%Z; [apply IH|];
     destruct (LookupTypeByName s (GetTypeName (f_Type field))); [|apply IH];
     destruct (rec s (Some a)) as [[c s1]| |]; try reflexivity;
     destruct (String.eqb c "" || Nat.ltb (List.length (Split c)) 1); apply IH).
Qed.

(** The lines only grow along the loop over the fields. *)
Lemma fieldsLoop_keeps (rec : Rec) (depth maxDepth : Z) (isMutation : bool)
      (excludeFields : list string) (line : string) (fields : list Field) :
  forall s L pfn s' L' pfn',
    fieldsLoop rec depth maxDepth isMutation excludeFields fields s L pfn
    = Done (s', L', pfn') ->
    In line L -> In line L'.
Proof.
  intros s L pfn s' L' pfn' Hrun Hin.
  eapply (fieldsLoop_invariant _ _ _ _ _ (fun _ L0 _ => In line L0) fields);
    [| |apply incl_refl|exact Hin|exact Hrun].
  - intros. apply in_or_app. now left.
  - intros s2 L0 pfn0 field k q c s3 _ _ _ _ _ _ H.
    destruct (String.eqb c ""); [exact H | apply in_or_app; now left].
Qed.

Lemma possibleLoop_keeps (rec : Rec) (pfn : list string) (line : string)
      (possibleTypes : list TypeRef) :
  forall s L s' L',
    possibleLoop rec possibleTypes s L pfn = Done (s', L') ->
    In line L -> In line L'.
Proof.
  intros s L s' L' Hrun Hin.
  destruct (possibleLoop_fragments _ _ _ _ _ _ _ Hrun) as (blocks & -> & _).
  apply in_or_app. now left.
Qed.

Lemma evolves_possible (s s' : Schema) (q : ptr) (U : SchemaType) :
  evolves s s' -> deref s q = Some U ->
  exists U', deref s' q = Some U' /\ t_PossibleTypes U' = t_PossibleTypes U.
Proof.
  intros Hev HU. pose proof (evolves_deref s s' q Hev) as H. rewrite HU in H.
  destruct H as [H|H]; eexists; (split; [exact H | reflexivity]).
Qed.

(** A field over a type with possible types is selected whenever the call
    on its parent returns. *)
Lemma field_over_possible_types_kept (fuel : nat) (s : Schema) (p q : ptr)
      (T U : SchemaType) (f : Field) (k : Kind) (depth maxDepth : Z)
      (isMutation : bool) (excludeFields : list string) (out : string) (s' : Schema) :
  deref s p = Some T ->
  In f (t_Fields T) ->
  negb isMutation && HasRequiredArg f = false ->
  stringInStrings (f_Name f) excludeFields = false ->
  GetKinds (f_Type f) !! (List.length (GetKinds (f_Type f)) - 1) = Some k ->
  k = KindObject \/ k = KindInterface ->
  (int_incr depth <= maxDepth)%Z ->
  LookupTypeByName s (GetTypeName (f_Type f)) = Ok q ->
  deref s q = Some U ->
  t_PossibleTypes U <> [] ->
  GetQueryStringFields fuel s (Some p) depth maxDepth isMutation excludeFields
  = Done (out, s') ->
  exists L, out = Join L /\ In (f_Name f +:+ " {") L.
Proof.
  intros HT Hf Hreq Hex Hk Hkind Hd Hl HU Hne Hrun.
  destruct fuel as [|n]; [discriminate|].
  rewrite GetQueryStringFields_S in Hrun. apply body_Done in Hrun.
  destruct Hrun as (p' & T' & s1 & L1 & pfn & L2 & [= <-] & HT' & HF & HP & ->).
  rewrite HT in HT'. injection HT' as <-.
  exists L2. split; [reflexivity|].
  eapply possibleLoop_keeps; [exact HP|].
  apply SliceStable_In, in_split in Hf. destruct Hf as (pre & post & Esort).
  assert (Hst : evolves s (storeFields s p T (SliceStable (t_Fields T))))
    by (eapply evolves_storeFields; exact HT).
  remember (storeFields s p T (SliceStable (t_Fields T))) as st eqn:Est in HF, Hst.
  rewrite Esort, fieldsLoop_app in HF.
  destruct (fieldsLoop _ _ _ _ _ pre _ _ _) as [[[sa La] pfna]| |] eqn:Epre;
    try discriminate.
  assert (Hrec : forall s0 t c s0',
             GetQueryStringFields n s0 t (int_incr depth) maxDepth isMutation
                                  excludeFields = Done (c, s0') -> evolves s0 s0')
    by (intros; eapply GetQueryStringFields_evolves; eassumption).
  assert (Hev : evolves s sa).
  { eapply evolves_trans; [exact Hst|].
    eapply fieldsLoop_evolves; [exact Hrec | exact Epre]. }
  cbn [fieldsLoop] in HF. rewrite Hreq, Hex, Hk in HF.
  assert (Hg : (int_incr depth >? maxDepth)%Z = false) by lia.
  rewrite (evolves_Lookup _ _ _ Hev), Hl in HF.
  destruct (evolves_possible _ _ _ _ Hev HU) as (U' & HU' & EU').
  assert (Hstep : forall r,
             match GetQueryStringFields n sa (Some q) (int_incr depth) maxDepth
                                        isMutation excludeFields with
             | Done (subTContent, s2) =>
                 if String.eqb subTContent ""
                    || Nat.ltb (List.length (Split subTContent)) 1
                 then fieldsLoop (fun s0 t0 =>
                                    GetQueryStringFields n s0 t0 (int_incr depth)
                                                         maxDepth isMutation
                                                         excludeFields)
                                 (int_incr depth) maxDepth isMutation excludeFields
                                 post s2 La pfna
                 else fieldsLoop (fun s0 t0 =>
                                    GetQueryStringFields n s0 t0 (int_incr depth)
                                                         maxDepth isMutation
                                                         excludeFields)
                                 (int_incr depth) maxDepth isMutation excludeFields
                                 post s2
                                 (La ++ fieldBlock (f_Name f) k (Split subTContent))
                                 pfna
             | Panic => Panic
             | OutOfFuel => OutOfFuel
             end = r ->
             r = Done (s1, L1, pfn) -> In (f_Name f +:+ " {") L1).
  { intros r <- Hr.
    destruct (GetQueryStringFields n sa (Some q) (int_incr depth) maxDepth isMutation
                                   excludeFields) as [[c s2]| |] eqn:Ec;
      try discriminate.
    assert (Hc : c <> "").
    { eapply (possible_types_selected n sa q U'); [exact HU' | congruence | exact Ec]. }
    apply String.eqb_neq in Hc. rewrite Hc, Split_length in Hr. simpl in Hr.
    eapply fieldsLoop_keeps; [exact Hr|].
    apply in_or_app. right. unfold fieldBlock. simpl. now left. }
  destruct Hkind as [-> | ->]; rewrite Hg in HF; eapply Hstep; eauto.
Qed.

(** ** Calls that return *)

Lemma findType_found (name : string) (l : list (option SchemaType)) :
  forall i q, findType name l i = Some q ->
              i <= q /\ exists U, l !! (q - i) = Some (Some U).
Proof.
  induction l as [|o l IH]; intros i q H; simpl in H; [discriminate|].
  destruct o as [t|].
  - destruct (String.eqb (t_Name t) name).
    + injection H as <-. split; [lia|]. rewrite Nat.sub_diag. now exists t.
    + destruct (IH _ _ H) as (Hle & U & HU). split; [lia|]. exists U.
      replace (q - i) with (S (q - S i)) by lia. exact HU.
  - destruct (IH _ _ H) as (Hle & U & HU). split; [lia|]. exists U.
    replace (q - i) with (S (q - S i)) by lia. exact HU.
Qed.

Lemma Lookup_deref (s : Schema) (name : string) (q : ptr) :
  LookupTypeByName s name = Ok q -> exists U, deref s q = Some U.
Proof.
  unfold LookupTypeByName, deref.
  destruct (findType name (Types s) 0) as [q'|] eqn:E; [|discriminate].
  intros [= <-]. destruct (findType_found _ _ _ _ E) as (_ & U & HU).
  rewrite Nat.sub_0_r in HU. unfold ptr in *. rewrite HU. now exists U.
Qed.

Lemma deref_bound (s : Schema) (q : ptr) (U : SchemaType) :
  deref s q = Some U -> q < List.length (Types s).
Proof.
  unfold deref. destruct (Types s !! q) eqn:E; [|discriminate].
  intros _. eapply lookup_lt_Some; exact E.
Qed.

Lemma possibles_ranked_spec (rank : ptr -> nat) (s : Schema) :
  possibles_ranked rank s = true -> ranked rank s.
Proof.
  unfold possibles_ranked. rewrite forallb_forall. intros H p T pt HT Hin.
  specialize (H p). rewrite HT, forallb_forall in H.
  assert (Hp : In p (seq 0 (List.length (Types s))))
    by (apply in_seq; pose proof (deref_bound s p T HT); lia).
  specialize (H Hp pt Hin).
  destruct (LookupTypeByName s (tr_Name pt)) as [q|]; [|discriminate].
  exists q. split; [reflexivity | now apply Nat.ltb_lt].
Qed.

Lemma ranked_evolves (rank : ptr -> nat) (s s' : Schema) :
  evolves s s' -> ranked rank s -> ranked rank s'.
Proof.
  intros Hev Hr p T' pt HT' Hin.
  pose proof (evolves_deref s s' p Hev) as Hd.
  destruct (deref s p) as [T|] eqn:ET; [|congruence].
  rewrite (evolves_Lookup _ _ _ Hev). apply (Hr p T pt ET).
  destruct Hd as [Hd|Hd]; rewrite Hd in HT'; injection HT' as <-; exact Hin.
Qed.

Lemma maxRank_bound (rank : ptr -> nat) (s : Schema) (q : ptr) :
  q < List.length (Types s) -> rank q <= maxRank rank s.
Proof.
  intros Hq. unfold maxRank.
  assert (H : Forall (fun k => k <= list_max (map rank (seq 0 (List.length (Types s)))))
                     (map rank (seq 0 (List.length (Types s)))))
    by now apply list_max_le.
  rewrite List.Forall_forall in H. apply H, in_map, in_seq. lia.
Qed.

Lemma maxRank_evolves (rank : ptr -> nat) (s s' : Schema) :
  evolves s s' -> maxRank rank s' = maxRank rank s.
Proof. intros H. unfold maxRank. now rewrite (evolves_length _ _ H). Qed.

Section LoopsReturn.

Variables (rec : Rec) (depth maxDepth : Z) (isMutation : bool).
Variable excludeFields : list string.
(** What is known of the registry all along the loop. *)
Variable G : Schema -> Prop.

Hypothesis rec_on_field :
  forall s field q,
    G s -> (depth <= maxDepth)%Z ->
    LookupTypeByName s (GetTypeName (f_Type field)) = Ok q ->
    exists c s', rec s (Some q) = Done (c, s') /\ G s'.

Lemma fieldsLoop_returns (fields : list Field) :
  forall s L pfn,
    G s ->
    exists s' L' pfn',
      fieldsLoop rec depth maxDepth isMutation excludeFields fields s L pfn
      = Done (s', L', pfn') /\ G s'.
Proof.
  induction fields as [|field rest IH]; intros s L pfn HG; cbn [fieldsLoop].
  - now exists s, L, pfn.
  - destruct (negb isMutation && HasRequiredArg field); [now apply IH|].
    destruct (stringInStrings (f_Name field) excludeFields); [now apply IH|].
    destruct (GetKinds_last (f_Type field)) as (k & ->).
    assert (Hobj : exists s' L' pfn',
               (if (depth >? maxDepth)%Z then
                  fieldsLoop rec depth maxDepth isMutation excludeFields rest s L pfn
                else
                  match LookupTypeByName s (GetTypeName (f_Type field)) with
                  | Err _ =>
                      fieldsLoop rec depth maxDepth isMutation excludeFields rest s L pfn
                  | Ok subT =>
                      match rec s (Some subT) with
                      | Done (subTContent, s'0) =>
                          if String.eqb subTContent ""
                             || Nat.ltb (List.length (Split subTContent)) 1
                          then fieldsLoop rec depth maxDepth isMutation excludeFields
                                          rest s'0 L pfn
                          else fieldsLoop rec depth maxDepth isMutation excludeFields
                                          rest s'0
                                          (L ++ fieldBlock (f_Name field) k
                                             (Split subTContent)) pfn
                      | Panic => Panic
                      | OutOfFuel => OutOfFuel
                      end
                  end) = Done (s', L', pfn') /\ G s').
    { remember (depth >? maxDepth)%Z as g eqn:Eg. destruct g; [now apply IH|].
      destruct (LookupTypeByName s (GetTypeName (f_Type field))) as [q|e] eqn:El;
        [|now apply IH].
      destruct (rec_on_field s field q HG ltac:(lia) El) as (c & s1 & -> & HG1).
      destruct (String.eqb c "" || Nat.ltb (List.length (Split c)) 1); now apply IH. }
    destruct k; first [exact Hobj | now apply IH].
Qed.

End LoopsReturn.

Section PossibleLoopReturns.

Variable rec : Rec.
Variable G : Schema -> Prop.
Variable possibleTypes0 : list TypeRef.

Hypothesis rec_on_possible :
  forall s pt,
    G s -> In pt possibleTypes0 ->
    exists c s', rec s (ptr_of (LookupTypeByName s (tr_Name pt))) = Done (c, s') /\ G s'.

Lemma possibleLoop_returns (possibleTypes : list TypeRef) :
  incl possibleTypes possibleTypes0 ->
  forall s L pfn,
    G s ->
    exists s' L', possibleLoop rec possibleTypes s L pfn = Done (s', L') /\ G s'.
Proof.
  induction possibleTypes as [|pt rest IH]; intros Hin s L pfn HG; cbn [possibleLoop].
  - now exists s, L.
  - destruct (rec_on_possible s pt HG (Hin pt (or_introl eq_refl)))
      as (c & s1 & -> & HG1).
    apply IH; [|exact HG1]. intros x Hx. apply Hin. now right.
Qed.

End PossibleLoopReturns.

(** Over a registry whose possible types resolve along a rank bounded by
    [R], a call with fuel for its depth and rank returns. *)
Lemma returns_with_fuel (rank : ptr -> nat) (R : nat) (maxDepth : Z)
      (isMutation : bool) (excludeFields : list string) (fuel : nat) :
  forall s p T depth,
    ranked rank s ->
    (forall q, q < List.length (Types s) -> rank q <= R) ->
    deref s p = Some T ->
    Z.to_nat (maxDepth - depth) * S R + rank p + 1 <= fuel ->
    (depth + Z.of_nat (Z.to_nat (maxDepth - depth) * S R + rank p + 1) <= max_int)%Z ->
    exists out s',
      GetQueryStringFields fuel s (Some p) depth maxDepth isMutation excludeFields
      = Done (out, s').
Proof.
  induction fuel as [|n IH]; intros s p T depth Hr HR HT Hfuel Hmax; [lia|].
  rewrite GetQueryStringFields_S. unfold body. rewrite HT.
  assert (Hi : int_incr depth = (depth + 1)%Z) by (apply int_incr_plain; lia).
  rewrite Hi.
  set (G := fun s2 : Schema => evolves s s2).
  assert (Hrec_ev : forall s0 t c s0',
             GetQueryStringFields n s0 t (depth + 1) maxDepth isMutation excludeFields
             = Done (c, s0') -> evolves s0 s0')
    by (intros; eapply GetQueryStringFields_evolves; eassumption).
  assert (Hcall : forall s2 q U,
             G s2 -> deref s2 q = Some U ->
             Z.to_nat (maxDepth - (depth + 1)) * S R + rank q + 1
             < Z.to_nat (maxDepth - depth) * S R + rank p + 1 ->
             exists c s3,
               GetQueryStringFields n s2 (Some q) (depth + 1) maxDepth isMutation
                                    excludeFields = Done (c, s3) /\ G s3).
  { intros s2 q U HG HU Hn.
    assert (Hr2 : ranked rank s2) by (eapply ranked_evolves; eassumption).
    assert (HR2 : forall q', q' < List.length (Types s2) -> rank q' <= R)
      by (intros q' Hq'; apply HR; now rewrite <- (evolves_length _ _ HG)).
    destruct (IH s2 q U (depth + 1)%Z Hr2 HR2 HU ltac:(lia) ltac:(lia))
      as (c & s3 & Hc).
    exists c, s3. split; [exact Hc|]. eapply evolves_trans; [exact HG|].
    eapply Hrec_ev; exact Hc. }
  assert (HG0 : G (storeFields s p T (SliceStable (t_Fields T))))
    by (eapply evolves_storeFields; exact HT).
  destruct (fieldsLoop_returns
              (fun s' t' => GetQueryStringFields n s' t' (depth + 1) maxDepth
                                                  isMutation excludeFields)
              (depth + 1) maxDepth isMutation excludeFields G) with
      (fields := SliceStable (t_Fields T))
      (s := storeFields s p T (SliceStable (t_Fields T)))
      (L := @nil string) (pfn := @nil string)
    as (s1 & L1 & pfn1 & -> & HG1); [|exact HG0|].
  { intros s2 field q HG Hd Hl.
    destruct (Lookup_deref _ _ _ Hl) as (U & HU).
    apply (Hcall s2 q U HG HU).
    assert (Hq : rank q <= R).
    { apply HR. rewrite <- (evolves_length _ _ HG). eapply deref_bound; exact HU. }
    assert (E : Z.to_nat (maxDepth - depth) = S (Z.to_nat (maxDepth - (depth + 1))))
      by lia.
    rewrite E. nia. }
  destruct (possibleLoop_returns
              (fun s' t' => GetQueryStringFields n s' t' (depth + 1) maxDepth
                                                  isMutation excludeFields)
              G (t_PossibleTypes T)) with
      (possibleTypes := t_PossibleTypes T) (s := s1) (L := L1) (pfn := pfn1)
    as (s2 & L2 & -> & HG2); [|apply incl_refl|exact HG1|eauto].
  intros s2 pt HG Hin.
  destruct (Hr p T pt HT Hin) as (q & Hl & Hlt).
  rewrite (evolves_Lookup _ _ _ HG), Hl. simpl.
  destruct (Lookup_deref _ _ _ Hl) as (U & HU).
  destruct (evolves_possible _ _ _ _ HG HU) as (U' & HU' & _).
  apply (Hcall s2 q U' HG HU').
  assert (Z.to_nat (maxDepth - (depth + 1)) <= Z.to_nat (maxDepth - depth)) by lia.
  nia.
Qed.

(** C10, as the code has it: whenever a call on a type with possible types
    returns, its text is not empty and ends with one inline fragment per
    possible type, in their order, each opening with __typename, whatever the
    depth, the maximum depth, the mutation flag and the exclusions; the call
    does return, given fuel, when throughout the registry the possible types
    resolve along a well-founded rank and the depth counter stays clear of
    overflow; and a field of a parent over such a type, met within the depth
    and not skipped for its arguments or by exclusion, is selected whenever
    the call on the parent returns. *)
Theorem possible_types_are_always_selected :
  (forall (fuel : nat) (s : Schema) (p : ptr) (T : SchemaType) (depth maxDepth : Z)
          (isMutation : bool) (excludeFields : list string) (out : string)
          (s' : Schema),
      deref s p = Some T ->
      t_PossibleTypes T <> [] ->
      GetQueryStringFields fuel s (Some p) depth maxDepth isMutation excludeFields
      = Done (out, s') ->
      out <> "" /\
      exists pre blocks,
        out = Join (pre ++ concat blocks) /\
        fragments_for (t_PossibleTypes T) blocks) /\
  (forall (rank : ptr -> nat) (s : Schema) (p : ptr) (T : SchemaType)
          (depth maxDepth : Z) (isMutation : bool) (excludeFields : list string)
          (fuel : nat),
      possibles_ranked rank s = true ->
      deref s p = Some T ->
      (depth + Z.of_nat (fuelBound rank s p depth maxDepth) <= max_int)%Z ->
      fuelBound rank s p depth maxDepth <= fuel ->
      exists out s',
        GetQueryStringFields fuel s (Some p) depth maxDepth isMutation excludeFields
        = Done (out, s')) /\
  (forall (fuel : nat) (s : Schema) (p q : ptr) (T U : SchemaType) (f : Field)
          (k : Kind) (depth maxDepth : Z) (isMutation : bool)
          (excludeFields : list string) (out : string) (s' : Schema),
      deref s p = Some T ->
      In f (t_Fields T) ->
      negb isMutation && HasRequiredArg f = false ->
      stringInStrings (f_Name f) excludeFields = false ->
      GetKinds (f_Type f) !! (List.length (GetKinds (f_Type f)) - 1) = Some k ->
      k = KindObject \/ k = KindInterface ->
      (int_incr depth <= maxDepth)%Z ->
      LookupTypeByName s (GetTypeName (f_Type f)) = Ok q ->
      deref s q = Some U ->
      t_PossibleTypes U <> [] ->
      GetQueryStringFields fuel s (Some p) depth maxDepth isMutation excludeFields
      = Done (out, s') ->
      exists L, out = Join L /\ In (f_Name f +:+ " {") L).
Proof.
  split; [|split].
  - intros. eapply possible_types_selected; eassumption.
  - intros rank s p T depth maxDepth isMutation excludeFields fuel Hr HT Hmax Hfuel.
    unfold fuelBound in *.
    eapply (returns_with_fuel rank (maxRank rank s)); eauto.
    + now apply possibles_ranked_spec.
    + intros q Hq. now apply maxRank_bound.
  - intros fuel s p q T U f k depth maxDepth isMutation excludeFields out s'
           HT Hf Hreq Hex Hk Hkind Hd Hl HU Hne Hrun.
    exact (field_over_possible_types_kept fuel s p q T U f k depth maxDepth isMutation
             excludeFields out s' HT Hf Hreq Hex Hk Hkind Hd Hl HU Hne Hrun).
Qed.

Lemma possible_types_of_animal_selected :
  possibles_ranked animalRank animals = true /\
  deref animals 0 = Some Animal /\
  t_PossibleTypes Animal <> [] /\
  exists out s',
    GetQueryStringFields 4 animals (Some 0) 0 1 false [] = Done (out, s') /\
    out <> "".
Proof.
  split; [reflexivity|]. split; [reflexivity|]. split; [discriminate|].
  destruct (proj1 (proj2 possible_types_are_always_selected)
                  animalRank animals 0 Animal 0%Z 1%Z false [] 4
                  eq_refl eq_refl)
    as (out & s' & H).
  - vm_compute. discriminate.
  - vm_compute. lia.
  - exists out, s'. split; [exact H|].
    apply (proj1 possible_types_are_always_selected 4 animals 0 Animal 0%Z 1%Z false []
                 out s' eq_refl);
      [discriminate | exact H].
Defined.

Lemma knot_never_returns (fuel : nat) :
  forall depth maxDepth isMutation excludeFields,
    GetQueryStringFields fuel knots (Some 0) depth maxDepth isMutation excludeFields
    = OutOfFuel.
Proof.
  induction fuel as [|n IH]; intros depth maxDepth isMutation excludeFields;
    [reflexivity|].
  rewrite GetQueryStringFields_S. unfold body. simpl.
  change (storeFields knots 0 Knot []) with knots. now rewrite IH.
Qed.

(** C10, as stated, fails: the possible type Pet of the union Owner
    resolves, but Pet's own possible type does not; the call on Owner panics
    and, whatever the fuel, returns no text.  Nor does the call on Knot,
    whose possible type resolves to Knot itself: it recurses without end. *)
Lemma nested_unresolved_possible_type :
  deref owners 0 = Some Owner /\
  t_PossibleTypes Owner <> [] /\
  (forall pt, In pt (t_PossibleTypes Owner) ->
              exists q, LookupTypeByName owners (tr_Name pt) = Ok q) /\
  (forall fuel,
      GetQueryStringFields (S (S (S fuel))) owners (Some 0) 0 1 false [] = Panic) /\
  (forall fuel out s',
      GetQueryStringFields fuel owners (Some 0) 0 1 false [] <> Done (out, s')) /\
  (forall pt, In pt (t_PossibleTypes Knot) ->
              exists q, LookupTypeByName knots (tr_Name pt) = Ok q) /\
  (forall fuel, GetQueryStringFields fuel knots (Some 0) 0 1 false [] = OutOfFuel).
Proof.
  split; [reflexivity|]. split; [discriminate|]. repeat split.
  - intros pt [<-|[]]. now exists 1.
  - intros [|[|[|fuel]]] out s'; discriminate.
  - intros pt [<-|[]]. now exists 0.
  - intros fuel. apply knot_never_returns.
Qed.

(** * Further properties of the code *)

(** ** [GetField] *)

Lemma findField_Some (name : string) (fields : list Field) (f : Field) :
  findField name fields = Some f <->
  exists pre post,
    fields = pre ++ f :: post /\ f_Name f = name /\
    forall g, In g pre -> f_Name g <> name.
Proof.
  induction fields as [|x l IH]; simpl.
  - split; [discriminate | intros ([|? ?] & post & E & _); discriminate].
  - destruct (String.eqb_spec (f_Name x) name) as [E|E].
    + split.
      * intros [= <-]. exists [], l. repeat split; auto; contradiction.
      * intros ([|y pre] & post & El & En & Hpre).
        -- simpl in El. now injection El as -> _.
        -- simpl in El. injection El as <- _. exfalso. apply (Hpre x); [now left | exact E].
    + rewrite IH. split.
      * intros (pre & post & -> & En & Hpre). exists (x :: pre), post.
        repeat split; auto. intros g [<-|Hg]; auto.
      * intros ([|y pre] & post & El & En & Hpre).
        -- simpl in El. injection El as -> _. congruence.
        -- simpl in El. injection El as <- ->. exists pre, post.
           repeat split; auto. intros g Hg. apply Hpre. now right.
Qed.

Lemma findField_None (name : string) (fields : list Field) :
  findField name fields = None <-> forall g, In g fields -> f_Name g <> name.
Proof.
  induction fields as [|x l IH]; simpl; [split; [intros _ g [] | reflexivity]|].
  destruct (String.eqb_spec (f_Name x) name) as [E|E].
  - split; [discriminate | intros H; exfalso; apply (H x); auto].
  - rewrite IH. split; [intros H g [<-|Hg]; auto | intros H g Hg; apply H; auto].
Qed.

(** X1: on a type, [GetField] returns the first field that bears the name,
    and fails, with the message that names it, exactly when no field does. *)
Theorem GetField_first_match :
  forall (t : SchemaType) (name : string),
    (forall f,
        GetField (Some t) name = Done (Ok f) <->
        exists pre post,
          t_Fields t = pre ++ f :: post /\ f_Name f = name /\
          forall g, In g pre -> f_Name g <> name) /\
    ((forall g, In g (t_Fields t) -> f_Name g <> name) <->
     GetField (Some t) name
     = Done (Err (Errorf ("field '" +:+ name +:+ "' not found")))) /\
    (forall r, GetField (Some t) name = Done (Err r) ->
               forall g, In g (t_Fields t) -> f_Name g <> name).
Proof.
  intros t name. unfold GetField. repeat split.
  - intros H. apply findField_Some.
    destruct (findField name (t_Fields t)); [now injection H as -> | discriminate].
  - intros H. apply findField_Some in H. now rewrite H.
  - intros H. apply findField_None in H. now rewrite H.
  - intros H. apply findField_None.
    destruct (findField name (t_Fields t)); [discriminate | reflexivity].
  - intros r H. apply findField_None.
    destruct (findField name (t_Fields t)); [discriminate | reflexivity].
Qed.

Lemma less_irrefl_names (x y : Field) : less y x = true -> f_Name y <> f_Name x.
Proof.
  unfold less, String.ltb. intros H E. rewrite E in H.
  pose proof (String.compare_antisym (f_Name x) (f_Name x)) as Ha.
  destruct (String.compare (f_Name x) (f_Name x)); discriminate.
Qed.

Lemma findField_insertField (name : string) (x : Field) (l : list Field) :
  findField name (insertField x l)
  = if String.eqb (f_Name x) name then
      match findField name l with
      | Some f => if less f x then Some f else Some x
      | None => Some x
      end
    else findField name l.
Proof.
  induction l as [|y l IH]; simpl.
  - now destruct (String.eqb (f_Name x) name).
  - destruct (less y x) eqn:Ely; simpl.
    + destruct (String.eqb_spec (f_Name y) name) as [Ey|Ey].
      * rewrite Ely. destruct (String.eqb_spec (f_Name x) name); reflexivity.
      * exact IH.
    + destruct (String.eqb_spec (f_Name x) name) as [Ex|Ex]; [|reflexivity].
      destruct (String.eqb_spec (f_Name y) name) as [Ey|Ey]; [now rewrite Ely|].
      destruct (findField name l) as [f|] eqn:Ef; [|reflexivity].
      destruct (less f x) eqn:Elf; [|reflexivity].
      exfalso. apply findField_Some in Ef.
      destruct Ef as (_ & _ & _ & En & _).
      apply less_irrefl_names in Elf. congruence.
Qed.

Lemma findField_SliceStable (name : string) (l : list Field) :
  findField name (SliceStable l) = findField name l.
Proof.
  induction l as [|x l IH]; simpl; [reflexivity|].
  rewrite findField_insertField, IH.
  destruct (String.eqb_spec (f_Name x) name) as [Ex|Ex]; [|reflexivity].
  destruct (findField name l) as [f|] eqn:Ef; [|reflexivity].
  destruct (less f x) eqn:Elf; [|reflexivity].
  exfalso. apply findField_Some in Ef. destruct Ef as (_ & _ & _ & En & _).
  apply less_irrefl_names in Elf. congruence.
Qed.

(** X2: the sort that a synthesis leaves in the registry is stable, so it
    never changes what [GetField] returns: after a call that returns,
    [GetField] on any type of the registry, for any name, gives what it gave
    before. *)
Theorem GetField_after_synthesis :
  forall (fuel : nat) (s : Schema) (t : option ptr) (depth maxDepth : Z)
         (isMutation : bool) (excludeFields : list string) (out : string)
         (s' : Schema),
    GetQueryStringFields fuel s t depth maxDepth isMutation excludeFields
    = Done (out, s') ->
    forall (p : ptr) (name : string),
      GetField (deref s' p) name = GetField (deref s p) name.
Proof.
  intros fuel s t depth maxDepth isMutation excludeFields out s' Hrun p name.
  pose proof (evolves_deref s s' p (GetQueryStringFields_evolves _ _ _ _ _ _ _ _ _ Hrun))
    as Hd.
  destruct (deref s p) as [T|]; [|now rewrite Hd].
  destruct Hd as [-> | ->]; [reflexivity|].
  unfold GetField, sortedType. simpl. now rewrite findField_SliceStable.
Qed.

Lemma GetField_on_shelves_after_synthesis :
  GetQueryStringFields 1 shelves (Some 0) 0 1 false []
  = Done (Join ["height"; "width"], mkSchema [Some (sortedType Shelf)]) /\
  GetField (deref (mkSchema [Some (sortedType Shelf)]) 0) "width"
  = GetField (deref shelves 0) "width".
Proof.
  split; [reflexivity|].
  apply (GetField_after_synthesis 1 shelves (Some 0) 0 1 false []
           (Join ["height"; "width"]) (mkSchema [Some (sortedType Shelf)]) eq_refl).
Defined.

(** ** The lookups of generate.go *)

Section GeneratorProofs.

Variable GeneratorConfig : Type.
Variable gc_Name : GeneratorConfig -> string.
Variable Generator : Type.

(** X3: [getGeneratorConfigByName] returns the first configuration of the
    set that bears the name, and fails exactly when none does. *)
Theorem getGeneratorConfigByName_first_match :
  forall (name : string) (matchSet : list GeneratorConfig),
    (forall g,
        getGeneratorConfigByName GeneratorConfig gc_Name name matchSet = Ok g <->
        exists pre post,
          matchSet = pre ++ g :: post /\ gc_Name g = name /\
          forall h, In h pre -> gc_Name h <> name) /\
    ((exists e, getGeneratorConfigByName GeneratorConfig gc_Name name matchSet = Err e)
     <-> forall h, In h matchSet -> gc_Name h <> name).
Proof.
  intros name matchSet. induction matchSet as [|x l [IH1 IH2]]; simpl.
  - split.
    + intros g. split; [discriminate | intros ([|? ?] & post & E & _); discriminate].
    + split; [intros _ h [] | eauto].
  - destruct (String.eqb_spec (gc_Name x) name) as [E|E]; split.
    + intros g. split.
      * intros [= <-]. exists [], l. repeat split; auto; contradiction.
      * intros ([|y pre] & post & El & En & Hpre).
        -- simpl in El. now injection El as -> _.
        -- simpl in El. injection El as <- _. exfalso. apply (Hpre x); [now left | exact E].
    + split; [intros [e He]; discriminate | intros H; exfalso; apply (H x); auto].
    + intros g. rewrite IH1. split.
      * intros (pre & post & -> & En & Hpre). exists (x :: pre), post.
        repeat split; auto. intros h [<-|Hh]; auto.
      * intros ([|y pre] & post & El & En & Hpre).
        -- simpl in El. injection El as -> _. congruence.
        -- simpl in El. injection El as <- ->. exists pre, post.
           repeat split; auto. intros h Hh. apply Hpre. now right.
    + rewrite IH2. split; [intros H h [<-|Hh]; auto | intros H h Hh; apply H; auto].
Qed.

Lemma generatorLoop_Ok (name : string) (entries : list (string * Generator))
      (g : Generator) :
  generatorLoop Generator name entries = Ok g -> In (name, g) entries.
Proof.
  induction entries as [|[n h] l IH]; simpl; [discriminate|].
  destruct (String.eqb_spec n name) as [->|E]; [intros [= ->]; now left | auto].
Qed.

Lemma generatorLoop_Err (name : string) (entries : list (string * Generator))
      (e : error) :
  generatorLoop Generator name entries = Err e ->
  e = Errorf ("no generator named " +:+ name +:+ " found") /\
  forall g, ~ In (name, g) entries.
Proof.
  induction entries as [|[n h] l IH]; simpl.
  - intros [= <-]. split; [reflexivity | auto].
  - destruct (String.eqb_spec n name) as [->|E]; [discriminate|].
    intros H. destruct (IH H) as [-> Hl]. split; [reflexivity|].
    intros g [[= ? ?]|Hg]; [congruence | exact (Hl g Hg)].
Qed.

(** X4: whatever the order in which the map hands out its entries,
    [getGeneratorByName] returns the generator stored under the name, and
    fails exactly when the map has no such key. *)
Theorem getGeneratorByName_is_lookup :
  forall (name : string) (matchSet : gmap string Generator)
         (entries : list (string * Generator)),
    iteration Generator matchSet entries ->
    generatorLoop Generator name entries
    = match matchSet !! name with
      | Some g => Ok g
      | None => Err (Errorf ("no generator named " +:+ name +:+ " found"))
      end.
Proof.
  intros name matchSet entries Hperm. unfold iteration in Hperm.
  assert (Hin : forall g, In (name, g) entries <-> matchSet !! name = Some g).
  { intros g. rewrite <- elem_of_map_to_list, <- list_elem_of_In. now rewrite Hperm. }
  destruct (generatorLoop Generator name entries) as [g|e] eqn:Er.
  - apply generatorLoop_Ok, Hin in Er. now rewrite Er.
  - apply generatorLoop_Err in Er. destruct Er as [-> Hno].
    destruct (matchSet !! name) as [g|] eqn:El; [|reflexivity].
    exfalso. apply (Hno g). now apply Hin.
Qed.

End GeneratorProofs.

Lemma getGeneratorByName_on_typegen :
  iteration nat {[ "typegen" := 7 ]} [("typegen", 7)] /\
  generatorLoop nat "typegen" [("typegen", 7)]
  = match ({[ "typegen" := 7 ]} : gmap string nat) !! "typegen" with
    | Some g => Ok g
    | None => Err (Errorf ("no generator named " +:+ "typegen" +:+ " found"))
    end.
Proof.
  assert (H : iteration nat {[ "typegen" := 7 ]} [("typegen", 7)])
    by (unfold iteration; now rewrite map_to_list_singleton).
  split; [exact H|].
  apply (getGeneratorByName_is_lookup nat "typegen" {[ "typegen" := 7 ]} _ H).
Defined.

(** ** Further properties of the expansion *)

Lemma collectNested_omap (s : Schema) (fields : list Field) :
  forall f, collectNested s fields f = f ++ omap (resolveWrapped s) fields.
Proof.
  induction fields as [|i rest IH]; intros f; simpl; [now rewrite app_nil_r|].
  unfold resolveWrapped at 1.
  destruct (tr_OfType (f_Type i)) as [o|]; [|apply IH].
  destruct (lookupResult s (GetTypeName o)) as [T|]; [|apply IH].
  rewrite IH, <- app_assoc. reflexivity.
Qed.

(** X5: [ExpandType] does not deduplicate.  On a schema and a type that are
    not nil its result holds, input fields first and each list in declared
    order, one entry for every field whose reference is wrapped and resolves;
    so it is never longer than the two lists together. *)
Theorem ExpandType_in_order :
  forall (s : Schema) (t : SchemaType),
    ExpandType (Some s) (Some t)
    = Ok (omap (resolveWrapped s) (t_InputFields t ++ t_Fields t)) /\
    List.length (omap (resolveWrapped s) (t_InputFields t ++ t_Fields t))
    <= List.length (t_InputFields t) + List.length (t_Fields t).
Proof.
  intros s t. split.
  - unfold ExpandType. rewrite !collectNested_omap. simpl.
    now rewrite omap_app.
  - rewrite <- length_app. generalize (t_InputFields t ++ t_Fields t).
    intros l. induction l as [|i l IH]; [reflexivity|].
    cbn [omap list_omap List.length]. fold (omap (resolveWrapped s) l).
    destruct (resolveWrapped s i); cbn [List.length]; lia.
Qed.

Lemma findType_name (name : string) (l : list (option SchemaType)) :
  forall i q, findType name l i = Some q ->
              exists U, l !! (q - i) = Some (Some U) /\ t_Name U = name.
Proof.
  induction l as [|o l IH]; intros i q H; simpl in H; [discriminate|].
  destruct o as [t|].
  - destruct (String.eqb_spec (t_Name t) name) as [E|E].
    + injection H as <-. rewrite Nat.sub_diag. now exists t.
    + destruct (findType_found _ _ _ _ H) as (Hle & _).
      destruct (IH _ _ H) as (U & HU & En). exists U. split; [|exact En].
      replace (q - i) with (S (q - S i)) by lia. exact HU.
  - destruct (findType_found _ _ _ _ H) as (Hle & _).
    destruct (IH _ _ H) as (U & HU & En). exists U. split; [|exact En].
    replace (q - i) with (S (q - S i)) by lia. exact HU.
Qed.

Lemma lookupResult_found (s : Schema) (name : string) (T : SchemaType) :
  lookupResult s name = Some T -> In (Some T) (Types s) /\ t_Name T = name.
Proof.
  unfold lookupResult, LookupTypeByName, deref.
  destruct (findType name (Types s) 0) as [q|] eqn:E; simpl; [|discriminate].
  destruct (findType_name _ _ _ _ E) as (U & HU & En).
  rewrite Nat.sub_0_r in HU. unfold ptr in *. rewrite HU. intros [= <-].
  split; [|exact En]. apply list_elem_of_In. eapply list_elem_of_lookup_2; exact HU.
Qed.

(** X6: the expansion invents nothing: every type of its output is a record
    of the registry, a root that the descriptors name or a type that the
    registry holds under the name looked up from a root. *)
Theorem ExpandTypes_within_registry :
  forall (formatGoName : string -> string) (s : Schema) (types : list TypeInfo)
         (out : list SchemaType),
    ExpandTypes formatGoName (Some s) types = Done (Ok out) ->
    forall T, In T out -> In (Some T) (Types s).
Proof.
  intros formatGoName s types out Hrun T HT. unfold ExpandTypes in Hrun.
  destruct (expandLoop_spec formatGoName s types (Types s) [])
    as (out' & E & _ & _ & _ & H4).
  rewrite E in Hrun. injection Hrun as <-.
  destruct (H4 T HT) as [[]|[[H _]|(R & _ & _ & (i & o & _ & _ & Hl))]]; [exact H|].
  now apply lookupResult_found in Hl.
Qed.

Lemma ExpandTypes_of_widgets_within_registry :
  ExpandTypes (fun n => n) (Some widgetsNN) [mkTypeInfo "Query"]
  = Done (Ok [QueryNN; WidgetNN]) /\
  forall T, In T [QueryNN; WidgetNN] -> In (Some T) (Types widgetsNN).
Proof.
  split; [reflexivity|].
  apply (ExpandTypes_within_registry (fun n => n) widgetsNN [mkTypeInfo "Query"]).
  reflexivity.
Defined.

Lemma NoDup_map_inj {A B : Type} (f : A -> B) (l : list A) (x y : A) :
  List.NoDup (map f l) -> In x l -> In y l -> f x = f y -> x = y.
Proof.
  induction l as [|a l IH]; simpl; intros Hnd Hx Hy E; [contradiction|].
  inversion Hnd as [|b bs Hnot Hnd']; subst.
  destruct Hx as [<-|Hx], Hy as [<-|Hy]; auto.
  - exfalso. apply Hnot. rewrite E. now apply in_map.
  - exfalso. apply Hnot. rewrite <- E. now apply in_map.
Qed.

Lemma records_In (s : Schema) (T : SchemaType) :
  In T (records s) <-> In (Some T) (Types s).
Proof.
  unfold records. rewrite <- !list_elem_of_In, list_elem_of_omap. split.
  - intros ([U|] & HU & E); [|discriminate]. now injection E as ->.
  - intros H. now exists (Some T).
Qed.

Lemma names_snoc (acc : list SchemaType) (f : SchemaType) :
  List.NoDup (map t_Name acc) -> ~ In (t_Name f) (map t_Name acc) ->
  List.NoDup (map t_Name (acc ++ [f])).
Proof.
  intros Hnd Hnot. rewrite map_app. simpl.
  apply NoDup_ListNoDup, NoDup_app. repeat split.
  - now apply NoDup_ListNoDup.
  - intros x Hx Hf. apply list_elem_of_In in Hx. apply list_elem_of_In in Hf.
    destruct Hf as [<-|[]]. contradiction.
  - apply NoDup_singleton.
Qed.

Lemma appendUnique_NoDup (fs : list SchemaType) :
  forall acc,
    List.NoDup (map t_Name acc) -> List.NoDup (map t_Name (appendUnique fs acc)).
Proof.
  induction fs as [|f rest IH]; intros acc Hnd; simpl; [exact Hnd|].
  destruct (hasType f acc) eqn:Eh; simpl; [now apply IH|].
  apply IH, names_snoc; [exact Hnd|].
  intros Hin. apply hasType_names in Hin. congruence.
Qed.

Lemma earlier_record_differs (done rest : list (option SchemaType))
      (R T : SchemaType) :
  List.NoDup (map t_Name (omap (fun o => o) (done ++ Some R :: rest))) ->
  In (Some T) done -> t_Name T <> t_Name R.
Proof.
  rewrite omap_app, map_app. intros Hnd HT E.
  apply NoDup_ListNoDup, NoDup_app in Hnd. destruct Hnd as (_ & Hdis & _).
  apply (Hdis (t_Name T)).
  - apply list_elem_of_In, in_map, list_elem_of_In, list_elem_of_omap.
    exists (Some T). split; [now apply list_elem_of_In | reflexivity].
  - rewrite E. apply list_elem_of_In. simpl. now left.
Qed.

Section ExpansionWithoutRepeats.

Variable formatGoName : string -> string.
Variables (s : Schema) (types : list TypeInfo).

Hypothesis unique_names : List.NoDup (map t_Name (records s)).
Hypothesis roots_apart :
  forall R T, is_root formatGoName s types R -> is_root formatGoName s types T ->
              one_hop s R T -> T = R.

Lemma expandLoop_NoDup (l : list (option SchemaType)) :
  forall done acc out,
    Types s = done ++ l ->
    List.NoDup (map t_Name acc) ->
    (forall T, In T acc ->
               (In (Some T) done /\
                typeNameInTypes (GetName formatGoName T) types = true) \/
               exists R, In (Some R) done /\
                         typeNameInTypes (GetName formatGoName R) types = true /\
                         one_hop s R T) ->
    expandLoop formatGoName s types l acc = Done out ->
    List.NoDup (map t_Name out).
Proof.
  induction l as [|o l IH]; intros done acc out Hs Hnd Hacc Hrun; cbn [expandLoop] in Hrun.
  - now injection Hrun as <-.
  - assert (Hs' : Types s = (done ++ [o]) ++ l) by now rewrite <- app_assoc.
    assert (Hweak : forall T,
               In T acc ->
               (In (Some T) (done ++ [o]) /\
                typeNameInTypes (GetName formatGoName T) types = true) \/
               exists R, In (Some R) (done ++ [o]) /\
                         typeNameInTypes (GetName formatGoName R) types = true /\
                         one_hop s R T).
    { intros T HT. destruct (Hacc T HT) as [[H Hm]|(R & HR & Hm & Hop)].
      - left. split; [apply in_or_app; now left | exact Hm].
      - right. exists R. split; [apply in_or_app; now left | auto]. }
    destruct o as [R|]; [|eapply IH; eassumption].
    destruct (typeNameInTypes (GetName formatGoName R) types) eqn:Em;
      [|eapply IH; eassumption].
    destruct (ExpandType_one_hop s R) as (fs & Efs & Hfs). rewrite Efs in Hrun.
    assert (HRin : In (Some R) (Types s))
      by (rewrite Hs; apply in_or_app; right; now left).
    assert (Hfresh : ~ In (t_Name R) (map t_Name acc)).
    { intros Hin. apply in_map_iff in Hin. destruct Hin as (T & En & HT).
      assert (Hdiff : forall X, In (Some X) done -> t_Name X <> t_Name R).
      { intros X HX. apply (earlier_record_differs done l R X); [|exact HX].
        unfold records in unique_names. now rewrite <- Hs. }
      destruct (Hacc T HT) as [[H Hm]|(R' & HR' & Hm & Hop)].
      - exact (Hdiff T H En).
      - assert (HTin : In (Some T) (Types s)).
        { destruct Hop as (i & o & _ & _ & Hl). now apply lookupResult_found in Hl. }
        assert (T = R).
        { apply (NoDup_map_inj t_Name (records s)); auto; now apply records_In. }
        subst T.
        assert (R = R').
        { apply roots_apart; [split; [|exact Hm] | now split | exact Hop].
          rewrite Hs. apply in_or_app. now left. }
        subst R'. exact (Hdiff R HR' eq_refl). }
    eapply (IH (done ++ [Some R])); [exact Hs' | | | exact Hrun].
    + apply appendUnique_NoDup, names_snoc; assumption.
    + intros T HT.
      destruct (appendUnique_In fs (acc ++ [R])) as (_ & _ & A3).
      destruct (A3 T HT) as [H|H].
      * apply in_app_or in H. destruct H as [H|[<-|[]]]; [now apply Hweak|].
        left. split; [apply in_or_app; right; now left | exact Em].
      * right. exists R. split; [apply in_or_app; right; now left|].
        split; [exact Em | now apply Hfs].
Qed.

End ExpansionWithoutRepeats.

(** X7: when the names of the registry are unique and no root is resolved
    one hop from another root, the output of the expansion holds no two types
    of the same name. *)
Theorem ExpandTypes_without_repeats :
  forall (formatGoName : string -> string) (s : Schema) (types : list TypeInfo)
         (out : list SchemaType),
    List.NoDup (map t_Name (records s)) ->
    (forall R T, is_root formatGoName s types R -> is_root formatGoName s types T ->
                 one_hop s R T -> T = R) ->
    ExpandTypes formatGoName (Some s) types = Done (Ok out) ->
    List.NoDup (map t_Name out).
Proof.
  intros formatGoName s types out Hu Hr Hrun. unfold ExpandTypes in Hrun.
  destruct (expandLoop formatGoName s types (Types s) []) as [out'| |] eqn:E;
    try discriminate.
  injection Hrun as <-.
  apply (expandLoop_NoDup formatGoName s types Hu Hr (Types s) [] [] out');
    [reflexivity | constructor | intros T [] | exact E].
Qed.

Lemma ExpandTypes_of_widgets_without_repeats :
  List.NoDup (map t_Name (records widgetsNN)) /\
  ExpandTypes (fun n => n) (Some widgetsNN) [mkTypeInfo "Query"]
  = Done (Ok [QueryNN; WidgetNN]) /\
  List.NoDup (map t_Name [QueryNN; WidgetNN]).
Proof.
  assert (Hu : List.NoDup (map t_Name (records widgetsNN))).
  { change (List.NoDup ["Query"; "Widget"; "Part"]).
    repeat constructor; simpl; intros H;
      repeat (destruct H as [H|H]; [discriminate|]); exact H. }
  split; [exact Hu|]. split; [reflexivity|].
  apply (ExpandTypes_without_repeats (fun n => n) widgetsNN [mkTypeInfo "Query"]
           [QueryNN; WidgetNN] Hu); [|reflexivity].
  assert (Hroot : forall X,
             In (Some X) (Types widgetsNN) ->
             typeNameInTypes (GetName (fun n => n) X) [mkTypeInfo "Query"] = true ->
             X = QueryNN).
  { intros X [E|[E|[E|[]]]] Hm; injection E as <-;
      [reflexivity | discriminate Hm | discriminate Hm]. }
  intros R T [HR HmR] [HT HmT] _.
  now rewrite (Hroot R HR HmR), (Hroot T HT HmT).
Defined.

(** ** Further properties of the synthesis *)

Lemma fieldsLoop_leaves (rec : Rec) (depth maxDepth : Z) (isMutation : bool)
      (excludeFields : list string) (fields : list Field) :
  forallb leafKind fields = true ->
  forall s L pfn,
    fieldsLoop rec depth maxDepth isMutation excludeFields fields s L pfn
    = Done (s,
            L ++ map f_Name (List.filter (selected isMutation excludeFields) fields),
            pfn ++ map f_Name (List.filter (selected isMutation excludeFields) fields)).
Proof.
  induction fields as [|f rest IH]; intros Hleaf s L pfn.
  - simpl. now rewrite !app_nil_r.
  - simpl in Hleaf. apply andb_true_iff in Hleaf. destruct Hleaf as [Hf Hrest].
    cbn [fieldsLoop List.filter].
    destruct (negb isMutation && HasRequiredArg f) eqn:Ereq.
    { assert (Hs : selected isMutation excludeFields f = false)
        by (unfold selected; now rewrite Ereq).
      rewrite Hs. now apply IH. }
    destruct (stringInStrings (f_Name f) excludeFields) eqn:Eex.
    { assert (Hs : selected isMutation excludeFields f = false)
        by (unfold selected; now rewrite Ereq, Eex).
      rewrite Hs. now apply IH. }
    assert (Hs : selected isMutation excludeFields f = true)
      by (unfold selected; now rewrite Ereq, Eex).
    rewrite Hs. cbn [map]. unfold leafKind in Hf.
    destruct (GetKinds (f_Type f) !! (List.length (GetKinds (f_Type f)) - 1))
      as [k|] eqn:Ek; [|destruct (GetKinds_last (f_Type f)); congruence].
    destruct k; try discriminate Hf;
      rewrite (IH Hrest), <- !app_assoc; reflexivity.
Qed.

(** X8: a type without possible types whose fields all have a leaf kind
    other than object and interface yields, whatever the depth and the
    maximum depth, the names of its fields that are neither excluded nor left
    out for a required argument, one on a line, in ascending order of name
    (fields of one name in declared order); the call needs no nested call and
    leaves that type sorted, the rest of the registry as it was. *)
Theorem selection_of_leaf_fields :
  forall (fuel : nat) (s : Schema) (p : ptr) (T : SchemaType) (depth maxDepth : Z)
         (isMutation : bool) (excludeFields : list string),
    deref s p = Some T ->
    t_PossibleTypes T = [] ->
    forallb leafKind (t_Fields T) = true ->
    GetQueryStringFields (S fuel) s (Some p) depth maxDepth isMutation excludeFields
    = Done (Join (map f_Name
                      (List.filter (selected isMutation excludeFields)
                                   (SliceStable (t_Fields T)))),
            storeFields s p T (SliceStable (t_Fields T))).
Proof.
  intros fuel s p T depth maxDepth isMutation excludeFields HT Hp Hleaf.
  rewrite GetQueryStringFields_S. unfold body. rewrite HT.
  rewrite fieldsLoop_leaves; [|now rewrite forallb_SliceStable].
  rewrite Hp. reflexivity.
Qed.

Lemma selection_of_shelf :
  deref shelves 0 = Some Shelf /\
  t_PossibleTypes Shelf = [] /\
  forallb leafKind (t_Fields Shelf) = true /\
  GetQueryStringFields 1 shelves (Some 0) 0 0 false ["width"]
  = Done (Join (map f_Name
                    (List.filter (selected false ["width"])
                                 (SliceStable (t_Fields Shelf)))),
          storeFields shelves 0 Shelf (SliceStable (t_Fields Shelf))).
Proof.
  split; [reflexivity|]. split; [reflexivity|]. split; [reflexivity|].
  apply (selection_of_leaf_fields 0 shelves 0 Shelf 0 0 false ["width"]); reflexivity.
Defined.

(** *** Excluded names

    The induction on lines once more, with what the loop knows of a field
    when it writes its line: the name is not excluded. *)

Section SelectedLinesInduction.

Variables (maxDepth : Z) (isMutation : bool) (excludeFields : list string).
Variable P : list string -> Prop.

Hypothesis P_nil : P [].
Hypothesis P_blank : P [""].
Hypothesis P_leaf :
  forall L name,
    valid_name name = true -> stringInStrings name excludeFields = false ->
    P L -> P (L ++ [name]).
Hypothesis P_field :
  forall L name k c,
    valid_name name = true -> stringInStrings name excludeFields = false ->
    P L -> P (Split c) -> P (L ++ fieldBlock name k (Split c)).
Hypothesis P_fragment :
  forall L name pfn c,
    valid_name name = true -> P L -> P (Split c) ->
    P (L ++ fragmentBlock name pfn (Split c)).

Lemma selected_lines_ind (fuel : nat) :
  forall s t depth out s',
    names_ok s = true ->
    GetQueryStringFields fuel s t depth maxDepth isMutation excludeFields
    = Done (out, s') ->
    P (Split out).
Proof.
  induction fuel as [|n IH]; intros s t depth out s' Hok Hrun; [discriminate|].
  rewrite GetQueryStringFields_S in Hrun. apply body_Done in Hrun.
  destruct Hrun as (p & T & s1 & L1 & pfn & L2 & -> & HT & HF & HP & ->).
  set (d := int_incr depth) in *.
  pose proof (names_ok_deref s p T Hok HT) as HTok.
  assert (Hok0 : names_ok (storeFields s p T (SliceStable (t_Fields T))) = true).
  { eapply evolves_names_ok; [eapply evolves_storeFields; exact HT | exact Hok]. }
  assert (Hrec : forall s0 t0 c s0',
             names_ok s0 = true ->
             GetQueryStringFields n s0 t0 d maxDepth isMutation excludeFields
             = Done (c, s0') ->
             names_ok s0' = true /\ P (Split c)).
  { intros s0 t0 c s0' Hs0 Hr. split; [|eapply IH; eassumption].
    eapply evolves_names_ok; [eapply GetQueryStringFields_evolves; exact Hr | exact Hs0]. }
  assert (H1 : names_ok s1 = true /\ P L1 /\ Forall (fun l => no_nl l = true) L1).
  { eapply (fieldsLoop_invariant _ _ _ _ _
              (fun s2 L _ => names_ok s2 = true /\ P L /\
                             Forall (fun l => no_nl l = true) L)
              (SliceStable (t_Fields T)));
      [| |apply incl_refl| |exact HF].
    - intros s2 L pfn2 field Hin _ Hex (Hs2 & HPL & HnL).
      pose proof (type_names_ok_fields T field HTok Hin) as Hv.
      repeat split; auto.
      apply Forall_app. split; [exact HnL|]. apply Forall_one. now apply valid_no_nl.
    - intros s2 L pfn2 field k q c s3 Hin _ Hex Hd _ Hr (Hs2 & HPL & HnL).
      pose proof (type_names_ok_fields T field HTok Hin) as Hv.
      destruct (Hrec _ _ _ _ Hs2 Hr) as [Hs3 HPc].
      destruct (String.eqb c ""); [auto|].
      repeat split; auto.
      apply Forall_app. split; [exact HnL | now apply fieldBlock_no_nl].
    - repeat split; auto. }
  destruct H1 as (Hs1 & HP1 & Hn1).
  assert (H2 : names_ok s' = true /\ P L2 /\ Forall (fun l => no_nl l = true) L2).
  { eapply (possibleLoop_invariant _
              (fun s2 L => names_ok s2 = true /\ P L /\
                           Forall (fun l => no_nl l = true) L)
              (t_PossibleTypes T));
      [|apply incl_refl| |exact HP]; [|auto].
    intros s2 L pt c s3 Hin Hr (Hs2 & HPL & HnL).
    pose proof (type_names_ok_possible T pt HTok Hin) as Hv.
    destruct (Hrec _ _ _ _ Hs2 Hr) as [Hs3 HPc].
    repeat split; auto.
    apply Forall_app. split; [exact HnL | now apply fragmentBlock_no_nl]. }
  destruct H2 as (_ & HP2 & Hn2).
  destruct L2 as [|a L2]; [apply P_blank|].
  rewrite Split_Join; [exact HP2 | exact Hn2 | discriminate].
Qed.

End SelectedLinesInduction.

Lemma stringInStrings_false (a b : string) (l : list string) :
  stringInStrings a l = false -> In b l -> a <> b.
Proof.
  unfold stringInStrings. intros H Hb ->.
  assert (Ht : existsb (String.eqb b) l = true)
    by (apply existsb_exists; exists b; split; [exact Hb | apply String.eqb_refl]).
  congruence.
Qed.

Lemma opener_strip (n : string) :
  valid_name n = true -> strip_tabs (n +:+ " {") = n +:+ " {".
Proof.
  intros H. destruct (valid_name_head n H) as (c & r & -> & Hc).
  destruct (name_char_plain c Hc) as (_ & Ht & _).
  change (String c r +:+ " {") with (String c (r +:+ " {")).
  cbn [strip_tabs]. now rewrite Ht.
Qed.

Lemma never_selects_tabbed (n : string) (L : list string) :
  never_selects n L -> never_selects n (map tabbed L).
Proof. unfold never_selects. induction 1; simpl; constructor; auto. Qed.

Lemma never_selects_filter (n : string) (f : string -> bool) (L : list string) :
  never_selects n L -> never_selects n (List.filter f L).
Proof.
  unfold never_selects. induction 1; simpl; [constructor|].
  destruct (f x); [constructor|]; auto.
Qed.

Lemma never_selects_plain (n l : string) :
  valid_name n = true -> strip_tabs l <> n -> opens (strip_tabs l) = false ->
  never_selects n [l].
Proof.
  intros Hn Hne Ho. apply Forall_one. split; [exact Hne|].
  intros E. rewrite E, opens_app_brace in Ho. discriminate.
Qed.

(** X9: over a registry with GraphQL names, a name of the exclusion list
    (other than __typename, which the method writes of its own) is selected
    by no line of the text, at any level of nesting, neither bare nor opening
    a block. *)
Theorem excluded_names_never_selected :
  forall (fuel : nat) (s : Schema) (t : option ptr) (depth maxDepth : Z)
         (isMutation : bool) (excludeFields : list string) (out : string)
         (s' : Schema) (n : string),
    names_ok s = true ->
    In n excludeFields ->
    valid_name n = true ->
    n <> "__typename" ->
    GetQueryStringFields fuel s t depth maxDepth isMutation excludeFields
    = Done (out, s') ->
    never_selects n (Split out).
Proof.
  intros fuel s t depth maxDepth isMutation excludeFields out s' n Hok Hin Hn Hty Hrun.
  assert (Hbrace : never_selects n ["}"]).
  { apply never_selects_plain; [exact Hn | | reflexivity].
    intros E. pose proof (valid_closes n Hn) as Hc. rewrite <- E in Hc. discriminate. }
  assert (Htn : never_selects n [tab +:+ "__typename"]).
  { apply never_selects_plain; [exact Hn | | reflexivity].
    intros E. apply Hty. now rewrite <- E. }
  apply (selected_lines_ind maxDepth isMutation excludeFields (never_selects n))
    with (fuel := fuel) (s := s) (t := t) (depth := depth) (s' := s');
    [| | | | |exact Hok|exact Hrun].
  - constructor.
  - apply never_selects_plain; [exact Hn | | reflexivity].
    intros E. rewrite <- E in Hn. discriminate.
  - intros L name Hv Hex HL. apply Forall_app. split; [exact HL|].
    apply never_selects_plain; [exact Hn | |];
      rewrite (valid_strip name Hv);
      [exact (stringInStrings_false _ _ _ Hex Hin) | now apply valid_opens].
  - intros L name k c Hv Hex HL Hc. apply Forall_app. split; [exact HL|].
    unfold fieldBlock. repeat (apply Forall_app; split).
    + apply Forall_one. rewrite (opener_strip name Hv). split.
      * intros E. pose proof (valid_opens n Hn) as Ho.
        rewrite <- E, opens_app_brace in Ho. discriminate.
      * intros E. apply append_inj_suffix in E.
        exact (stringInStrings_false _ _ _ Hex Hin E).
    + destruct k; try solve [constructor]. exact Htn.
    + now apply never_selects_tabbed.
    + exact Hbrace.
  - intros L name pfn c Hv HL Hc. apply Forall_app. split; [exact HL|].
    unfold fragmentBlock. repeat (apply Forall_app; split).
    + constructor; [|exact Htn].
      change (strip_tabs ("... on " +:+ name +:+ " {"))
        with ("... on " +:+ name +:+ " {").
      split.
      * intros E. pose proof (valid_opens n Hn) as Ho.
        rewrite <- E, fragmentHead_opens in Ho. discriminate.
      * intros E. pose proof (valid_fragment n " {" Hn) as Hf.
        rewrite <- E, fragmentHead_is_fragment in Hf. discriminate.
    + now apply never_selects_tabbed, never_selects_filter.
    + exact Hbrace.
Qed.

Lemma width_excluded_from_rooms :
  names_ok rooms = true /\
  In "width" ["width"] /\
  valid_name "width" = true /\
  "width" <> "__typename" /\
  GetQueryStringFields 2 rooms (Some 0) 0 1 false ["width"]
  = Done (Join ["name"; "shelf {"; tab +:+ "height"; "}"],
          mkSchema [Some (sortedType Room); Some (sortedType Shelf)]) /\
  never_selects "width" (Split (Join ["name"; "shelf {"; tab +:+ "height"; "}"])).
Proof.
  split; [reflexivity|]. split; [now left|]. split; [reflexivity|].
  split; [discriminate|]. split; [reflexivity|].
  apply (excluded_names_never_selected 2 rooms (Some 0) 0 1 false ["width"]
           (Join ["name"; "shelf {"; tab +:+ "height"; "}"])
           (mkSchema [Some (sortedType Room); Some (sortedType Shelf)]) "width");
    try reflexivity; [now left | discriminate].
Defined.

(** *** Calling again *)

Lemma fieldsLoop_settled (rec1 rec2 : Rec) (depth maxDepth : Z) (isMutation : bool)
      (excludeFields : list string) (z : Schema) :
  (forall x t c y, rec1 x t = Done (c, y) -> evolves x y) ->
  (forall x t c y, rec1 x t = Done (c, y) -> evolves y z -> rec2 z t = Done (c, z)) ->
  forall fields a L pfn b L' pfn',
    fieldsLoop rec1 depth maxDepth isMutation excludeFields fields a L pfn
    = Done (b, L', pfn') ->
    evolves b z ->
    fieldsLoop rec2 depth maxDepth isMutation excludeFields fields z L pfn
    = Done (z, L', pfn').
Proof.
  intros Hev Hrec.
  induction fields as [|field rest IH]; intros a L pfn b L' pfn' Hrun Hbz.
  - simpl in Hrun. now injection Hrun as <- <- <-.
  - assert (Haz : evolves a z).
    { eapply evolves_trans; [|exact Hbz]. eapply fieldsLoop_evolves; [exact Hev | exact Hrun]. }
    cbn [fieldsLoop] in Hrun |- *.
    destruct (negb isMutation && HasRequiredArg field); [eapply IH; eassumption|].
    destruct (stringInStrings (f_Name field) excludeFields); [eapply IH; eassumption|].
    destruct (GetKinds (f_Type field) !! (List.length (GetKinds (f_Type field)) - 1))
      as [k|]; [|discriminate].
    rewrite (evolves_Lookup _ _ (GetTypeName (f_Type field)) Haz).
    destruct k; try (eapply IH; eassumption);
      (destruct (depth >? maxDepth)%Z; [eapply IH; eassumption|];
       destruct (LookupTypeByName a (GetTypeName (f_Type field))) as [q|e];
       [|eapply IH; eassumption];
       destruct (rec1 a (Some q)) as [[c a1]| |] eqn:Er; try discriminate;
       assert (Ha1 : evolves a1 z)
         by (eapply evolves_trans; [|exact Hbz];
             destruct (String.eqb c "" || Nat.ltb (List.length (Split c)) 1);
             eapply fieldsLoop_evolves; [exact Hev | exact Hrun | exact Hev | exact Hrun]);
       rewrite (Hrec _ _ _ _ Er Ha1);
       destruct (String.eqb c "" || Nat.ltb (List.length (Split c)) 1);
       eapply IH; eassumption).
Qed.

Lemma possibleLoop_evolves (rec : Rec) (pfn : list string) :
  (forall s t c s', rec s t = Done (c, s') -> evolves s s') ->
  forall possibleTypes s L s' L',
    possibleLoop rec possibleTypes s L pfn = Done (s', L') -> evolves s s'.
Proof.
  intros Hrec possibleTypes s L s' L' Hrun.
  eapply (possibleLoop_invariant _ (fun s2 _ => evolves s s2) possibleTypes);
    [|apply incl_refl|apply evolves_refl|exact Hrun].
  intros s2 L0 pt c s3 _ Hr Hs2. eapply evolves_trans; [exact Hs2|]. eapply Hrec; exact Hr.
Qed.

Lemma possibleLoop_settled (rec1 rec2 : Rec) (pfn : list string) (z : Schema) :
  (forall x t c y, rec1 x t = Done (c, y) -> evolves x y) ->
  (forall x t c y, rec1 x t = Done (c, y) -> evolves y z -> rec2 z t = Done (c, z)) ->
  forall possibleTypes a L b L',
    possibleLoop rec1 possibleTypes a L pfn = Done (b, L') ->
    evolves b z ->
    possibleLoop rec2 possibleTypes z L pfn = Done (z, L').
Proof.
  intros Hev Hrec.
  induction possibleTypes as [|pt rest IH]; intros a L b L' Hrun Hbz.
  - simpl in Hrun. now injection Hrun as <- <-.
  - assert (Haz : evolves a z).
    { eapply evolves_trans; [|exact Hbz].
      eapply possibleLoop_evolves; [exact Hev | exact Hrun]. }
    cbn [possibleLoop] in Hrun |- *.
    rewrite (evolves_Lookup _ _ (tr_Name pt) Haz).
    destruct (rec1 a (ptr_of (LookupTypeByName a (tr_Name pt)))) as [[c a1]| |] eqn:Er;
      try discriminate.
    assert (Ha1 : evolves a1 z).
    { eapply evolves_trans; [|exact Hbz].
      eapply possibleLoop_evolves; [exact Hev | exact Hrun]. }
    rewrite (Hrec _ _ _ _ Er Ha1). eapply IH; eassumption.
Qed.

Lemma deref_sorted_stays (a b : Schema) (p : ptr) (T : SchemaType) :
  deref a p = Some (sortedType T) -> evolves a b -> deref b p = Some (sortedType T).
Proof.
  intros Ha Hev. pose proof (evolves_deref a b p Hev) as H. rewrite Ha in H.
  rewrite sortedType_idempotent in H. now destruct H.
Qed.

Lemma deref_storeFields (s : Schema) (p : ptr) (T : SchemaType) :
  deref s p = Some T ->
  deref (storeFields s p T (SliceStable (t_Fields T))) p = Some (sortedType T).
Proof.
  intros HT. unfold deref, storeFields; simpl.
  rewrite list_lookup_insert_eq; [reflexivity|]. eapply deref_bound; exact HT.
Qed.

Lemma storeFields_sorted (z : Schema) (p : ptr) (T : SchemaType) :
  deref z p = Some (sortedType T) ->
  storeFields z p (sortedType T) (SliceStable (t_Fields (sortedType T))) = z.
Proof.
  intros Hz. unfold storeFields.
  change (withFields (sortedType T) (SliceStable (t_Fields (sortedType T))))
    with (sortedType (sortedType T)).
  rewrite sortedType_idempotent. destruct z as [l]. simpl. f_equal.
  apply list_insert_id. unfold deref in Hz. simpl in Hz. unfold ptr in *.
  destruct (l !! p) as [[U|]|]; try discriminate. now injection Hz as ->.
Qed.

Lemma settled_call (fuel : nat) :
  forall s t depth maxDepth isMutation excludeFields out s',
    GetQueryStringFields fuel s t depth maxDepth isMutation excludeFields
    = Done (out, s') ->
    forall z, evolves s' z ->
              GetQueryStringFields fuel z t depth maxDepth isMutation excludeFields
              = Done (out, z).
Proof.
  induction fuel as [|n IH];
    intros s t depth maxDepth isMutation excludeFields out s' Hrun z Hz; [discriminate|].
  rewrite GetQueryStringFields_S in Hrun. apply body_Done in Hrun.
  destruct Hrun as (p & T & s1 & L1 & pfn & L2 & -> & HT & HF & HP & ->).
  assert (Hev : forall x t c y,
             GetQueryStringFields n x t (int_incr depth) maxDepth isMutation
                                  excludeFields = Done (c, y) -> evolves x y)
    by (intros; eapply GetQueryStringFields_evolves; eassumption).
  assert (Hrec : forall x t c y,
             GetQueryStringFields n x t (int_incr depth) maxDepth isMutation
                                  excludeFields = Done (c, y) ->
             evolves y z ->
             GetQueryStringFields n z t (int_incr depth) maxDepth isMutation
                                  excludeFields = Done (c, z))
    by (intros x t c y Hr Hy; eapply IH; eassumption).
  assert (H1 : evolves s1 s') by (eapply possibleLoop_evolves; [exact Hev | exact HP]).
  assert (H0 : evolves (storeFields s p T (SliceStable (t_Fields T))) s1)
    by (eapply fieldsLoop_evolves; [exact Hev | exact HF]).
  assert (Hzp : deref z p = Some (sortedType T)).
  { apply (deref_sorted_stays (storeFields s p T (SliceStable (t_Fields T))) z p T
             (deref_storeFields s p T HT)).
    eapply evolves_trans; [exact H0|]. eapply evolves_trans; eassumption. }
  rewrite GetQueryStringFields_S. unfold body. rewrite Hzp.
  rewrite (storeFields_sorted z p T Hzp).
  change (t_Fields (sortedType T)) with (SliceStable (t_Fields T)).
  rewrite SliceStable_idempotent.
  rewrite (fieldsLoop_settled _ _ _ _ _ _ z Hev Hrec _ _ _ _ _ _ _ HF
             (evolves_trans _ _ _ H1 Hz)).
  change (t_PossibleTypes (sortedType T)) with (t_PossibleTypes T).
  now rewrite (possibleLoop_settled _ _ _ z Hev Hrec _ _ _ _ _ HP Hz).
Qed.

(** X11: a call that returned, made again on the registry it left, returns
    the same text and leaves the registry as it is: the sorting done by the
    first call does not change what later calls select. *)
Theorem calling_again_gives_the_same :
  forall (fuel : nat) (s : Schema) (t : option ptr) (depth maxDepth : Z)
         (isMutation : bool) (excludeFields : list string) (out : string)
         (s' : Schema),
    GetQueryStringFields fuel s t depth maxDepth isMutation excludeFields
    = Done (out, s') ->
    GetQueryStringFields fuel s' t depth maxDepth isMutation excludeFields
    = Done (out, s').
Proof.
  intros fuel s t depth maxDepth isMutation excludeFields out s' Hrun.
  eapply settled_call; [exact Hrun | apply evolves_refl].
Qed.

Lemma calling_again_on_rooms :
  GetQueryStringFields 2 rooms (Some 0) 0 1 false []
  = Done (Join ["name"; "shelf {"; tab +:+ "height"; tab +:+ "width"; "}"],
          mkSchema [Some (sortedType Room); Some (sortedType Shelf)]) /\
  GetQueryStringFields 2 (mkSchema [Some (sortedType Room); Some (sortedType Shelf)])
                       (Some 0) 0 1 false []
  = Done (Join ["name"; "shelf {"; tab +:+ "height"; tab +:+ "width"; "}"],
          mkSchema [Some (sortedType Room); Some (sortedType Shelf)]).
Proof.
  split; [reflexivity|].
  apply (calling_again_gives_the_same 2 rooms (Some 0) 0 1 false []). reflexivity.
Defined.

(** *** The stored order of fields *)

Lemma entry_alike_refl (o : option SchemaType) : entry_alike o o.
Proof. destruct o; constructor. reflexivity. Qed.

Lemma alike_refl (s : Schema) : alike s s.
Proof. unfold alike. induction (Types s); constructor; [apply entry_alike_refl | assumption]. Qed.

Lemma alike_findType (name : string) (l1 l2 : list (option SchemaType)) (i : ptr) :
  Forall2 entry_alike l1 l2 -> findType name l2 i = findType name l1 i.
Proof.
  intros H. revert i. induction H as [|o1 o2 l1 l2 Ho _ IH]; intros i; [reflexivity|].
  destruct Ho as [|T1 T2 E]; simpl; [apply IH|].
  apply (f_equal t_Name) in E. simpl in E. rewrite E, IH. reflexivity.
Qed.

Lemma alike_Lookup (s1 s2 : Schema) (name : string) :
  alike s1 s2 -> LookupTypeByName s2 name = LookupTypeByName s1 name.
Proof. intros H. unfold LookupTypeByName. now rewrite (alike_findType name _ _ 0 H). Qed.

Lemma alike_deref (s1 s2 : Schema) (p : ptr) :
  alike s1 s2 ->
  match deref s1 p, deref s2 p with
  | Some T1, Some T2 => sortedType T1 = sortedType T2
  | None, None => True
  | _, _ => False
  end.
Proof.
  unfold alike, deref. generalize (Types s1) (Types s2). intros l1 l2 H. revert p.
  induction H as [|o1 o2 l1 l2 Ho _ IH]; intros p; [now destruct p|].
  destruct p as [|p]; simpl; [|apply IH]. now destruct Ho.
Qed.

Lemma alike_storeFields (s1 s2 : Schema) (p : ptr) (T1 T2 : SchemaType) :
  alike s1 s2 -> sortedType T1 = sortedType T2 ->
  alike (storeFields s1 p T1 (SliceStable (t_Fields T1)))
        (storeFields s2 p T2 (SliceStable (t_Fields T2))).
Proof.
  intros H E. unfold alike, storeFields. simpl.
  apply Forall2_insert; [exact H|].
  change (entry_alike (Some (sortedType T1)) (Some (sortedType T2))).
  rewrite E. apply entry_alike_refl.
Qed.

Section LoopsAlike.

Variables (rec1 rec2 : Rec) (depth maxDepth : Z) (isMutation : bool).
Variable excludeFields : list string.

Hypothesis rec_alike :
  forall a b t, alike a b -> run_rel same_selection (rec1 a t) (rec2 b t).

Lemma fieldsLoop_alike (fields : list Field) :
  forall s1 s2 L pfn,
    alike s1 s2 ->
    run_rel (fun r1 r2 => alike (fst (fst r1)) (fst (fst r2)) /\
                          snd (fst r1) = snd (fst r2) /\ snd r1 = snd r2)
            (fieldsLoop rec1 depth maxDepth isMutation excludeFields fields s1 L pfn)
            (fieldsLoop rec2 depth maxDepth isMutation excludeFields fields s2 L pfn).
Proof.
  induction fields as [|field rest IH]; intros s1 s2 L pfn Hal; cbn [fieldsLoop].
  - simpl. auto.
  - destruct (negb isMutation && HasRequiredArg field); [now apply IH|].
    destruct (stringInStrings (f_Name field) excludeFields); [now apply IH|].
    destruct (GetKinds (f_Type field) !! (List.length (GetKinds (f_Type field)) - 1))
      as [k|]; [|exact I].
    rewrite (alike_Lookup _ _ (GetTypeName (f_Type field)) Hal).
    destruct k; try (now apply IH);
      (destruct (depth >? maxDepth)%Z; [now apply IH|];
       destruct (LookupTypeByName s1 (GetTypeName (f_Type field))) as [q|e];
       [|now apply IH];
       pose proof (rec_alike s1 s2 (Some q) Hal) as Hr;
       destruct (rec1 s1 (Some q)) as [[c1 a]| |], (rec2 s2 (Some q)) as [[c2 b]| |];
       simpl in Hr; try contradiction; try exact I;
       destruct Hr as [Hc Hab]; simpl in Hc, Hab; subst c2;
       destruct (String.eqb c1 "" || Nat.ltb (List.length (Split c1)) 1);
       now apply IH).
Qed.

Lemma possibleLoop_alike (possibleTypes : list TypeRef) :
  forall s1 s2 L pfn,
    alike s1 s2 ->
    run_rel (fun r1 r2 => alike (fst r1) (fst r2) /\ snd r1 = snd r2)
            (possibleLoop rec1 possibleTypes s1 L pfn)
            (possibleLoop rec2 possibleTypes s2 L pfn).
Proof.
  induction possibleTypes as [|pt rest IH]; intros s1 s2 L pfn Hal; cbn [possibleLoop].
  - simpl. auto.
  - rewrite (alike_Lookup _ _ (tr_Name pt) Hal).
    pose proof (rec_alike s1 s2 (ptr_of (LookupTypeByName s1 (tr_Name pt))) Hal) as Hr.
    destruct (rec1 s1 (ptr_of (LookupTypeByName s1 (tr_Name pt)))) as [[c1 a]| |],
             (rec2 s2 (ptr_of (LookupTypeByName s1 (tr_Name pt)))) as [[c2 b]| |];
      simpl in Hr; try contradiction; try exact I.
    destruct Hr as [Hc Hab]; simpl in Hc, Hab; subst c2. now apply IH.
Qed.

End LoopsAlike.

(** X10: the selection does not depend on the order in which a registry
    stores the fields of its types, as long as fields of one name keep their
    order: on two registries that are alike, the same call ends the same way
    and, when it returns, returns the same text and leaves them alike. *)
Theorem selection_up_to_stored_order :
  forall (fuel : nat) (s1 s2 : Schema) (t : option ptr) (depth maxDepth : Z)
         (isMutation : bool) (excludeFields : list string),
    alike s1 s2 ->
    run_rel same_selection
            (GetQueryStringFields fuel s1 t depth maxDepth isMutation excludeFields)
            (GetQueryStringFields fuel s2 t depth maxDepth isMutation excludeFields).
Proof.
  induction fuel as [|n IH];
    intros s1 s2 t depth maxDepth isMutation excludeFields Hal; [exact I|].
  rewrite !GetQueryStringFields_S. unfold body.
  destruct t as [p|]; [|exact I].
  pose proof (alike_deref s1 s2 p Hal) as Hd.
  destruct (deref s1 p) as [T1|], (deref s2 p) as [T2|]; try contradiction; [|exact I].
  assert (Ef : SliceStable (t_Fields T2) = SliceStable (t_Fields T1))
    by (apply (f_equal t_Fields) in Hd; now symmetry).
  assert (Ep : t_PossibleTypes T2 = t_PossibleTypes T1)
    by (apply (f_equal t_PossibleTypes) in Hd; now symmetry).
  pose proof (alike_storeFields s1 s2 p T1 T2 Hal Hd) as Hst.
  rewrite Ef in Hst |- *. rewrite Ep.
  assert (Hrec : forall a b t0,
             alike a b ->
             run_rel same_selection
                     (GetQueryStringFields n a t0 (int_incr depth) maxDepth isMutation
                                           excludeFields)
                     (GetQueryStringFields n b t0 (int_incr depth) maxDepth isMutation
                                           excludeFields))
    by (intros; now apply IH).
  pose proof (fieldsLoop_alike _ _ (int_incr depth) maxDepth isMutation excludeFields
                Hrec (SliceStable (t_Fields T1)) _ _ [] [] Hst) as HF.
  destruct (fieldsLoop _ _ _ _ _ _ (storeFields s1 _ _ _) _ _) as [[[a L1] pfn1]| |],
           (fieldsLoop _ _ _ _ _ _ (storeFields s2 _ _ _) _ _) as [[[b L2] pfn2]| |];
    simpl in HF; try contradiction; try exact I.
  destruct HF as (Hab & <- & <-).
  pose proof (possibleLoop_alike _ _ Hrec (t_PossibleTypes T1) a b L1 pfn1 Hab) as HP.
  destruct (possibleLoop _ _ a _ _) as [[a' L1']| |],
           (possibleLoop _ _ b _ _) as [[b' L2']| |];
    simpl in HP; try contradiction; try exact I.
  destruct HP as (Hab' & <-). split; [reflexivity | exact Hab'].
Qed.

Lemma shelf_fields_in_either_order :
  alike shelves
        (mkSchema [Some (object "Shelf" [scalarField "height" "Int";
                                         scalarField "width" "Int"])]) /\
  run_rel same_selection
          (GetQueryStringFields 1 shelves (Some 0) 0 1 false [])
          (GetQueryStringFields
             1 (mkSchema [Some (object "Shelf" [scalarField "height" "Int";
                                                scalarField "width" "Int"])])
             (Some 0) 0 1 false []).
Proof.
  assert (H : alike shelves
                    (mkSchema [Some (object "Shelf" [scalarField "height" "Int";
                                                     scalarField "width" "Int"])]))
    by (repeat constructor).
  split; [exact H|].
  apply (selection_up_to_stored_order 1 shelves _ (Some 0) 0 1 false [] H).
Defined.

(** *** Fields already selected on the parent *)

Lemma possibleLoop_filtered (rec : Rec) (pfn : list string) :
  forall possibleTypes s L s' L',
    possibleLoop rec possibleTypes s L pfn = Done (s', L') ->
    exists blocks,
      L' = L ++ concat blocks /\
      Forall2 (fun pt blk =>
                 exists inner,
                   blk = fragmentOf (tr_Name pt) inner /\
                   Forall (fun b => stringInStrings b pfn = false) inner)
              possibleTypes blocks.
Proof.
  induction possibleTypes as [|pt rest IH]; intros s L s' L' Hrun; simpl in Hrun.
  - inversion Hrun; subst. exists []. split; [now rewrite app_nil_r | constructor].
  - destruct (rec s (ptr_of (LookupTypeByName s (tr_Name pt)))) as [[c s1]| |];
      try discriminate.
    destruct (IH _ _ _ _ Hrun) as (blocks & -> & Hb).
    exists (fragmentBlock (tr_Name pt) pfn (Split c) :: blocks). split.
    + simpl. now rewrite <- app_assoc.
    + constructor; [|exact Hb].
      exists (List.filter (fun b => negb (stringInStrings b pfn)) (Split c)).
      split; [reflexivity|].
      apply List.Forall_forall. intros b Hb'. apply filter_In in Hb'.
      destruct Hb' as [_ Hb']. now apply negb_true_iff in Hb'.
Qed.

Lemma fieldsLoop_keeps_names (rec : Rec) (depth maxDepth : Z) (isMutation : bool)
      (excludeFields : list string) (name : string) (fields : list Field) :
  forall s L pfn s' L' pfn',
    fieldsLoop rec depth maxDepth isMutation excludeFields fields s L pfn
    = Done (s', L', pfn') ->
    In name pfn -> In name pfn'.
Proof.
  intros s L pfn s' L' pfn' Hrun Hin.
  eapply (fieldsLoop_invariant _ _ _ _ _ (fun _ _ pfn0 => In name pfn0) fields);
    [| |apply incl_refl|exact Hin|exact Hrun].
  - intros. apply in_or_app. now left.
  - intros s2 L0 pfn0 field k q c s3 _ _ _ _ _ _ H. exact H.
Qed.

Lemma selected_true (isMutation : bool) (excludeFields : list string) (f : Field) :
  selected isMutation excludeFields f = true ->
  negb isMutation && HasRequiredArg f = false /\
  stringInStrings (f_Name f) excludeFields = false.
Proof.
  unfold selected. rewrite andb_true_iff, !negb_true_iff. auto.
Qed.

(** X12: a field of leaf kind that the call selects on a type is not
    selected again in the inline fragments of that type: when the call
    returns, its text ends with one fragment per possible type, and no line of
    a fragment, taken one tab in, is the name of that field. *)
Theorem parent_fields_not_repeated_in_fragments :
  forall (fuel : nat) (s : Schema) (p : ptr) (T : SchemaType) (f : Field)
         (depth maxDepth : Z) (isMutation : bool) (excludeFields : list string)
         (out : string) (s' : Schema),
    deref s p = Some T ->
    In f (t_Fields T) ->
    selected isMutation excludeFields f = true ->
    leafKind f = true ->
    GetQueryStringFields fuel s (Some p) depth maxDepth isMutation excludeFields
    = Done (out, s') ->
    exists pre blocks,
      out = Join (pre ++ concat blocks) /\
      In (f_Name f) pre /\
      Forall2 (fun pt blk =>
                 exists inner,
                   blk = fragmentOf (tr_Name pt) inner /\ ~ In (f_Name f) inner)
              (t_PossibleTypes T) blocks.
Proof.
  intros fuel s p T f depth maxDepth isMutation excludeFields out s'
         HT Hf Hsel Hleaf Hrun.
  destruct (selected_true _ _ _ Hsel) as [Hreq Hex].
  destruct fuel as [|n]; [discriminate|].
  rewrite GetQueryStringFields_S in Hrun. apply body_Done in Hrun.
  destruct Hrun as (p' & T' & s1 & L1 & pfn & L2 & [= <-] & HT' & HF & HP & ->).
  rewrite HT in HT'. injection HT' as <-.
  assert (Hin : In (f_Name f) pfn /\ In (f_Name f) L1).
  { apply SliceStable_In, in_split in Hf. destruct Hf as (pre & post & Esort).
    remember (storeFields s p T (SliceStable (t_Fields T))) as st eqn:Est in HF.
    rewrite Esort, fieldsLoop_app in HF.
    destruct (fieldsLoop _ _ _ _ _ pre _ _ _) as [[[sa La] pfna]| |]; try discriminate.
    cbn [fieldsLoop] in HF. rewrite Hreq, Hex in HF. unfold leafKind in Hleaf.
    destruct (GetKinds (f_Type f) !! (List.length (GetKinds (f_Type f)) - 1))
      as [k|]; [|discriminate].
    destruct k; try discriminate Hleaf;
      (split;
       [eapply fieldsLoop_keeps_names; [exact HF|]
       |eapply fieldsLoop_keeps; [exact HF|]];
       apply in_or_app; right; now left). }
  destruct Hin as [Hpfn HL1].
  destruct (possibleLoop_filtered _ _ _ _ _ _ _ HP) as (blocks & -> & Hb).
  exists L1, blocks. split; [reflexivity|]. split; [exact HL1|].
  eapply Forall2_impl; [exact Hb|].
  intros pt blk (inner & -> & Hinner). exists inner. split; [reflexivity|].
  intros Hc. rewrite List.Forall_forall in Hinner. specialize (Hinner _ Hc).
  unfold stringInStrings in Hinner.
  assert (Ht : existsb (String.eqb (f_Name f)) pfn = true)
    by (apply existsb_exists; exists (f_Name f); split;
        [exact Hpfn | apply String.eqb_refl]).
  congruence.
Qed.

Lemma name_not_repeated_for_animals :
  deref animals 0 = Some Animal /\
  In (scalarField "name" "String") (t_Fields Animal) /\
  exists out s' pre blocks,
    GetQueryStringFields 2 animals (Some 0) 0 1 false [] = Done (out, s') /\
    out = Join (pre ++ concat blocks) /\
    In "name" pre /\
    Forall2 (fun pt blk =>
               exists inner, blk = fragmentOf (tr_Name pt) inner /\ ~ In "name" inner)
            (t_PossibleTypes Animal) blocks.
Proof.
  split; [reflexivity|]. split; [now left|].
  destruct (parent_fields_not_repeated_in_fragments
              2 animals 0 Animal (scalarField "name" "String") 0 1 false []
              (Join ["age"; "name";
                     "... on Dog {"; tab +:+ "__typename"; tab +:+ "breed"; "}";
                     "... on Cat {"; tab +:+ "__typename"; tab +:+ "indoor"; "}"])
              (mkSchema [Some (sortedType Animal); Some (sortedType Dog);
                         Some (sortedType Cat)]))
    as (pre & blocks & H); try reflexivity; [now left|].
  eexists _, _, pre, blocks. split; [reflexivity | exact H].
Defined.

(** *** Layout *)

Lemma layout_app (L1 L2 : list string) :
  forall d,
    layout d (L1 ++ L2)
    = match layout d L1 with
      | Some d1 => layout d1 L2
      | None => None
      end.
Proof.
  induction L1 as [|l L1 IH]; intros d; [reflexivity|].
  cbn [app layout].
  destruct (closes l).
  - destruct d as [|d']; [reflexivity|]. destruct (Nat.eqb (tabs l) d'); [apply IH | reflexivity].
  - destruct (Nat.eqb (tabs l) d); [|reflexivity]. destruct (opens l); apply IH.
Qed.

Lemma layout_tabbed (L : list string) :
  forall d d', layout d L = Some d' -> layout (S d) (map tabbed L) = Some (S d').
Proof.
  induction L as [|l L IH]; intros d d' H; [now injection H as <-|].
  cbn [map layout] in H |- *. rewrite closes_tabbed, opens_tabbed.
  change (tabs (tabbed l)) with (S (tabs l)).
  destruct (closes l).
  - destruct d as [|d0]; [discriminate|].
    change (Nat.eqb (S (tabs l)) (S d0)) with (Nat.eqb (tabs l) d0).
    destruct (Nat.eqb (tabs l) d0); [now apply IH | discriminate].
  - change (Nat.eqb (S (tabs l)) (S d)) with (Nat.eqb (tabs l) d).
    destruct (Nat.eqb (tabs l) d); [|discriminate].
    destruct (opens l); now apply IH.
Qed.

Lemma layout_filter (f : string -> bool) (L : list string) :
  (forall b, f b = false -> closes b = false /\ opens b = false) ->
  forall d d', layout d L = Some d' -> layout d (List.filter f L) = Some d'.
Proof.
  intros Hf. induction L as [|l L IH]; intros d d' H; [exact H|].
  cbn [List.filter]. destruct (f l) eqn:Efl.
  - cbn [layout] in H |- *.
    destruct (closes l).
    + destruct d as [|d0]; [discriminate|].
      destruct (Nat.eqb (tabs l) d0); [now apply IH | discriminate].
    + destruct (Nat.eqb (tabs l) d); [|discriminate].
      destruct (opens l); now apply IH.
  - destruct (Hf l Efl) as [Hc Ho]. cbn [layout] in H. rewrite Hc, Ho in H.
    destruct (Nat.eqb (tabs l) d); [now apply IH | discriminate].
Qed.

Lemma valid_tabs (n suffix : string) : valid_name n = true -> tabs (n +:+ suffix) = 0.
Proof.
  intros H. destruct (valid_name_head n H) as (c & r & -> & Hc).
  destruct (name_char_plain c Hc) as (_ & Ht & _).
  change (String c r +:+ suffix) with (String c (r +:+ suffix)).
  cbn [tabs]. now rewrite Ht.
Qed.

Lemma append_empty (n : string) : n +:+ "" = n.
Proof.
  induction n as [|c n IH]; [reflexivity|].
  change (String c n +:+ "") with (String c (n +:+ "")). now rewrite IH.
Qed.

(** A block at the top level: its opening line, lines that are laid out
    one tab in, its closing brace. *)
Lemma layout_block (o : string) (X : list string) :
  closes o = false -> tabs o = 0 -> opens o = true ->
  layout 1 X = Some 1 ->
  layout 0 (o :: X ++ ["}"]) = Some 0.
Proof.
  intros Hc Ht Ho HX. cbn [layout]. rewrite Hc, Ht, Ho. simpl.
  now rewrite layout_app, HX.
Qed.

(** X13: over a registry with GraphQL names, the text of a returning call is
    well laid out: read line by line from no open block, every closing brace
    closes a block that is open and stands at the indentation of the line that
    opened it, every other line is indented by exactly one tab for each block
    open around it, and no block is left open at the end. *)
Theorem selection_well_laid_out :
  forall (fuel : nat) (s : Schema) (t : option ptr) (depth maxDepth : Z)
         (isMutation : bool) (excludeFields : list string) (out : string)
         (s' : Schema),
    names_ok s = true ->
    GetQueryStringFields fuel s t depth maxDepth isMutation excludeFields
    = Done (out, s') ->
    layout 0 (Split out) = Some 0.
Proof.
  intros fuel s t depth maxDepth isMutation excludeFields out s' Hok Hrun.
  apply (selection_lines_ind maxDepth isMutation excludeFields
           (fun _ _ L => layout 0 L = Some 0))
    with (fuel := fuel) (s := s) (t := t) (depth := depth) (s' := s');
    [| | | | |exact Hok|exact Hrun].
  - reflexivity.
  - reflexivity.
  - intros _ _ L name Hv HL. rewrite layout_app, HL. cbn [layout].
    rewrite (valid_closes name Hv), (valid_opens name Hv).
    rewrite <- (append_empty name) at 1. now rewrite (valid_tabs name "" Hv).
  - intros _ _ L name k c Hv _ _ HL Hc. rewrite layout_app, HL.
    pose proof (layout_tabbed _ _ _ Hc) as Hsub. unfold fieldBlock.
    destruct k;
      first [ apply (layout_block _ (map tabbed (Split c)));
              [now apply opener_closes | now apply valid_tabs
              | apply opens_app_brace | exact Hsub]
            | apply (layout_block _ ((tab +:+ "__typename") :: map tabbed (Split c)));
              [now apply opener_closes | now apply valid_tabs
              | apply opens_app_brace | exact Hsub] ].
  - intros _ _ L name pfn c Hv Hpfn HL Hc. rewrite layout_app, HL.
    unfold fragmentBlock.
    apply (layout_block _ ((tab +:+ "__typename") :: map tabbed _));
      [apply fragmentHead_closes | reflexivity | apply fragmentHead_opens|].
    change (layout 1 (map tabbed
                          (List.filter (fun b => negb (stringInStrings b pfn))
                                       (Split c)))
            = Some 1).
    apply layout_tabbed, layout_filter; [|exact Hc].
    intros b Hb. pose proof (parent_names_plain pfn b Hpfn Hb) as Hvb.
    split; [now apply valid_closes | now apply valid_opens].
Qed.

Lemma rooms_well_laid_out :
  names_ok rooms = true /\
  GetQueryStringFields 2 rooms (Some 0) 0 1 false []
  = Done (Join ["name"; "shelf {"; tab +:+ "height"; tab +:+ "width"; "}"],
          mkSchema [Some (sortedType Room); Some (sortedType Shelf)]) /\
  layout 0 (Split (Join ["name"; "shelf {"; tab +:+ "height"; tab +:+ "width"; "}"]))
  = Some 0.
Proof.
  split; [reflexivity|]. split; [reflexivity|].
  apply (selection_well_laid_out 2 rooms (Some 0) 0 1 false []
           (Join ["name"; "shelf {"; tab +:+ "height"; tab +:+ "width"; "}"])
           (mkSchema [Some (sortedType Room); Some (sortedType Shelf)]));
    reflexivity.
Defined.

(** *** Where a call can panic *)

Lemma possibles_resolve_spec (s : Schema) : possibles_resolve s = true -> resolving s.
Proof.
  unfold possibles_resolve. rewrite forallb_forall. intros H p T pt HT Hin.
  specialize (H p). rewrite HT, forallb_forall in H.
  assert (Hp : In p (seq 0 (List.length (Types s))))
    by (apply in_seq; pose proof (deref_bound s p T HT); lia).
  specialize (H Hp pt Hin).
  destruct (LookupTypeByName s (tr_Name pt)) as [q|]; [now exists q | discriminate].
Qed.

Lemma resolving_evolves (s s' : Schema) : evolves s s' -> resolving s -> resolving s'.
Proof.
  intros Hev Hr p T' pt HT' Hin.
  pose proof (evolves_deref s s' p Hev) as Hd.
  destruct (deref s p) as [T|] eqn:ET; [|congruence].
  rewrite (evolves_Lookup _ _ _ Hev). apply (Hr p T pt ET).
  destruct Hd as [Hd|Hd]; rewrite Hd in HT'; injection HT' as <-; exact Hin.
Qed.

Section LoopsDoNotPanic.

Variables (rec : Rec) (depth maxDepth : Z) (isMutation : bool).
Variable excludeFields : list string.
Variable G : Schema -> Prop.

Hypothesis rec_keeps : forall s t c s', G s -> rec s t = Done (c, s') -> G s'.

Lemma fieldsLoop_no_panic (fields : list Field) :
  (forall s q, G s -> (exists U, deref s q = Some U) -> rec s (Some q) <> Panic) ->
  forall s L pfn,
    G s ->
    fieldsLoop rec depth maxDepth isMutation excludeFields fields s L pfn <> Panic /\
    forall s' L' pfn',
      fieldsLoop rec depth maxDepth isMutation excludeFields fields s L pfn
      = Done (s', L', pfn') -> G s'.
Proof.
  intros Hrec. induction fields as [|field rest IH]; intros s L pfn HG; cbn [fieldsLoop].
  - split; [discriminate | intros s' L' pfn' [= <- _ _]; exact HG].
  - destruct (negb isMutation && HasRequiredArg field); [now apply IH|].
    destruct (stringInStrings (f_Name field) excludeFields); [now apply IH|].
    destruct (GetKinds_last (f_Type field)) as (k & ->).
    destruct k; try (now apply IH);
      (destruct (depth >? maxDepth)%Z; [now apply IH|];
       destruct (LookupTypeByName s (GetTypeName (f_Type field))) as [q|e] eqn:El;
       [|now apply IH];
       pose proof (Hrec s q HG (Lookup_deref _ _ _ El)) as Hq;
       destruct (rec s (Some q)) as [[c s1]| |] eqn:Er;
       [|congruence|split; [discriminate | intros s' L' pfn' [=]]];
       pose proof (rec_keeps _ _ _ _ HG Er) as HG1;
       destruct (String.eqb c "" || Nat.ltb (List.length (Split c)) 1);
       now apply IH).
Qed.

Lemma possibleLoop_no_panic (possibleTypes : list TypeRef) :
  (forall s pt, G s -> In pt possibleTypes ->
                rec s (ptr_of (LookupTypeByName s (tr_Name pt))) <> Panic) ->
  forall s L pfn,
    G s ->
    possibleLoop rec possibleTypes s L pfn <> Panic.
Proof.
  induction possibleTypes as [|pt rest IH]; intros Hrec s L pfn HG; cbn [possibleLoop];
    [discriminate|].
  pose proof (Hrec s pt HG (or_introl eq_refl)) as Hq.
  destruct (rec s (ptr_of (LookupTypeByName s (tr_Name pt)))) as [[c s1]| |] eqn:Er;
    [|congruence|discriminate].
  apply IH; [|exact (rec_keeps _ _ _ _ HG Er)].
  intros s2 pt2 HG2 Hin. apply Hrec; [exact HG2 | now right].
Qed.

End LoopsDoNotPanic.

Lemma no_panic_when_resolving (fuel : nat) :
  forall s p T depth maxDepth isMutation excludeFields,
    resolving s ->
    deref s p = Some T ->
    GetQueryStringFields fuel s (Some p) depth maxDepth isMutation excludeFields
    <> Panic.
Proof.
  induction fuel as [|n IH];
    intros s p T depth maxDepth isMutation excludeFields Hr HT; [discriminate|].
  rewrite GetQueryStringFields_S. unfold body. rewrite HT.
  set (G := fun s2 : Schema => evolves s s2).
  set (rec := fun (s' : Schema) (t' : option ptr) =>
                GetQueryStringFields n s' t' (int_incr depth) maxDepth isMutation
                                     excludeFields).
  assert (Hkeep : forall s0 t c s0', G s0 -> rec s0 t = Done (c, s0') -> G s0').
  { intros s0 t c s0' HG Hrun. eapply evolves_trans; [exact HG|].
    eapply GetQueryStringFields_evolves; exact Hrun. }
  assert (Hcall : forall s0 q, G s0 -> (exists U, deref s0 q = Some U) ->
                               rec s0 (Some q) <> Panic).
  { intros s0 q HG [U HU]. eapply IH; [|exact HU].
    eapply resolving_evolves; [exact HG | exact Hr]. }
  assert (HG0 : G (storeFields s p T (SliceStable (t_Fields T))))
    by (eapply evolves_storeFields; exact HT).
  destruct (fieldsLoop_no_panic rec (int_incr depth) maxDepth isMutation excludeFields
              G Hkeep (SliceStable (t_Fields T)) Hcall _ [] [] HG0) as [Hnp Hdone].
  destruct (fieldsLoop rec _ _ _ _ _ _ _ _) as [[[s1 L1] pfn]| |] eqn:EF;
    [|congruence|discriminate].
  pose proof (Hdone _ _ _ eq_refl) as HG1.
  assert (Hposs : possibleLoop rec (t_PossibleTypes T) s1 L1 pfn <> Panic).
  { apply (possibleLoop_no_panic rec G Hkeep); [|exact HG1].
    intros s2 pt HG2 Hin.
    destruct (Hr p T pt HT Hin) as (q & Hl).
    rewrite (evolves_Lookup _ _ _ HG2), Hl. simpl.
    apply Hcall; [exact HG2|].
    destruct (Lookup_deref _ _ _ Hl) as (U & HU).
    destruct (evolves_possible _ _ _ _ HG2 HU) as (U' & HU' & _). now exists U'. }
  destruct (possibleLoop rec _ _ _ _) as [[s2 L2]| |]; [discriminate|congruence|discriminate].
Qed.

(** X14: apart from a nil receiver, an unresolved possible type is the only
    way to a panic: over a registry in which every possible type of every
    type resolves, a call on a type of the registry never panics, whatever
    else fails to resolve among the types of its fields. *)
Theorem panics_only_on_unresolved_possible_types :
  forall (fuel : nat) (s : Schema) (p : ptr) (T : SchemaType) (depth maxDepth : Z)
         (isMutation : bool) (excludeFields : list string),
    possibles_resolve s = true ->
    deref s p = Some T ->
    GetQueryStringFields fuel s (Some p) depth maxDepth isMutation excludeFields
    <> Panic.
Proof.
  intros fuel s p T depth maxDepth isMutation excludeFields Hr HT.
  eapply no_panic_when_resolving; [now apply possibles_resolve_spec | exact HT].
Qed.

Lemma widgets_do_not_panic :
  possibles_resolve (mkSchema [Some Query]) = true /\
  deref (mkSchema [Some Query]) 0 = Some Query /\
  LookupTypeByName (mkSchema [Some Query]) "Widget" = Err (NotFound "Widget") /\
  GetQueryStringFields 2 (mkSchema [Some Query]) (Some 0) 0 1 false [] <> Panic.
Proof.
  split; [reflexivity|]. split; [reflexivity|]. split; [reflexivity|].
  apply (panics_only_on_unresolved_possible_types
           2 (mkSchema [Some Query]) 0 Query 0 1 false []); reflexivity.
Defined.

(** ** Expansion without roots *)

(** X15: when the descriptors name no type of the registry (so also when
    there are none, or the registry is empty), the expansion returns the empty
    list, without error. *)
Theorem ExpandTypes_without_roots :
  forall (formatGoName : string -> string) (s : Schema) (types : list TypeInfo),
    (forall T, In (Some T) (Types s) ->
               typeNameInTypes (GetName formatGoName T) types = false) ->
    ExpandTypes formatGoName (Some s) types = Done (Ok []).
Proof.
  intros formatGoName s types Hno. unfold ExpandTypes.
  destruct (expandLoop_spec formatGoName s types (Types s) [])
    as (out & -> & _ & _ & _ & H4).
  destruct out as [|T out]; [reflexivity|]. exfalso.
  destruct (H4 T (or_introl eq_refl)) as [[]|[[H Hm]|(R & HR & Hm & _)]].
  - rewrite (Hno T H) in Hm. discriminate.
  - rewrite (Hno R HR) in Hm. discriminate.
Qed.

Lemma ExpandTypes_of_widgets_without_roots :
  (forall T, In (Some T) (Types widgetsNN) ->
             typeNameInTypes (GetName (fun n => n) T) [] = false) /\
  ExpandTypes (fun n => n) (Some widgetsNN) [] = Done (Ok []).
Proof.
  assert (H : forall T, In (Some T) (Types widgetsNN) ->
                        typeNameInTypes (GetName (fun n => n) T) [] = false)
    by reflexivity.
  split; [exact H|].
  apply (ExpandTypes_without_roots (fun n => n) widgetsNN [] H).
Defined.

(** * Fields with required arguments, at every depth *)

Lemma selectableName_evolves (s s2 : Schema) (n : string) :
  evolves s s2 -> selectableName s2 n -> selectableName s n.
Proof.
  intros He (p & T & f & HT & Hf & Hr & En).
  pose proof (evolves_deref s s2 p He) as Hd.
  destruct (deref s p) as [T0|] eqn:E0; [|congruence].
  exists p, T0, f. rewrite E0. repeat split; auto.
  destruct Hd as [Hd|Hd]; rewrite Hd in HT; injection HT as <-; [exact Hf|].
  now apply SliceStable_In.
Qed.

Lemma query_line_evolves (s s2 : Schema) (l : string) :
  evolves s s2 -> query_line s2 l -> query_line s l.
Proof.
  intros He [H|[H|[H|[H|(n & Hn & H)]]]]; unfold query_line; auto.
  do 4 right. exists n. split; [|exact H]. eapply selectableName_evolves; eassumption.
Qed.

Lemma query_line_tabbed (s : Schema) (L : list string) :
  Forall (query_line s) L -> Forall (query_line s) (map tabbed L).
Proof. induction 1; simpl; constructor; auto. Qed.

Lemma query_line_filter (s : Schema) (f : string -> bool) (L : list string) :
  Forall (query_line s) L -> Forall (query_line s) (List.filter f L).
Proof.
  induction 1; simpl; [constructor|]. destruct (f x); [constructor|]; auto.
Qed.

Lemma query_line_brace (s : Schema) : query_line s "}".
Proof. right. now left. Qed.

Lemma query_line_typename (s : Schema) : query_line s (tab +:+ "__typename").
Proof. right. right. now left. Qed.

Lemma query_line_fragment (s : Schema) (x : string) :
  query_line s ("... on " +:+ x +:+ " {").
Proof. do 3 right. left. now exists x. Qed.

(** The lines of a query come from fields without a required argument, at
    every depth: the recursive calls are queries too. *)
Lemma query_lines_deep (maxDepth : Z) (excludeFields : list string) (fuel : nat) :
  forall s t depth out s',
    names_ok s = true ->
    GetQueryStringFields fuel s t depth maxDepth false excludeFields = Done (out, s') ->
    Forall (query_line s) (Split out).
Proof.
  induction fuel as [|n IH]; intros s t depth out s' Hok Hrun; [discriminate|].
  rewrite GetQueryStringFields_S in Hrun. apply body_Done in Hrun.
  destruct Hrun as (p & T & s1 & L1 & pfn & L2 & -> & HT & HF & HP & ->).
  set (d := int_incr depth) in *.
  pose proof (names_ok_deref s p T Hok HT) as HTok.
  pose proof (evolves_storeFields s p T HT) as He0.
  assert (Hrec : forall s0 t0 c s0',
             names_ok s0 = true -> evolves s s0 ->
             GetQueryStringFields n s0 t0 d maxDepth false excludeFields
             = Done (c, s0') ->
             names_ok s0' = true /\ evolves s s0' /\ Forall (query_line s) (Split c)).
  { intros s0 t0 c s0' Hs0 He Hr.
    pose proof (GetQueryStringFields_evolves _ _ _ _ _ _ _ _ _ Hr) as He'.
    split; [exact (evolves_names_ok _ _ He' Hs0)|].
    split; [exact (evolves_trans _ _ _ He He')|].
    eapply List.Forall_impl; [|exact (IH _ _ _ _ _ Hs0 Hr)].
    intros l Hl. exact (query_line_evolves _ _ _ He Hl). }
  assert (H1 : names_ok s1 = true /\ evolves s s1 /\ Forall (query_line s) L1 /\
               Forall (fun l => no_nl l = true) L1).
  { eapply (fieldsLoop_invariant _ _ _ _ _
              (fun s2 L _ => names_ok s2 = true /\ evolves s s2 /\
                             Forall (query_line s) L /\
                             Forall (fun l => no_nl l = true) L)
              (SliceStable (t_Fields T)));
      [| |apply incl_refl| |exact HF].
    - intros s2 L pfn2 field Hin Hreq _ (Hs2 & He2 & HqL & HnL).
      pose proof (type_names_ok_fields T field HTok Hin) as Hv.
      repeat split; auto; apply Forall_app; (split; [assumption|]); apply Forall_one.
      + do 4 right. exists (f_Name field). split; [|left; now apply valid_strip].
        exists p, T, field. repeat split; auto. now apply SliceStable_In.
      + now apply valid_no_nl.
    - intros s2 L pfn2 field k q c s3 Hin Hreq _ Hd _ Hr (Hs2 & He2 & HqL & HnL).
      pose proof (type_names_ok_fields T field HTok Hin) as Hv.
      destruct (Hrec _ _ _ _ Hs2 He2 Hr) as (Hs3 & He3 & Hqc).
      destruct (String.eqb c ""); [auto|].
      repeat split; auto; apply Forall_app; (split; [assumption|]);
        [|now apply fieldBlock_no_nl].
      unfold fieldBlock. repeat (apply Forall_app; split).
      + apply Forall_one. do 4 right. exists (f_Name field).
        split; [|right; now apply opener_strip].
        exists p, T, field. repeat split; auto. now apply SliceStable_In.
      + destruct k; try constructor; [apply query_line_typename | constructor].
      + now apply query_line_tabbed.
      + apply Forall_one, query_line_brace.
    - repeat split; auto.
      eapply evolves_names_ok; [exact He0 | exact Hok]. }
  destruct H1 as (Hs1 & He1 & Hq1 & Hn1).
  assert (H2 : names_ok s' = true /\ evolves s s' /\ Forall (query_line s) L2 /\
               Forall (fun l => no_nl l = true) L2).
  { eapply (possibleLoop_invariant _
              (fun s2 L => names_ok s2 = true /\ evolves s s2 /\
                           Forall (query_line s) L /\
                           Forall (fun l => no_nl l = true) L)
              (t_PossibleTypes T));
      [|apply incl_refl| |exact HP]; [|auto].
    intros s2 L pt c s3 Hin Hr (Hs2 & He2 & HqL & HnL).
    pose proof (type_names_ok_possible T pt HTok Hin) as Hv.
    destruct (Hrec _ _ _ _ Hs2 He2 Hr) as (Hs3 & He3 & Hqc).
    repeat split; auto; apply Forall_app; (split; [assumption|]);
      [|now apply fragmentBlock_no_nl].
    unfold fragmentBlock. repeat (apply Forall_app; split).
    - constructor; [apply query_line_fragment|].
      apply Forall_one, query_line_typename.
    - now apply query_line_tabbed, query_line_filter.
    - apply Forall_one, query_line_brace. }
  destruct H2 as (_ & _ & Hq2 & Hn2).
  destruct L2 as [|a L2]; [apply Forall_one; now left|].
  rewrite Split_Join; [exact Hq2 | exact Hn2 | discriminate].
Qed.

(** ** A query runs as if those fields were not there *)

Lemma less_false_trans (x z w : Field) :
  less z x = false -> less w z = false -> less w x = false.
Proof.
  unfold less, String.ltb. intros Hzx Hwz.
  destruct (String.compare (f_Name w) (f_Name x)) eqn:Ewx; try reflexivity. exfalso.
  rewrite (String.compare_antisym (f_Name z) (f_Name x)) in Hzx.
  destruct (String.compare (f_Name x) (f_Name z)) eqn:Exz; simpl in Hzx;
    try discriminate Hzx.
  - apply String.compare_eq_iff in Exz. rewrite Exz in Ewx. rewrite Ewx in Hwz.
    discriminate.
  - apply OrderedTypeEx.String_as_OT.cmp_lt in Ewx, Exz.
    pose proof (OrderedTypeEx.String_as_OT.lt_trans _ _ _ Ewx Exz) as Hlt.
    apply OrderedTypeEx.String_as_OT.cmp_lt in Hlt.
    unfold OrderedTypeEx.String_as_OT.cmp in Hlt. rewrite Hlt in Hwz. discriminate.
Qed.

Lemma ordered_above (x z : Field) (l : list Field) :
  ordered (z :: l) -> less z x = false ->
  forall w, In w (z :: l) -> less w x = false.
Proof.
  revert z. induction l as [|y l IH]; intros z Ho Hzx w [<-|Hw]; auto; [destruct Hw|].
  destruct Ho as [Hyz Ho]. apply (IH y Ho); [|exact Hw].
  exact (less_false_trans x z y Hzx Hyz).
Qed.

Lemma insertField_first (x : Field) (l : list Field) :
  (forall w, In w l -> less w x = false) -> insertField x l = x :: l.
Proof.
  destruct l as [|y l]; [reflexivity|]. intros H. simpl.
  now rewrite (H y (or_introl eq_refl)).
Qed.

Lemma filter_insertField (k : Field -> bool) (x : Field) (l : list Field) :
  ordered l ->
  List.filter k (insertField x l)
  = if k x then insertField x (List.filter k l) else List.filter k l.
Proof.
  induction l as [|z l IH]; intros Ho.
  - simpl. now destruct (k x).
  - assert (Hrest : ordered l) by (destruct l; [exact I | apply Ho]).
    cbn [insertField]. destruct (less z x) eqn:Ezx.
    + cbn [List.filter]. rewrite (IH Hrest).
      destruct (k z), (k x); try reflexivity. cbn [insertField]. now rewrite Ezx.
    + change (List.filter k (x :: z :: l))
        with (if k x then x :: List.filter k (z :: l) else List.filter k (z :: l)).
      destruct (k x); [|reflexivity].
      symmetry. apply insertField_first. intros w Hw. apply filter_In in Hw.
      exact (ordered_above x z l Ho Ezx w (proj1 Hw)).
Qed.

(** Sorting after taking fields out is taking them out after sorting. *)
Lemma SliceStable_filter (k : Field -> bool) (l : list Field) :
  SliceStable (List.filter k l) = List.filter k (SliceStable l).
Proof.
  induction l as [|x l IH]; [reflexivity|]. cbn [SliceStable List.filter].
  rewrite (filter_insertField k x _ (SliceStable_ordered l)).
  destruct (k x); [cbn [SliceStable]|]; now rewrite IH.
Qed.

Lemma deref_queryView (s : Schema) (p : ptr) :
  deref (queryView s) p = option_map withoutRequired (deref s p).
Proof.
  unfold deref, queryView; simpl. generalize (Types s). intros l. revert p.
  induction l as [|o l IH]; intros [|p]; simpl; try reflexivity; [|apply IH].
  now destruct o.
Qed.

Lemma findType_queryView (name : string) (l : list (option SchemaType)) (i : ptr) :
  findType name (map (option_map withoutRequired) l) i = findType name l i.
Proof.
  revert i. induction l as [|[T|] l IH]; intros i; simpl; [reflexivity| |apply IH].
  now rewrite IH.
Qed.

Lemma Lookup_queryView (s : Schema) (name : string) :
  LookupTypeByName (queryView s) name = LookupTypeByName s name.
Proof. unfold LookupTypeByName, queryView; simpl. now rewrite findType_queryView. Qed.

Lemma storeFields_queryView (s : Schema) (p : ptr) (T : SchemaType) (fs : list Field) :
  queryView (storeFields s p T fs)
  = storeFields (queryView s) p (withoutRequired T)
                (List.filter (fun f => negb (HasRequiredArg f)) fs).
Proof.
  unfold queryView, storeFields; simpl. f_equal. generalize (Types s). intros l.
  revert p. induction l as [|o l IH]; intros [|p]; simpl; try reflexivity.
  now rewrite IH.
Qed.

Section LoopsOnView.

Variables (rec rec' : Rec) (depth maxDepth : Z) (excludeFields : list string).

Hypothesis rec_view : forall s t, rec' (queryView s) t = viewed (rec s t).

Lemma fieldsLoop_queryView (fields : list Field) :
  forall s L pfn,
    fieldsLoop rec' depth maxDepth false excludeFields
               (List.filter (fun f => negb (HasRequiredArg f)) fields)
               (queryView s) L pfn
    = match fieldsLoop rec depth maxDepth false excludeFields fields s L pfn with
      | Done (s', L', pfn') => Done (queryView s', L', pfn')
      | Panic => Panic
      | OutOfFuel => OutOfFuel
      end.
Proof.
  induction fields as [|field rest IH]; intros s L pfn; [reflexivity|].
  cbn [List.filter fieldsLoop negb andb].
  destruct (HasRequiredArg field) eqn:Ereq; cbn [negb]; [apply IH|].
  cbn [fieldsLoop negb andb]. rewrite Ereq.
  destruct (stringInStrings (f_Name field) excludeFields); [apply IH|].
  destruct (GetKinds (f_Type field) !! (List.length (GetKinds (f_Type field)) - 1))
    as [k|]; [|reflexivity].
  rewrite Lookup_queryView.
  destruct k; try apply IH;
    (destruct (depth >? maxDepth)%Z; [apply IH|];
     destruct (LookupTypeByName s (GetTypeName (f_Type field))) as [q|e];
     [|apply IH];
     rewrite rec_view;
     destruct (rec s (Some q)) as [[c s1]| |]; try reflexivity; cbn [viewed];
     destruct (String.eqb c "" || Nat.ltb (List.length (Split c)) 1); apply IH).
Qed.

Lemma possibleLoop_queryView (possibleTypes : list TypeRef) :
  forall s L pfn,
    possibleLoop rec' possibleTypes (queryView s) L pfn
    = match possibleLoop rec possibleTypes s L pfn with
      | Done (s', L') => Done (queryView s', L')
      | Panic => Panic
      | OutOfFuel => OutOfFuel
      end.
Proof.
  induction possibleTypes as [|pt rest IH]; intros s L pfn; [reflexivity|].
  cbn [possibleLoop]. rewrite Lookup_queryView, rec_view.
  destruct (rec s (ptr_of (LookupTypeByName s (tr_Name pt)))) as [[c s1]| |];
    try reflexivity.
  cbn [viewed]. apply IH.
Qed.

End LoopsOnView.

(** A query on the registry and on its view end the same way, with the same
    text. *)
Lemma query_on_view (maxDepth : Z) (excludeFields : list string) (fuel : nat) :
  forall s t depth,
    GetQueryStringFields fuel (queryView s) t depth maxDepth false excludeFields
    = viewed (GetQueryStringFields fuel s t depth maxDepth false excludeFields).
Proof.
  induction fuel as [|n IH]; intros s t depth; [reflexivity|].
  rewrite !GetQueryStringFields_S. unfold body.
  destruct t as [p|]; [|reflexivity].
  rewrite deref_queryView. destruct (deref s p) as [T|]; [|reflexivity].
  cbn [option_map].
  change (t_Fields (withoutRequired T))
    with (List.filter (fun f => negb (HasRequiredArg f)) (t_Fields T)).
  change (t_PossibleTypes (withoutRequired T)) with (t_PossibleTypes T).
  rewrite SliceStable_filter, <- storeFields_queryView.
  rewrite (fieldsLoop_queryView
             (fun s0 t0 => GetQueryStringFields n s0 t0 (int_incr depth) maxDepth false
                                                excludeFields)
             _ (int_incr depth) maxDepth excludeFields
             (fun s0 t0 => IH s0 t0 (int_incr depth))).
  destruct (fieldsLoop _ _ _ _ _ _ _ _ _) as [[[s1 L1] pfn]| |]; try reflexivity.
  rewrite (possibleLoop_queryView
             (fun s0 t0 => GetQueryStringFields n s0 t0 (int_incr depth) maxDepth false
                                                excludeFields)
             _ (fun s0 t0 => IH s0 t0 (int_incr depth))).
  destruct (possibleLoop _ _ _ _ _) as [[s2 L2]| |]; reflexivity.
Qed.

(** C4: in a query (not a mutation) a field with a required argument is
    never selected, at any depth, for the nested calls are queries as well.
    Over a registry with GraphQL names every line of the text, once its tabs
    are taken off, is empty, a closing brace, __typename, the opening of a
    fragment, or the selection (bare or opening a block) of a name borne by a
    field without a required argument; so the name of a field with a required
    argument, when no field without one shares it, is selected by no line at
    any indentation.  A query ends the same way, with the same text, on the
    registry from which every field with a required argument has been taken
    out of every type.  On the type the call is made on, the names of whose
    fields differ, a field with a required argument is no line of the text.
    In a mutation such a field may be selected: [create(name: String!)] is,
    and so is [find(id: ID!)] one level down, while queries leave both out. *)
Theorem required_argument_fields_are_left_out :
  (forall (fuel : nat) (s : Schema) (t : option ptr) (depth maxDepth : Z)
          (excludeFields : list string) (out : string) (s' : Schema),
      names_ok s = true ->
      GetQueryStringFields fuel s t depth maxDepth false excludeFields
      = Done (out, s') ->
      Forall (query_line s) (Split out)) /\
  (forall (fuel : nat) (s : Schema) (t : option ptr) (depth maxDepth : Z)
          (excludeFields : list string) (out : string) (s' : Schema)
          (p : ptr) (T : SchemaType) (f : Field),
      names_ok s = true ->
      deref s p = Some T ->
      In f (t_Fields T) ->
      HasRequiredArg f = true ->
      f_Name f <> "__typename" ->
      (forall q U g, deref s q = Some U -> In g (t_Fields U) ->
                     f_Name g = f_Name f -> HasRequiredArg g = true) ->
      GetQueryStringFields fuel s t depth maxDepth false excludeFields
      = Done (out, s') ->
      never_selects (f_Name f) (Split out)) /\
  (forall (fuel : nat) (s : Schema) (t : option ptr) (depth maxDepth : Z)
          (excludeFields : list string),
      GetQueryStringFields fuel (queryView s) t depth maxDepth false excludeFields
      = viewed (GetQueryStringFields fuel s t depth maxDepth false excludeFields)) /\
  (forall (fuel : nat) (s : Schema) (p : ptr) (T : SchemaType) (f : Field)
          (depth maxDepth : Z) (excludeFields : list string) (out : string)
          (s' : Schema),
      deref s p = Some T ->
      type_names_ok T = true ->
      List.NoDup (map f_Name (t_Fields T)) ->
      In f (t_Fields T) ->
      HasRequiredArg f = true ->
      GetQueryStringFields fuel s (Some p) depth maxDepth false excludeFields
      = Done (out, s') ->
      ~ In (f_Name f) (Split out) /\ ~ In (f_Name f +:+ " {") (Split out)) /\
  (HasRequiredArg createField = true /\
   GetQueryStringFields 1 mutations (Some 0) 0 1 true [] = Done ("create", mutations) /\
   GetQueryStringFields 1 mutations (Some 0) 0 1 false [] = Done ("", mutations)) /\
  (HasRequiredArg findField_ = true /\
   GetQueryStringFields 2 towns (Some 0) 0 1 true []
   = Done (Join ["house {"; tab +:+ "find"; tab +:+ "name"; "}"],
           mkSchema [Some (sortedType Town); Some (sortedType House)]) /\
   GetQueryStringFields 2 towns (Some 0) 0 1 false []
   = Done (Join ["house {"; tab +:+ "name"; "}"],
           mkSchema [Some (sortedType Town); Some (sortedType House)])).
Proof.
  split; [|split; [|split; [|split; [|split; repeat split]]]].
  - intros fuel s t depth maxDepth excludeFields out s' Hok Hrun.
    exact (query_lines_deep maxDepth excludeFields fuel s t depth out s' Hok Hrun).
  - intros fuel s t depth maxDepth excludeFields out s' p T f Hok HT Hf Hreq Hty Hall Hrun.
    assert (Hv : valid_name (f_Name f) = true).
    { apply (type_names_ok_fields T f (names_ok_deref s p T Hok HT)).
      now apply SliceStable_In. }
    assert (Hno : ~ selectableName s (f_Name f)).
    { intros (q & U & g & HU & Hg & Hgr & Eg).
      rewrite (Hall q U g HU Hg Eg) in Hgr. discriminate. }
    assert (Hvn : forall n, selectableName s n -> valid_name n = true).
    { intros n (q & U & g & HU & Hg & _ & <-).
      apply (type_names_ok_fields U g (names_ok_deref s q U Hok HU)).
      now apply SliceStable_In. }
    pose proof (query_lines_deep maxDepth excludeFields fuel s t depth out s' Hok Hrun)
      as Hq.
    unfold never_selects. eapply List.Forall_impl; [|exact Hq].
    intros l [E|[E|[E|[(x & E)|(n & Hn & [E|E])]]]]; rewrite E; split; intros E'.
    + rewrite <- E' in Hv. discriminate.
    + destruct (f_Name f); discriminate.
    + pose proof (valid_closes _ Hv) as Hc. rewrite <- E' in Hc. discriminate.
    + pose proof (opener_closes _ Hv) as Hc. rewrite <- E' in Hc. discriminate.
    + now apply Hty.
    + pose proof (opens_app_brace (f_Name f)) as Ho. rewrite <- E' in Ho. discriminate.
    + pose proof (valid_opens _ Hv) as Ho.
      rewrite <- E', fragmentHead_opens in Ho. discriminate.
    + pose proof (valid_fragment _ " {" Hv) as Hfr.
      rewrite <- E', fragmentHead_is_fragment in Hfr. discriminate.
    + apply Hno. now rewrite <- E'.
    + pose proof (valid_opens n (Hvn n Hn)) as Ho.
      rewrite E', opens_app_brace in Ho. discriminate.
    + pose proof (valid_opens _ Hv) as Ho.
      rewrite <- E', opens_app_brace in Ho. discriminate.
    + apply Hno. apply append_inj_suffix in E'. now rewrite <- E'.
  - intros fuel s t depth maxDepth excludeFields.
    exact (query_on_view maxDepth excludeFields fuel s t depth).
  - intros fuel s p T f depth maxDepth excludeFields out s' HT HTok Hnd Hf Hreq Hrun.
    assert (Hv : valid_name (f_Name f) = true).
    { apply (type_names_ok_fields T f HTok). now apply SliceStable_In. }
    destruct (valid_name_head _ Hv) as (c & r & En & Hc).
    destruct (name_char_plain c Hc) as (_ & Htab & _ & Hbr & _).
    assert (Hother : forall n, In n (selectable T) -> n <> f_Name f).
    { intros n Hn E. unfold selectable in Hn. apply in_map_iff in Hn.
      destruct Hn as (g & Eg & Hg). apply filter_In in Hg. destruct Hg as [Hg Hgr].
      assert (g = f) by (apply (NoDup_names (t_Fields T)); auto; congruence).
      subst g. rewrite Hreq in Hgr. discriminate. }
    destruct (query_lines_own fuel s p T depth maxDepth excludeFields out s' HT HTok Hrun)
      as [-> | Hown].
    + rewrite En. split; intros [E|[]]; discriminate.
    + rewrite List.Forall_forall in Hown. split; intros Hin; apply Hown in Hin.
      * destruct Hin as [Hi | [E | [(x & E) | (n & Hn & [E | E])]]].
        -- rewrite (valid_indented _ Hv) in Hi. discriminate.
        -- pose proof (valid_closes _ Hv) as Hcl. rewrite E in Hcl. discriminate.
        -- pose proof (valid_opens _ Hv) as Ho.
           rewrite E, fragmentHead_opens in Ho. discriminate.
        -- apply (Hother n Hn). now symmetry.
        -- pose proof (valid_opens _ Hv) as Ho.
           rewrite E, opens_app_brace in Ho. discriminate.
      * destruct Hin as [Hi | [E | [(x & E) | (n & Hn & [E | E])]]].
        -- rewrite En in Hi. simpl in Hi. rewrite Htab in Hi. discriminate.
        -- pose proof (opener_closes _ Hv) as Hcl. rewrite E in Hcl. discriminate.
        -- pose proof (valid_fragment _ " {" Hv) as Hfr.
           rewrite E, fragmentHead_is_fragment in Hfr. discriminate.
        -- pose proof (valid_opens n (selectable_valid T n HTok Hn)) as Ho.
           rewrite <- E, opens_app_brace in Ho. discriminate.
        -- apply (Hother n Hn). symmetry. now apply (append_inj_suffix _ _ " {").
Qed.

Lemma find_is_left_out_of_queries :
  names_ok towns = true /\
  deref towns 1 = Some House /\
  In findField_ (t_Fields House) /\
  HasRequiredArg findField_ = true /\
  f_Name findField_ <> "__typename" /\
  (forall q U g, deref towns q = Some U -> In g (t_Fields U) ->
                 f_Name g = f_Name findField_ -> HasRequiredArg g = true) /\
  GetQueryStringFields 2 towns (Some 0) 0 1 false []
  = Done (Join ["house {"; tab +:+ "name"; "}"],
          mkSchema [Some (sortedType Town); Some (sortedType House)]) /\
  Forall (query_line towns) (Split (Join ["house {"; tab +:+ "name"; "}"])) /\
  never_selects "find" (Split (Join ["house {"; tab +:+ "name"; "}"])) /\
  queryView towns
  = mkSchema [Some Town; Some (object "House" [scalarField "name" "String"])] /\
  GetQueryStringFields 2 (queryView towns) (Some 0) 0 1 false []
  = viewed (GetQueryStringFields 2 towns (Some 0) 0 1 false []).
Proof.
  assert (Hall : forall q U g, deref towns q = Some U -> In g (t_Fields U) ->
                               f_Name g = f_Name findField_ ->
                               HasRequiredArg g = true).
  { intros [|[|q]] U g HU Hg E; [| |destruct q; discriminate HU];
      injection HU as <-; simpl in Hg.
    - destruct Hg as [<-|[]]. discriminate E.
    - destruct Hg as [<-|[<-|[]]]; [reflexivity | discriminate E]. }
  split; [reflexivity|]. split; [reflexivity|]. split; [now left|].
  split; [reflexivity|]. split; [discriminate|]. split; [exact Hall|].
  split; [reflexivity|]. split; [|split; [|split; [reflexivity|]]].
  - apply (proj1 required_argument_fields_are_left_out 2 towns (Some 0) 0%Z 1%Z []
                 (Join ["house {"; tab +:+ "name"; "}"])
                 (mkSchema [Some (sortedType Town); Some (sortedType House)]));
      reflexivity.
  - apply (proj1 (proj2 required_argument_fields_are_left_out) 2 towns (Some 0) 0%Z 1%Z []
                 (Join ["house {"; tab +:+ "name"; "}"])
                 (mkSchema [Some (sortedType Town); Some (sortedType House)])
                 1 House findField_);
      try reflexivity; [now left | discriminate | exact Hall].
  - exact (proj1 (proj2 (proj2 required_argument_fields_are_left_out))
                 2 towns (Some 0) 0%Z 1%Z []).
Defined.
